(** * A shallow embedding of the maze engine (src/maze/grid.py, src/maze/algorithm.py)

    Python integers are modelled by [Z], lists by [list], the run-length text
    of a mask by [string], sets and dictionaries of cells by stdpp's [gset] and
    [gmap].  A Python exception is an explicit [Raise] result. *)

From Stdlib Require Import ZArith String Ascii Lia.
From stdpp Require Import base tactics option list gmap.

Local Open Scope Z_scope.

(** ** Exceptions and results *)

Inductive exn : Type :=
| ValueError
| IndexError
| KeyError
| NameError
| TypeError
| ZeroDivisionError
| AttributeError.

Inductive result (A : Type) : Type :=
| Ok (a : A)
| Raise (e : exn).
Arguments Ok {A} a.
Arguments Raise {A} e.

#[global] Instance result_ret : MRet result := fun A a => Ok a.
#[global] Instance result_bind : MBind result := fun A B f r =>
  match r with
  | Ok a => f a
  | Raise e => Raise e
  end.

(** ** Python list subscripts: a negative subscript counts from the end, a
    subscript outside the list raises IndexError. *)

Definition py_norm (n : nat) (i : Z) : Z :=
  if i <? 0 then i + Z.of_nat n else i.

Definition py_getitem {A} (l : list A) (i : Z) : result A :=
  let j := py_norm (length l) i in
  if (j <? 0) || (Z.of_nat (length l) <=? j) then Raise IndexError
  else match l !! Z.to_nat j with
       | Some x => Ok x
       | None => Raise IndexError
       end.

Definition py_setitem {A} (l : list A) (i : Z) (x : A) : result (list A) :=
  let j := py_norm (length l) i in
  if (j <? 0) || (Z.of_nat (length l) <=? j) then Raise IndexError
  else Ok (<[Z.to_nat j := x]> l).

(** ** Decimal text of an integer, as an f-string prints it *)

Definition digit_char (d : Z) : ascii := ascii_of_nat (48 + Z.to_nat d).

Fixpoint dec_digits (fuel : nat) (n : Z) (acc : string) : string :=
  match fuel with
  | O => acc
  | S fuel' =>
      let acc' := String (digit_char (n mod 10)) acc in
      if n / 10 =? 0 then acc' else dec_digits fuel' (n / 10) acc'
  end.

Definition str_of_int (n : Z) : string :=
  if n <? 0
  then String "-" (dec_digits (S (Z.to_nat (Z.log2 (- n)))) (- n) "")
  else dec_digits (S (Z.to_nat (Z.log2 n))) n "".

(** ** class Mask *)

Record Mask : Type := mk_Mask { _mask : list (list bool) }.

(** [Mask.__init__]: [rows] fresh rows of [columns] cells, all on. *)
Definition Mask_init (rows columns : Z) : Mask :=
  mk_Mask (replicate (Z.to_nat rows) (replicate (Z.to_nat columns) true)).

(** [Mask.rows] is [len(self._mask)]. *)
Definition Mask_rows (m : Mask) : Z := Z.of_nat (length (_mask m)).

(** [Mask.columns] is [len(self._mask[0])]: it raises when there is no row. *)
Definition Mask_columns (m : Mask) : result Z :=
  row0 ← py_getitem (_mask m) 0; Ok (Z.of_nat (length row0)).

(** [Mask.__getitem__] *)
Definition Mask_getitem (m : Mask) (r c : Z) : result bool :=
  if (r <? 0) || (Mask_rows m <=? r) then Ok false
  else
    columns ← Mask_columns m;
    if (c <? 0) || (columns <=? c) then Ok false
    else row ← py_getitem (_mask m) r; py_getitem row c.

(** [Mask.__setitem__]: the outcome of the call together with the mask as the
    call leaves it (an exception does not undo anything, and here nothing was
    written before it is raised). *)
Definition Mask_setitem (m : Mask) (r c : Z) (is_on : bool) : result unit * Mask :=
  if (r <? 0) || (Mask_rows m <=? r) then (Raise IndexError, m)
  else
    match Mask_columns m with
    | Raise e => (Raise e, m)
    | Ok columns =>
        if (c <? 0) || (columns <=? c) then (Raise IndexError, m)
        else
          match py_getitem (_mask m) r with
          | Raise e => (Raise e, m)
          | Ok row =>
              match py_setitem row c is_on with
              | Raise e => (Raise e, m)
              | Ok row' =>
                  match py_setitem (_mask m) r row' with
                  | Raise e => (Raise e, m)
                  | Ok rows' => (Ok tt, mk_Mask rows')
                  end
              end
          end
    end.

(** Every mask the program builds is rectangular: [__init__] makes it so and
    [__setitem__] keeps the shape. *)
Definition Mask_rect (m : Mask) : Prop :=
  ∀ row, row ∈ _mask m → length row = length (default [] (head (_mask m))).

(** *** The run-length decoder, [Mask.from_RLE] *)

Record _state : Type := mk_state {
  mask : option Mask;
  width : option Z;
  height : option Z;
  count : Z;
  index : Z
}.

Definition _state_init : _state := mk_state None None None 0 0.

(** [_state.rowcol] is [divmod(self.index, self.width)]. *)
Definition rowcol (s : _state) : result (Z * Z) :=
  match width s with
  | None => Raise TypeError
  | Some w => if w =? 0 then Raise ZeroDivisionError
              else Ok (index s / w, index s mod w)
  end.

(** [get_and_reset_count()]: the pending count (1 when none was given) and the
    state with the count cleared. *)
Definition get_and_reset_count (s : _state) : Z * _state :=
  (if 0 <? count s then count s else 1,
   mk_state (mask s) (width s) (height s) 0 (index s)).

Definition is_whitespace (ch : ascii) : bool :=
  match nat_of_ascii ch with
  | 32%nat | 9%nat | 10%nat | 13%nat | 11%nat | 12%nat => true
  | _ => false
  end.

Definition is_digit (ch : ascii) : bool :=
  let n := nat_of_ascii ch in (48 <=? n)%nat && (n <=? 57)%nat.

(** The body of the ['o'] branch's [for _ in range(cnt)] loop, [n] times. *)
Fixpoint turn_off (n : nat) (s : _state) : result _state :=
  match n with
  | O => Ok s
  | S n' =>
      match mask s with
      | None => Raise TypeError
      | Some m =>
          rc ← rowcol s;
          match Mask_setitem m rc.1 rc.2 false with
          | (Raise e, _) => Raise e
          | (Ok _, m') =>
              turn_off n' (mk_state (Some m') (width s) (height s) (count s) (index s + 1))
          end
      end
  end.

(** One character of the [for ch in rle] loop.  [None] is the [break] of
    ['!'], [Some s] the state the next character starts from. *)
Definition from_RLE_step (s : _state) (ch : ascii) : result (option _state) :=
  if is_whitespace ch then Ok (Some s)
  else if is_digit ch then
    Ok (Some (mk_state (mask s) (width s) (height s)
                (count s * 10 + (Z.of_nat (nat_of_ascii ch) - 48)) (index s)))
  else if Ascii.eqb ch "w" then
    match width s with
    | None =>
        let '(cnt, s1) := get_and_reset_count s in
        let s2 := mk_state (mask s1) (Some cnt) (height s1) (count s1) (index s1) in
        match height s2, mask s2 with
        | Some h, None =>
            Ok (Some (mk_state (Some (Mask_init h cnt)) (width s2) (height s2) (count s2) (index s2)))
        | _, _ => Ok (Some s2)
        end
    | Some _ => Raise NameError
    end
  else if Ascii.eqb ch "h" then
    match height s with
    | None =>
        let '(cnt, s1) := get_and_reset_count s in
        let s2 := mk_state (mask s1) (width s1) (Some cnt) (count s1) (index s1) in
        match width s2, mask s2 with
        | Some w, None =>
            Ok (Some (mk_state (Some (Mask_init cnt w)) (width s2) (height s2) (count s2) (index s2)))
        | _, _ => Ok (Some s2)
        end
    | Some _ => Raise NameError
    end
  else if Ascii.eqb ch "o" then
    match mask s with
    | None => Raise ValueError
    | Some _ =>
        let '(cnt, s1) := get_and_reset_count s in
        s2 ← turn_off (Z.to_nat cnt) s1; Ok (Some s2)
    end
  else if Ascii.eqb ch "." then
    let '(cnt, s1) := get_and_reset_count s in
    Ok (Some (mk_state (mask s1) (width s1) (height s1) (count s1) (index s1 + cnt)))
  else if Ascii.eqb ch "$" then
    match width s with
    | None => Raise ValueError
    | Some w =>
        rc ← rowcol s;
        Ok (Some (mk_state (mask s) (width s) (height s) (count s) (index s + (w - rc.2))))
    end
  else if Ascii.eqb ch "!" then Ok None
  else Raise ValueError.

(** The [for ch in rle] loop: the state when the text is used up or ['!'] is
    met. *)
Fixpoint from_RLE_loop (rle : string) (s : _state) : result _state :=
  match rle with
  | EmptyString => Ok s
  | String ch rest =>
      match from_RLE_step s ch with
      | Raise e => Raise e
      | Ok None => Ok s
      | Ok (Some s') => from_RLE_loop rest s'
      end
  end.

(** [Mask.from_RLE]: it returns [s.mask], which is [None] as long as no mask
    was allocated. *)
Definition Mask_from_RLE (rle : string) : result (option Mask) :=
  s ← from_RLE_loop rle _state_init; Ok (mask s).

(** *** The run-length encoder, [Mask.to_RLE] *)

(** The dictionary [ch = { True: '.', False: 'o' }]. *)
Definition ch (val : bool) : ascii := if val then "."%char else "o"%char.

(** [output_count()]: appends the pending run to the pieces [rle]. *)
Definition output_count (rle : list string) (current : bool) (count : Z) : list string :=
  if 1 =? count
  then rle ++ [String (ch current) EmptyString]
  else rle ++ [(str_of_int count ++ String (ch current) EmptyString)%string].

(** The body of the inner [for val in row] loop, on the triple
    [(rle, current, count)]. *)
Definition to_RLE_val (st : list string * option bool * Z) (val : bool)
  : list string * option bool * Z :=
  let '(rle, current, count) := st in
  if decide (Some val = current) then (rle, current, count + 1)
  else (match current with
        | Some cur => output_count rle cur count
        | None => rle
        end, Some val, 1).

Definition to_RLE_row (st : list string * option bool * Z) (row : list bool) :=
  foldl to_RLE_val st row.

Definition Mask_to_RLE (m : Mask) : result string :=
  columns ← Mask_columns m;
  let rle0 := [(str_of_int (Mask_rows m) ++ "h" ++ str_of_int columns ++ "w")%string] in
  let '(rle, current, count) := foldl to_RLE_row (rle0, None, 0) (_mask m) in
  let rle := match current with
             | Some cur => output_count rle cur count
             | None => rle
             end in
  Ok (String.concat "" rle).

(** ** Properties of the mask and of its codec *)

Section MaskFacts.

Implicit Types (m : Mask) (s : _state) (rest : string).

(** The cell of a matrix at a position given by naturals. *)
Definition cell_at (M : list (list bool)) (r c : nat) : option bool :=
  M !! r ≫= (.!! c).

(** A matrix of [R] rows of [w] cells each. *)
Definition has_shape (M : list (list bool)) (R w : nat) : Prop :=
  length M = R ∧ Forall (λ row, length row = w) M.

Lemma Mask_init_shape (R w : nat) :
  has_shape (_mask (Mask_init (Z.of_nat R) (Z.of_nat w))) R w.
Proof.
  unfold Mask_init, has_shape; simpl. rewrite !Nat2Z.id, length_replicate.
  split; [done|]. apply Forall_replicate, length_replicate.
Qed.

Lemma Mask_init_cell (R w r c : nat) :
  (r < R)%nat → (c < w)%nat →
  cell_at (_mask (Mask_init (Z.of_nat R) (Z.of_nat w))) r c = Some true.
Proof.
  intros Hr Hc. unfold cell_at, Mask_init; simpl. rewrite !Nat2Z.id.
  rewrite lookup_replicate_2 by done. simpl. by rewrite lookup_replicate_2.
Qed.

Lemma has_shape_rect M R w : has_shape M R w → Mask_rect (mk_Mask M).
Proof.
  intros [_ HF] row Hrow; simpl in *.
  rewrite Forall_forall in HF. rewrite (HF _ Hrow).
  destruct M as [|row0 M']; [by apply elem_of_nil in Hrow|]. simpl.
  symmetry. apply HF. left.
Qed.

Lemma Mask_rect_shape m :
  Mask_rect m →
  has_shape (_mask m) (length (_mask m)) (length (default [] (head (_mask m)))).
Proof. intros Hrect. split; [done|]. by apply Forall_forall. Qed.

Lemma py_getitem_nat {A} (l : list A) (i : nat) x :
  l !! i = Some x → py_getitem l (Z.of_nat i) = Ok x.
Proof.
  intros Hi. pose proof (lookup_lt_Some _ _ _ Hi) as Hlt.
  unfold py_getitem, py_norm.
  destruct (Z.of_nat i <? 0) eqn:E1; [lia|].
  rewrite E1. destruct (Z.of_nat (length l) <=? Z.of_nat i) eqn:E2; [lia|].
  simpl. by rewrite Nat2Z.id, Hi.
Qed.

Lemma py_setitem_nat {A} (l : list A) (i : nat) x :
  (i < length l)%nat → py_setitem l (Z.of_nat i) x = Ok (<[i := x]> l).
Proof.
  intros Hlt. unfold py_setitem, py_norm.
  destruct (Z.of_nat i <? 0) eqn:E1; [lia|].
  rewrite E1. destruct (Z.of_nat (length l) <=? Z.of_nat i) eqn:E2; [lia|].
  simpl. by rewrite Nat2Z.id.
Qed.

Lemma Mask_columns_shape M R w :
  has_shape M R w → (0 < R)%nat → Mask_columns (mk_Mask M) = Ok (Z.of_nat w).
Proof.
  intros [HR HF] Hpos. unfold Mask_columns; simpl.
  destruct M as [|row0 M']; [simpl in *; lia|].
  rewrite (py_getitem_nat _ 0%nat row0) by done. simpl.
  by rewrite (Forall_inv HF).
Qed.

(** Writing a cell that lies inside the matrix succeeds, keeps the shape and
    changes that cell only. *)
Lemma Mask_setitem_in_range M R w (r c : nat) v :
  has_shape M R w → (r < R)%nat → (c < w)%nat →
  ∃ M', Mask_setitem (mk_Mask M) (Z.of_nat r) (Z.of_nat c) v = (Ok tt, mk_Mask M')
        ∧ has_shape M' R w
        ∧ ∀ r' c', cell_at M' r' c' =
            if decide (r' = r ∧ c' = c) then Some v else cell_at M r' c'.
Proof.
  intros Hsh Hr Hc. pose proof Hsh as [HR HF].
  destruct (lookup_lt_is_Some_2 M r) as [row Hrow]; [lia|].
  assert (length row = w) as Hlen.
  { rewrite Forall_forall in HF. apply HF. by eapply list_elem_of_lookup_2. }
  exists (<[r := <[c := v]> row]> M). split; [|split].
  - unfold Mask_setitem, Mask_rows; simpl.
    destruct (Z.of_nat r <? 0) eqn:E1; [lia|].
    destruct (Z.of_nat (length M) <=? Z.of_nat r) eqn:E2; [lia|]. simpl.
    rewrite (Mask_columns_shape M R w) by (done || lia).
    destruct (Z.of_nat c <? 0) eqn:E3; [lia|].
    destruct (Z.of_nat w <=? Z.of_nat c) eqn:E4; [lia|]. simpl.
    rewrite (py_getitem_nat _ _ _ Hrow).
    rewrite py_setitem_nat by lia.
    by rewrite py_setitem_nat by lia.
  - split; [by rewrite length_insert|].
    apply Forall_insert; [done|]. by rewrite length_insert.
  - intros r' c'. unfold cell_at. case_decide as Hd.
    + destruct Hd as [-> ->]. rewrite list_lookup_insert_eq by lia. simpl.
      by rewrite list_lookup_insert_eq by lia.
    + destruct (decide (r' = r)) as [->|Hne].
      * rewrite list_lookup_insert_eq by lia. rewrite Hrow. simpl.
        rewrite list_lookup_insert_ne; [done|]. intros ->. by apply Hd.
      * by rewrite list_lookup_insert_ne.
Qed.

(** Two matrices of one shape that agree cell by cell are the same. *)
Lemma has_shape_ext M1 M2 R w :
  has_shape M1 R w → has_shape M2 R w →
  (∀ r c, (r < R)%nat → (c < w)%nat → cell_at M1 r c = cell_at M2 r c) →
  M1 = M2.
Proof.
  intros [HR1 HF1] [HR2 HF2] Hcells.
  apply (list_eq_same_length _ _ R); [done..|].
  intros r row1 row2 Hr H1 H2.
  assert (length row1 = w) as Hl1.
  { rewrite Forall_forall in HF1. apply HF1. by eapply list_elem_of_lookup_2. }
  assert (length row2 = w) as Hl2.
  { rewrite Forall_forall in HF2. apply HF2. by eapply list_elem_of_lookup_2. }
  apply (list_eq_same_length _ _ w); [done..|].
  intros c x y Hc Hx Hy.
  specialize (Hcells r c Hr Hc). unfold cell_at in Hcells.
  rewrite H1, H2 in Hcells. simpl in Hcells. congruence.
Qed.

End MaskFacts.

Section Decoder.

Implicit Types (m : Mask) (s : _state) (rest : string).

Definition with_count (s : _state) (n : Z) : _state :=
  mk_state (mask s) (width s) (height s) n (index s).

Lemma string_app_cons x (a b : string) :
  (String x a ++ b)%string = String x (a ++ b)%string.
Proof. reflexivity. Qed.

Lemma string_app_nil_l (b : string) : ("" ++ b)%string = b.
Proof. reflexivity. Qed.

Lemma string_app_assoc (a b c : string) : ((a ++ b) ++ c = a ++ (b ++ c))%string.
Proof.
  induction a as [|x a IH]; [done|].
  rewrite !string_app_cons. f_equal. exact IH.
Qed.

Lemma string_app_nil_r (a : string) : (a ++ "" = a)%string.
Proof.
  induction a as [|x a IH]; [done|].
  rewrite string_app_cons. f_equal. exact IH.
Qed.

Lemma from_RLE_loop_digit s d rest :
  0 ≤ d < 10 →
  from_RLE_loop (String (digit_char d) rest) s =
  from_RLE_loop rest (with_count s (count s * 10 + d)).
Proof.
  intros Hd.
  assert (d = 0 ∨ d = 1 ∨ d = 2 ∨ d = 3 ∨ d = 4 ∨ d = 5 ∨ d = 6 ∨ d = 7
          ∨ d = 8 ∨ d = 9) as Hcases by lia.
  destruct_or!; subst d; reflexivity.
Qed.

Lemma from_RLE_loop_dec_digits fuel n acc rest s :
  0 ≤ n < 2 ^ Z.of_nat fuel → count s = 0 →
  from_RLE_loop (dec_digits fuel n acc ++ rest) s =
  from_RLE_loop (acc ++ rest) (with_count s n).
Proof.
  revert n acc s. induction fuel as [|fuel IH]; intros n acc s Hn Hc.
  - simpl in *. assert (n = 0) as -> by lia.
    destruct s; simpl in *; subst; done.
  - cbn [dec_digits].
    assert (0 ≤ n mod 10 < 10) as Hmod by (apply Z.mod_pos_bound; lia).
    pose proof (Z.div_mod n 10 ltac:(lia)) as Hdm.
    destruct (n / 10 =? 0) eqn:E.
    + apply Z.eqb_eq in E. rewrite string_app_cons.
      rewrite from_RLE_loop_digit by done. rewrite Hc.
      do 2 f_equal. lia.
    + apply Z.eqb_neq in E.
      rewrite IH; [..|done].
      * rewrite string_app_cons, from_RLE_loop_digit by done.
        unfold with_count; simpl. do 2 f_equal. lia.
      * rewrite Nat2Z.inj_succ, Z.pow_succ_r in Hn by lia.
        split; [apply Z.div_pos; lia|].
        apply Z.div_lt_upper_bound; lia.
Qed.

Lemma from_RLE_loop_str_of_int n rest s :
  0 ≤ n → count s = 0 →
  from_RLE_loop (str_of_int n ++ rest) s = from_RLE_loop rest (with_count s n).
Proof.
  intros Hn Hc. unfold str_of_int.
  destruct (n <? 0) eqn:E; [lia|].
  rewrite from_RLE_loop_dec_digits; [done| |done].
  split; [done|].
  rewrite Nat2Z.inj_succ, Z2Nat.id by apply Z.log2_nonneg.
  destruct (decide (n = 0)) as [->|Hne]; [done|].
  apply Z.log2_spec. lia.
Qed.

(** A ['.'] only moves the cursor, in every state. *)
Lemma from_RLE_loop_dot s rest :
  from_RLE_loop (String "." rest) s =
  from_RLE_loop rest
    (mk_state (mask s) (width s) (height s) 0
       (index s + (if 0 <? count s then count s else 1))).
Proof. reflexivity. Qed.

Lemma from_RLE_loop_o s rest M :
  mask s = Some M →
  from_RLE_loop (String "o" rest) s =
  match turn_off (Z.to_nat (if 0 <? count s then count s else 1)) (with_count s 0) with
  | Ok s' => from_RLE_loop rest s'
  | Raise e => Raise e
  end.
Proof.
  intros HM. cbn [from_RLE_loop]. unfold from_RLE_step, with_count.
  change (is_whitespace "o") with false. change (is_digit "o") with false.
  cbn -[turn_off Z.to_nat]. rewrite HM. cbn -[turn_off Z.to_nat].
  by destruct (turn_off _ _).
Qed.

(** The state of the decoder while the runs are read: the mask is allocated
    with [R] rows of [w] cells, the cursor is at [i], and the cells before the
    cursor hold the values of [target] while the others are still on. *)
Definition decoding (target : list bool) (R w : nat) (s : _state) (i : nat) : Prop :=
  ∃ M, mask s = Some M ∧ has_shape (_mask M) R w
       ∧ width s = Some (Z.of_nat w) ∧ index s = Z.of_nat i ∧ count s = 0
       ∧ ∀ r c, (r < R)%nat → (c < w)%nat →
           cell_at (_mask M) r c =
           Some (if decide (r * w + c < i)%nat
                 then default true (target !! (r * w + c)%nat) else true).

Lemma divmod_row_major (w r c : nat) :
  (c < w)%nat → ((r * w + c) `div` w = r ∧ (r * w + c) `mod` w = c)%nat.
Proof.
  intros Hc. split.
  - rewrite Nat.div_add_l, Nat.div_small by lia. lia.
  - rewrite Nat.add_comm, Nat.Div0.mod_add. by apply Nat.mod_small.
Qed.

Lemma turn_off_decoding target R w n s i :
  (0 < w)%nat →
  decoding target R w s i →
  (i + n ≤ R * w)%nat →
  (∀ k, (k < n)%nat → target !! (i + k)%nat = Some false) →
  ∃ s', turn_off n s = Ok s' ∧ decoding target R w s' (i + n).
Proof.
  intros Hw. revert s i. induction n as [|n IH]; intros s i Hdec Hle Htar.
  - exists s. split; [done|]. by rewrite Nat.add_0_r.
  - destruct Hdec as (M & HM & Hsh & Hwd & Hidx & Hcnt & Hcells).
    cbn [turn_off]. rewrite HM. unfold rowcol. rewrite Hwd.
    destruct (Z.of_nat w =? 0) eqn:E; [lia|]. cbn [mbind result_bind fst snd].
    rewrite Hidx.
    rewrite <- Nat2Z.inj_div, <- Nat2Z.inj_mod.
    assert (i `div` w < R)%nat as Hr.
    { apply Nat.Div0.div_lt_upper_bound. lia. }
    assert (i `mod` w < w)%nat as Hc by (apply Nat.mod_upper_bound; lia).
    destruct M as [M]. simpl in Hsh, Hcells.
    destruct (Mask_setitem_in_range M R w _ _ false Hsh Hr Hc)
      as (M' & -> & Hsh' & Hcells').
    replace (i + S n)%nat with (S i + n)%nat by lia.
    apply IH; [|lia|].
    + exists (mk_Mask M'). simpl. split_and!; [done..|lia|done|].
      intros r c Hr' Hc'. rewrite Hcells'.
      pose proof (Nat.div_mod_eq i w) as Hdm.
      case_decide as Hd.
      * destruct Hd as [-> ->].
        rewrite decide_True by lia.
        replace (i `div` w * w + i `mod` w)%nat with (i + 0)%nat by lia.
        rewrite Htar by lia. done.
      * rewrite Hcells by done.
        assert (r * w + c ≠ i)%nat as Hne.
        { intros Heq. apply Hd. rewrite <- Heq.
          by destruct (divmod_row_major w r c Hc') as [-> ->]. }
        repeat case_decide; (done || lia).
    + intros k Hk. replace (S i + k)%nat with (i + S k)%nat by lia.
      apply Htar. lia.
Qed.

End Decoder.

Section Encoder.

Implicit Types (m : Mask) (s : _state) (rest : string).

(** The text of one run, as [output_count] appends it. *)
Definition run_text (current : bool) (count : Z) : string :=
  if 1 =? count then String (ch current) EmptyString
  else (str_of_int count ++ String (ch current) EmptyString)%string.

(** The text the encoder still has to produce for the cells [vals], when it
    holds the pending run [(current, count)]. *)
Fixpoint runs_text (vals : list bool) (current : option bool) (count : Z) : string :=
  match vals with
  | [] => match current with
          | Some cur => run_text cur count
          | None => EmptyString
          end
  | val :: vals' =>
      if decide (Some val = current) then runs_text vals' current (count + 1)
      else ((match current with
             | Some cur => run_text cur count
             | None => EmptyString
             end) ++ runs_text vals' (Some val) 1)%string
  end.

Lemma output_count_run_text rle cur cnt :
  output_count rle cur cnt = rle ++ [run_text cur cnt].
Proof. unfold output_count, run_text. by destruct (1 =? cnt). Qed.

Lemma string_concat_snoc (l : list string) (x : string) :
  String.concat "" (l ++ [x]) = (String.concat "" l ++ x)%string.
Proof.
  induction l as [|y l IH]; [done|].
  destruct l as [|z l].
  - simpl. by rewrite string_app_nil_l.
  - change (String.concat "" ((y :: z :: l) ++ [x]))
      with (y ++ "" ++ String.concat "" ((z :: l) ++ [x]))%string.
    rewrite IH.
    change (String.concat "" (y :: z :: l))
      with (y ++ "" ++ String.concat "" (z :: l))%string.
    by rewrite !string_app_nil_l, string_app_assoc.
Qed.

Definition finish (st : list string * option bool * Z) : list string :=
  match st with
  | (rle, Some cur, count) => output_count rle cur count
  | (rle, None, _) => rle
  end.

Lemma to_RLE_val_fold vals rle current cnt :
  String.concat "" (finish (foldl to_RLE_val (rle, current, cnt) vals)) =
  (String.concat "" rle ++ runs_text vals current cnt)%string.
Proof.
  revert rle current cnt. induction vals as [|val vals IH]; intros rle current cnt.
  - simpl. destruct current as [cur|]; simpl.
    + by rewrite output_count_run_text, string_concat_snoc.
    + by rewrite string_app_nil_r.
  - cbn [foldl runs_text]. unfold to_RLE_val at 2.
    case_decide as Hd.
    + apply IH.
    + rewrite IH. destruct current as [cur|].
      * by rewrite output_count_run_text, string_concat_snoc, string_app_assoc.
      * by rewrite string_app_nil_l.
Qed.

Lemma to_RLE_row_fold (M : list (list bool)) st :
  foldl to_RLE_row st M = foldl to_RLE_val st (mjoin M).
Proof.
  revert st. induction M as [|row M IH]; intros st; [done|].
  simpl. rewrite foldl_app. apply IH.
Qed.

Lemma Mask_to_RLE_text M R w :
  has_shape M R w → (0 < R)%nat →
  Mask_to_RLE (mk_Mask M) =
  Ok (str_of_int (Z.of_nat R) ++ String "h" (str_of_int (Z.of_nat w)
        ++ String "w" (runs_text (mjoin M) None 0)))%string.
Proof.
  intros Hsh HR. unfold Mask_to_RLE.
  rewrite (Mask_columns_shape M R w) by done.
  cbn [mbind result_bind]. unfold Mask_rows. cbn [_mask].
  rewrite to_RLE_row_fold. rewrite (proj1 Hsh).
  pose proof (to_RLE_val_fold (mjoin M)
    [(str_of_int (Z.of_nat R) ++ "h" ++ str_of_int (Z.of_nat w) ++ "w")%string]
    None 0) as Hfold.
  destruct (foldl to_RLE_val _ (mjoin M)) as [[rle current] cnt].
  unfold finish in Hfold.
  assert (∀ x y : string, x = y → Ok x = Ok y) as Hok by (by intros ?? ->).
  apply Hok.
  destruct current; rewrite Hfold; cbn [String.concat];
    by rewrite !string_app_assoc.
Qed.

End Encoder.

Section RoundTrip.

Implicit Types (m : Mask) (s : _state) (rest : string).

Lemma run_char_decoding target R w cur (cnt i : nat) (c : Z) s rest :
  (0 < w)%nat →
  (if 0 <? c then c else 1) = Z.of_nat cnt →
  decoding target R w s i →
  (i + cnt ≤ R * w)%nat →
  (∀ k, (k < cnt)%nat → target !! (i + k)%nat = Some cur) →
  ∃ s', from_RLE_loop (String (ch cur) rest) (with_count s c) = from_RLE_loop rest s'
        ∧ decoding target R w s' (i + cnt).
Proof.
  intros Hw Hc Hdec Hle Htar. destruct cur; cbn [ch].
  - rewrite from_RLE_loop_dot. eexists. split; [done|].
    destruct Hdec as (M & HM & Hsh & Hwd & Hidx & Hcnt & Hcells).
    exists M. cbn. rewrite Hc. split_and!; [done..|lia|done|].
    intros r c' Hr Hc'. rewrite Hcells by done. f_equal.
    destruct (decide (r * w + c' < i)%nat) as [Hlt|Hge].
    + by rewrite decide_True by lia.
    + case_decide as Hd; [|done].
      replace (r * w + c')%nat with (i + (r * w + c' - i))%nat by lia.
      by rewrite Htar by lia.
  - destruct Hdec as (M & HM & Hsh & Hwd & Hidx & Hcnt & Hcells).
    rewrite (from_RLE_loop_o _ _ M) by done.
    cbn [count with_count]. rewrite Hc, Nat2Z.id.
    destruct (turn_off_decoding target R w cnt
                (with_count (with_count s c) 0) i) as (s' & -> & Hdec');
      [done| |done..|by exists s'].
    exists M. by split_and!.
Qed.

Lemma run_text_decoding target R w cur (cnt i : nat) s rest :
  (0 < w)%nat → (1 ≤ cnt)%nat →
  decoding target R w s i →
  (i + cnt ≤ R * w)%nat →
  (∀ k, (k < cnt)%nat → target !! (i + k)%nat = Some cur) →
  ∃ s', from_RLE_loop (run_text cur (Z.of_nat cnt) ++ rest) s = from_RLE_loop rest s'
        ∧ decoding target R w s' (i + cnt).
Proof.
  intros Hw Hcnt Hdec Hle Htar. unfold run_text.
  assert (count s = 0) as Hc0 by (by destruct Hdec as (?&?&?&?&?&?&?)).
  destruct (1 =? Z.of_nat cnt) eqn:E.
  - apply Z.eqb_eq in E. rewrite string_app_cons, string_app_nil_l.
    assert (with_count s 0 = s) as Hs
      by (destruct s; unfold with_count; simpl in *; by subst).
    destruct (run_char_decoding target R w cur cnt i 0 s rest)
      as (s' & Hrun & Hdec'); [done|simpl; lia|done..|].
    rewrite Hs in Hrun. by exists s'.
  - apply Z.eqb_neq in E.
    rewrite string_app_assoc, from_RLE_loop_str_of_int by (done || lia).
    rewrite string_app_cons, string_app_nil_l.
    apply run_char_decoding; try done.
    destruct (0 <? Z.of_nat cnt) eqn:E'; [done|lia].
Qed.

Lemma runs_text_decoding target R w vals cur (cnt i : nat) s :
  (0 < w)%nat → (1 ≤ cnt)%nat →
  length target = (R * w)%nat →
  drop i target = replicate cnt cur ++ vals →
  decoding target R w s i →
  ∃ s', from_RLE_loop (runs_text vals (Some cur) (Z.of_nat cnt)) s = Ok s'
        ∧ decoding target R w s' (R * w).
Proof.
  intros Hw. revert cur cnt i s.
  induction vals as [|val vals IH]; intros cur cnt i s Hcnt Hlen Hdrop Hdec.
  - cbn [runs_text]. rewrite app_nil_r in Hdrop.
    pose proof (f_equal length Hdrop) as Hl.
    rewrite length_drop, length_replicate in Hl.
    destruct (run_text_decoding target R w cur cnt i s "" Hw Hcnt Hdec)
      as (s' & Hrun & Hdec'); [lia| |].
    { intros k Hk. rewrite <- lookup_drop, Hdrop. by apply lookup_replicate_2. }
    rewrite string_app_nil_r in Hrun. rewrite Hrun. cbn.
    exists s'. split; [done|]. by replace (R * w)%nat with (i + cnt)%nat by lia.
  - pose proof (f_equal length Hdrop) as Hl.
    rewrite length_drop, length_app, length_replicate in Hl. simpl in Hl.
    cbn [runs_text]. case_decide as Hd.
    + injection Hd as ->.
      replace (Z.of_nat cnt + 1) with (Z.of_nat (S cnt)) by lia.
      apply (IH cur (S cnt) i); [lia|done| |done].
      rewrite Hdrop, replicate_S_end, <- app_assoc. done.
    + destruct (run_text_decoding target R w cur cnt i s
                  (runs_text vals (Some val) 1) Hw Hcnt Hdec)
        as (s' & Hrun & Hdec'); [lia| |].
      { intros k Hk. rewrite <- lookup_drop, Hdrop.
        rewrite lookup_app_l by (rewrite length_replicate; lia).
        by apply lookup_replicate_2. }
      rewrite Hrun.
      apply (IH val 1%nat (i + cnt)%nat); [lia|done| |done].
      rewrite <- (drop_drop target cnt i), Hdrop.
      by rewrite drop_app_length' by (by rewrite length_replicate).
Qed.

Lemma mjoin_cell_at (M : list (list bool)) R w r c :
  has_shape M R w → (r < R)%nat → (c < w)%nat →
  cell_at M r c = mjoin M !! (r * w + c)%nat ∧ is_Some (cell_at M r c).
Proof.
  intros [HR HF] Hr Hc.
  destruct (lookup_lt_is_Some_2 M r) as [row Hrow]; [lia|].
  assert (length row = w) as Hlen.
  { rewrite Forall_forall in HF. apply HF. by eapply list_elem_of_lookup_2. }
  destruct (lookup_lt_is_Some_2 row c) as [x Hx]; [lia|].
  assert (cell_at M r c = Some x) as Hcell.
  { unfold cell_at. rewrite Hrow. simpl. done. }
  rewrite Hcell. split; [|by eexists]. symmetry.
  apply (join_lookup_Some_same_length' w); [done..|].
  by exists row.
Qed.

Lemma length_mjoin_shape (M : list (list bool)) R w :
  has_shape M R w → length (mjoin M) = (R * w)%nat.
Proof.
  intros [<- HF]. induction HF as [|row M Hrow HF IH]; [done|].
  simpl. rewrite length_app, IH, Hrow. lia.
Qed.

Lemma Mask_round_trip_shape M R w :
  has_shape M R w → (0 < R)%nat → (0 < w)%nat →
  (Mask_to_RLE (mk_Mask M) ≫= Mask_from_RLE) = Ok (Some (mk_Mask M)).
Proof.
  intros Hsh HR Hw.
  rewrite (Mask_to_RLE_text M R w) by done. cbn [mbind result_bind].
  unfold Mask_from_RLE.
  rewrite from_RLE_loop_str_of_int by (done || lia).
  cbn [from_RLE_loop].
  unfold from_RLE_step at 1.
  change (is_whitespace "h") with false. change (is_digit "h") with false.
  cbn [Ascii.eqb Bool.eqb with_count _state_init height mask width count index
       get_and_reset_count].
  destruct (0 <? Z.of_nat R) eqn:ER; [|lia].
  rewrite from_RLE_loop_str_of_int by (done || lia).
  cbn [from_RLE_loop].
  unfold from_RLE_step at 1.
  change (is_whitespace "w") with false. change (is_digit "w") with false.
  cbn [Ascii.eqb Bool.eqb with_count _state_init height mask width count index
       get_and_reset_count].
  destruct (0 <? Z.of_nat w) eqn:EW; [|lia].
  pose proof (length_mjoin_shape M R w Hsh) as Hlen.
  destruct (mjoin M) as [|val vals] eqn:Hvals; [simpl in Hlen; nia|].
  cbn [runs_text]. rewrite decide_False by done. rewrite string_app_nil_l.
  destruct (runs_text_decoding (val :: vals) R w vals val 1 0
    (mk_state (Some (Mask_init (Z.of_nat R) (Z.of_nat w)))
       (Some (Z.of_nat w)) (Some (Z.of_nat R)) 0 0))
    as (s' & Hrun & Hdec'); [done|lia|done|done| |].
  { exists (Mask_init (Z.of_nat R) (Z.of_nat w)).
    split_and!; [done|apply Mask_init_shape|done..|].
    intros r c Hr Hc. rewrite Mask_init_cell by done.
    by rewrite decide_False by lia. }
  change (Z.of_nat 1) with 1 in Hrun. rewrite Hrun. cbn [mbind result_bind].
  destruct Hdec' as (M' & -> & Hsh' & _ & _ & _ & Hcells).
  do 2 f_equal. destruct M' as [M']. f_equal. simpl in *.
  apply (has_shape_ext _ _ R w); [done..|].
  intros r c Hr Hc. rewrite Hcells by done.
  rewrite decide_True by nia.
  destruct (mjoin_cell_at M R w r c Hsh Hr Hc) as [Hcell [x Hx]].
  rewrite Hx. rewrite Hx, Hvals in Hcell. by rewrite <- Hcell.
Qed.

End RoundTrip.

(** ** The claims about the mask *)

Section MaskClaims.

Implicit Types (m : Mask) (s : _state) (rest : string).

(** [(r, c)] lies inside the declared bounds of the mask. *)
Definition Mask_in_range (m : Mask) (r c : Z) : Prop :=
  0 ≤ r < Mask_rows m ∧ ∃ columns, Mask_columns m = Ok columns ∧ 0 ≤ c < columns.

(** While no mask is allocated at least one dimension may be missing, and
    conversely: a mask is only ever allocated once both are known. *)
Definition mask_needs_dimensions (s : _state) : Prop :=
  is_Some (mask s) → is_Some (width s) ∧ is_Some (height s).

Lemma turn_off_keeps_dimensions n s s' :
  turn_off n s = Ok s' → width s' = width s ∧ height s' = height s.
Proof.
  revert s. induction n as [|n IH]; intros s Hs; simpl in Hs.
  - by injection Hs as ->.
  - destruct (mask s) as [M|]; [|done].
    destruct (rowcol s) as [rc|]; [|done]. simpl in Hs.
    destruct (Mask_setitem M rc.1 rc.2 false) as [[[]|] M']; [|done].
    apply IH in Hs. simpl in Hs. done.
Qed.

Lemma from_RLE_step_needs_dimensions s a s' :
  mask_needs_dimensions s → from_RLE_step s a = Ok (Some s') →
  mask_needs_dimensions s'.
Proof.
  unfold mask_needs_dimensions, from_RLE_step. intros Hinv Hstep.
  destruct (is_whitespace a); [by injection Hstep as <-|].
  destruct (is_digit a); [by injection Hstep as <-|].
  destruct (Ascii.eqb a "w").
  { destruct (width s) eqn:Ew; [done|]. cbn in Hstep.
    destruct (height s) eqn:Eh, (mask s) eqn:Em; injection Hstep as <-; cbn;
      rewrite ?Eh; try (intros _; split; by eexists).
    all: intros HS; destruct Hinv as [[? ?] _]; done. }
  destruct (Ascii.eqb a "h").
  { destruct (height s) eqn:Eh; [done|]. cbn in Hstep.
    destruct (width s) eqn:Ew, (mask s) eqn:Em; injection Hstep as <-; cbn;
      rewrite ?Ew; try (intros _; split; by eexists).
    all: intros HS; destruct Hinv as [_ [? ?]]; done. }
  destruct (Ascii.eqb a "o").
  { destruct (mask s) eqn:Em; [|done]. cbn -[turn_off Z.to_nat] in Hstep.
    destruct (turn_off _ _) as [s2|] eqn:Eoff; [|done].
    cbn in Hstep. injection Hstep as <-.
    apply turn_off_keeps_dimensions in Eoff as [-> ->]. cbn.
    intros _. apply Hinv. rewrite ?Em. by eexists. }
  destruct (Ascii.eqb a "."); [by injection Hstep as <-|].
  destruct (Ascii.eqb a "$").
  { destruct (width s) eqn:Ew; [|done]. destruct (rowcol s); [|done].
    cbn in Hstep. by injection Hstep as <-. }
  by destruct (Ascii.eqb a "!").
Qed.

Lemma from_RLE_loop_needs_dimensions rle s s' :
  mask_needs_dimensions s → from_RLE_loop rle s = Ok s' →
  mask_needs_dimensions s'.
Proof.
  revert s. induction rle as [|a rle IH]; intros s Hinv Hloop; simpl in Hloop.
  - by injection Hloop as <-.
  - destruct (from_RLE_step s a) as [[s1|]|] eqn:Hstep; [| |done].
    + eapply IH; [|done]. by eapply from_RLE_step_needs_dimensions.
    + by injection Hloop as <-.
Qed.

(** C2, amended.  For every mask with at least one row and at least one
    column, decoding the text that encoding produces gives the mask back,
    cell for cell and with the same rows and columns. *)
Theorem Mask_RLE_round_trip m :
  Mask_rect m →
  1 ≤ Mask_rows m →
  (∃ columns, Mask_columns m = Ok columns ∧ 1 ≤ columns) →
  ∃ rle, Mask_to_RLE m = Ok rle ∧ Mask_from_RLE rle = Ok (Some m).
Proof.
  intros Hrect Hrows (columns & Hcols & Hpos).
  destruct m as [M]. apply Mask_rect_shape in Hrect. simpl in Hrect.
  unfold Mask_rows in Hrows. simpl in Hrows.
  rewrite (Mask_columns_shape _ _ _ Hrect) in Hcols by lia.
  injection Hcols as <-.
  pose proof (Mask_round_trip_shape M _ _ Hrect ltac:(lia) ltac:(lia)) as Hrt.
  destruct (Mask_to_RLE (mk_Mask M)) as [rle|]; [|done].
  by exists rle.
Qed.

(** C2 as stated fails on a mask without columns: [Mask(3, 0)] is encoded as
    "3h0w", and a count of 0 reads back as the default 1. *)
Lemma Mask_RLE_round_trip_no_columns :
  Mask_rect (Mask_init 3 0)
  ∧ Mask_to_RLE (Mask_init 3 0) = Ok "3h0w"%string
  ∧ Mask_from_RLE "3h0w" = Ok (Some (Mask_init 3 1))
  ∧ Mask_init 3 1 ≠ Mask_init 3 0.
Proof.
  split_and!; [|reflexivity|reflexivity|discriminate].
  apply (has_shape_rect _ 3 0). apply (Mask_init_shape 3 0).
Qed.

(** A mask without rows cannot be encoded at all: [columns] raises. *)
Example Mask_to_RLE_no_rows : Mask_to_RLE (Mask_init 0 3) = Raise IndexError.
Proof. reflexivity. Qed.

(** C6, amended.  A ['.'] never makes the decoder fail, whatever has been
    declared so far: it adds the pending count (1 when there is none) to the
    cursor, clears the count, and decoding goes on with the next character. *)
Theorem from_RLE_dot_never_fails s rest :
  let s' := mk_state (mask s) (width s) (height s) 0
              (index s + (if 0 <? count s then count s else 1)) in
  from_RLE_step s "." = Ok (Some s')
  ∧ from_RLE_loop (String "." rest) s = from_RLE_loop rest s'.
Proof. split; reflexivity. Qed.

(** C6 as stated fails: in ".2w2h" the ['.'] comes before both dimensions,
    and the text decodes to the 2 by 2 mask with every cell on. *)
Lemma from_RLE_dot_before_dimensions :
  Mask_from_RLE ".2w2h" = Ok (Some (mk_Mask [[true; true]; [true; true]])).
Proof. reflexivity. Qed.

(** C7.  Reading a mask never raises and gives a boolean, which is false
    outside the bounds; writing outside the bounds raises IndexError and
    leaves the mask as it was. *)
Theorem Mask_index_safety m r c is_on :
  Mask_rect m →
  (∃ b, Mask_getitem m r c = Ok b)
  ∧ (¬ Mask_in_range m r c →
     Mask_getitem m r c = Ok false
     ∧ Mask_setitem m r c is_on = (Raise IndexError, m)).
Proof.
  intros Hrect. destruct m as [M].
  pose proof (Mask_rect_shape _ Hrect) as Hsh. simpl in Hsh.
  unfold Mask_getitem, Mask_setitem, Mask_in_range, Mask_rows. simpl.
  destruct (r <? 0) eqn:E1; [split; [by eexists|done]|].
  destruct (Z.of_nat (length M) <=? r) eqn:E2; [split; [by eexists|done]|].
  simpl. rewrite (Mask_columns_shape _ _ _ Hsh) by lia.
  set (w := length (default [] (head M))) in *.
  cbn [mbind result_bind].
  destruct (c <? 0) eqn:E3; [split; [by eexists|done]|].
  destruct (Z.of_nat w <=? c) eqn:E4; [split; [by eexists|done]|].
  simpl. split.
  - destruct (lookup_lt_is_Some_2 M (Z.to_nat r)) as [row Hrow]; [lia|].
    assert (length row = w) as Hlen.
    { destruct Hsh as [_ HF]. rewrite Forall_forall in HF. apply HF.
      by eapply list_elem_of_lookup_2. }
    destruct (lookup_lt_is_Some_2 row (Z.to_nat c)) as [b Hb]; [lia|].
    exists b. rewrite <- (Z2Nat.id r), (py_getitem_nat _ _ _ Hrow) by lia.
    cbn [mbind result_bind].
    by rewrite <- (Z2Nat.id c), (py_getitem_nat _ _ _ Hb) by lia.
  - intros Hout. exfalso. apply Hout. split; [lia|].
    exists (Z.of_nat w). split; [done|lia].
Qed.

(** C8.  The text "2w2h1o3.!" decodes to the mask of 2 rows and 2 columns
    in which only the cell of row 0 and column 0 is off. *)
Theorem from_RLE_example :
  ∃ m, Mask_from_RLE "2w2h1o3.!" = Ok (Some m)
       ∧ _mask m = [[false; true]; [true; true]]
       ∧ Mask_rows m = 2 ∧ Mask_columns m = Ok 2.
Proof. eexists. split_and!; reflexivity. Qed.

(** C10.  When the loop of the decoder ends, at the end of the text or at a
    ['!'], in a state where the width or the height is still undeclared,
    [from_RLE] returns [None] and raises nothing. *)
Theorem from_RLE_without_dimensions rle s :
  from_RLE_loop rle _state_init = Ok s →
  width s = None ∨ height s = None →
  Mask_from_RLE rle = Ok None.
Proof.
  intros Hloop Hdim. unfold Mask_from_RLE. rewrite Hloop. cbn.
  assert (mask_needs_dimensions s) as Hinv.
  { eapply from_RLE_loop_needs_dimensions; [|done]. by intros [? ?]. }
  destruct (mask s) as [M|] eqn:Em; [|done].
  destruct Hinv as [[? Hw] [? Hh]]; [by eexists|].
  destruct Hdim; congruence.
Qed.

(** The two texts the claim names. *)
Example from_RLE_empty_text : Mask_from_RLE "" = Ok None.
Proof. reflexivity. Qed.

Example from_RLE_width_only : Mask_from_RLE "5w!" = Ok None.
Proof. reflexivity. Qed.

End MaskClaims.

Lemma Mask_RLE_round_trip_witness :
  let m := mk_Mask [[false; true; true]; [true; false; false]] in
  ∃ rle, Mask_to_RLE m = Ok rle ∧ Mask_from_RLE rle = Ok (Some m).
Proof.
  apply Mask_RLE_round_trip.
  - apply (has_shape_rect _ 2 3). split; [reflexivity|].
    repeat constructor.
  - unfold Mask_rows; simpl; lia.
  - exists 3. split; [reflexivity|lia].
Defined.

Lemma Mask_index_safety_witness :
  let m := mk_Mask [[false; true]; [true; true]] in
  (∃ b, Mask_getitem m 2 (-1) = Ok b)
  ∧ (¬ Mask_in_range m 2 (-1) →
     Mask_getitem m 2 (-1) = Ok false
     ∧ Mask_setitem m 2 (-1) true = (Raise IndexError, m)).
Proof.
  apply Mask_index_safety.
  apply (has_shape_rect _ 2 2). split; [reflexivity|].
  repeat constructor.
Defined.

Lemma from_RLE_without_dimensions_witness : Mask_from_RLE "5w!" = Ok None.
Proof.
  apply (from_RLE_without_dimensions "5w!" (mk_state None (Some 5) None 0 0)).
  - reflexivity.
  - right. reflexivity.
Defined.

(** ** class Cell: the links

    A cell is a Python object, compared and hashed by identity: [Cell] is any
    countable type of object identities.  The heap gives each cell its
    [_links] set; a cell the heap does not mention is fresh, with no link. *)

Section Cells.

Context {Cell : Type} {Cell_eq_dec : EqDecision Cell} {Cell_countable : Countable Cell}.

Local Abbreviation heap := (gmap Cell (gset Cell)).

Implicit Types (σ : heap) (u v : Cell).

(** [cell.links], the set [cell._links]. *)
Definition links (σ : heap) (u : Cell) : gset Cell := default ∅ (σ !! u).

(** [cell.linked_to(other)] *)
Definition linked_to (σ : heap) (u v : Cell) : bool := bool_decide (v ∈ links σ u).

(** [cell.has_links] is [bool(len(self._links))]. *)
Definition has_links (σ : heap) (u : Cell) : bool :=
  negb (Nat.eqb (size (links σ u)) 0).

(** [self._links.add(cell)], all that [link(cell, False)] does. *)
Definition link_one_way (σ : heap) (u v : Cell) : heap :=
  <[u := links σ u ∪ {[v]}]> σ.

(** [Cell.link]: with [bidirectional] the call [cell.link(self, False)]
    follows. *)
Definition link (σ : heap) (u v : Cell) (bidirectional : bool) : heap :=
  let σ1 := link_one_way σ u v in
  if bidirectional then link_one_way σ1 v u else σ1.

(** [self._links.remove(cell)], all that [unlink(cell, False)] does: the
    outcome and the heap afterwards. *)
Definition unlink_one_way (σ : heap) (u v : Cell) : result unit * heap :=
  if decide (v ∈ links σ u) then (Ok tt, <[u := links σ u ∖ {[v]}]> σ)
  else (Raise KeyError, σ).

(** [Cell.unlink]: when the first removal raises nothing was changed; when
    the second one raises the first one stays done. *)
Definition unlink (σ : heap) (u v : Cell) (bidirectional : bool) : result unit * heap :=
  match unlink_one_way σ u v with
  | (Raise e, σ1) => (Raise e, σ1)
  | (Ok _, σ1) => if bidirectional then unlink_one_way σ1 v u else (Ok tt, σ1)
  end.

(** A call of [link] or [unlink] with the default [bidirectional=True]. *)
Inductive call : Type :=
| Link (u v : Cell)
| Unlink (u v : Cell).

(** The heap after a call; a caller may catch the KeyError of [unlink] and
    go on, so the heap is followed through failed calls too. *)
Definition run_call (σ : heap) (c : call) : heap :=
  match c with
  | Link u v => link σ u v true
  | Unlink u v => (unlink σ u v true).2
  end.

Definition run_calls (σ : heap) (cs : list call) : heap := foldl run_call σ cs.

(** Link symmetry. *)
Definition symmetric (σ : heap) : Prop := ∀ u v, v ∈ links σ u ↔ u ∈ links σ v.

Lemma links_insert σ u S x :
  links (<[u := S]> σ) x = if decide (u = x) then S else links σ x.
Proof.
  unfold links. case_decide as Hd.
  - subst. by rewrite lookup_insert_eq.
  - by rewrite lookup_insert_ne.
Qed.

Lemma links_empty u : links (∅ : heap) u = ∅.
Proof. unfold links. by rewrite lookup_empty. Qed.

Lemma elem_of_links_link σ u v b x y :
  y ∈ links (link σ u v b) x ↔
  y ∈ links σ x ∨ (x = u ∧ y = v) ∨ (b = true ∧ x = v ∧ y = u).
Proof.
  unfold link, link_one_way.
  destruct b; rewrite !links_insert;
    repeat (destruct (decide _) as [?|?]); simplify_eq;
    rewrite ?elem_of_union, ?elem_of_singleton; naive_solver.
Qed.

Lemma linked_to_true σ u v : linked_to σ u v = true → v ∈ links σ u.
Proof. apply bool_decide_eq_true. Qed.

Lemma link_symmetric σ u v : symmetric σ → symmetric (link σ u v true).
Proof.
  intros Hsym x y. rewrite !elem_of_links_link. specialize (Hsym x y).
  naive_solver.
Qed.

Lemma unlink_symmetric σ u v : symmetric σ → symmetric (unlink σ u v true).2.
Proof.
  intros Hsym x y. unfold unlink, unlink_one_way.
  destruct (decide (v ∈ links σ u)) as [Hin|Hout]; [|apply Hsym]. simpl.
  rewrite links_insert. 
  destruct (decide (u ∈ (if decide (u = v) then links σ u ∖ {[v]} else links σ v)))
    as [Hin2|Hout2]; simpl.
  - rewrite !links_insert. pose proof (Hsym x y) as Hxy.
    pose proof (Hsym u v) as Huv.
    repeat case_decide; simplify_eq; set_solver.
  - rewrite !links_insert. pose proof (Hsym x y) as Hxy.
    pose proof (Hsym u v) as Huv.
    repeat case_decide; simplify_eq; set_solver.
Qed.

Lemma run_calls_symmetric σ cs : symmetric σ → symmetric (run_calls σ cs).
Proof.
  revert σ. induction cs as [|c cs IH]; intros σ Hsym; [done|].
  simpl. apply IH. destruct c as [u v|u v]; simpl.
  - by apply link_symmetric.
  - by apply unlink_symmetric.
Qed.

(** C5.  From fresh cells, after any sequence of bidirectional [link] and
    [unlink] calls, [u.linked_to(v)] holds exactly when [v.linked_to(u)]
    does. *)
Theorem link_symmetry_invariant (cs : list call) u v :
  linked_to (run_calls ∅ cs) u v = linked_to (run_calls ∅ cs) v u.
Proof.
  unfold linked_to. apply bool_decide_ext.
  apply run_calls_symmetric. intros x y. rewrite !links_empty. set_solver.
Qed.

(** C9.  Unlinking a cell that is not in the link set raises KeyError and
    changes nothing, whatever [bidirectional] is. *)
Theorem unlink_missing_raises σ u v (bidirectional : bool) :
  v ∉ links σ u → unlink σ u v bidirectional = (Raise KeyError, σ).
Proof.
  intros Hout. unfold unlink, unlink_one_way. by rewrite decide_False.
Qed.

(** When the link is there in both directions, between two different cells,
    [unlink] takes both directions away again. *)
Lemma unlink_present σ u v :
  u ≠ v → v ∈ links σ u → u ∈ links σ v →
  ∃ σ', unlink σ u v true = (Ok tt, σ')
        ∧ ∀ x, links σ' x = if decide (x = u) then links σ u ∖ {[v]}
                            else if decide (x = v) then links σ v ∖ {[u]}
                            else links σ x.
Proof.
  intros Hne Huv Hvu. unfold unlink, unlink_one_way.
  rewrite decide_True by done.
  rewrite links_insert, (decide_False (P := u = v)) by done.
  rewrite decide_True by done. eexists. split; [done|].
  intros x. rewrite !links_insert.
  repeat (destruct (decide _) as [?|?]); by simplify_eq.
Qed.

(** A cell linked to itself cannot be unlinked without a KeyError: the
    second removal finds the link gone. *)
Lemma unlink_self σ u :
  u ∈ links σ u → (unlink σ u u true).1 = Raise KeyError.
Proof.
  intros Hin. unfold unlink, unlink_one_way.
  rewrite decide_True by done.
  rewrite links_insert, (decide_True (P := u = u)) by done.
  rewrite decide_False by set_solver. done.
Qed.

End Cells.

(** ** class Distances and [Cell.distances]

    A [Distances] is a dictionary from cells to integers with a [root]
    attribute.  The breadth-first search iterates over link sets; the order in
    which Python yields the elements of a set is arbitrary, so the model takes
    it as a parameter [set_iter], of which only the elements are known. *)

(** [for x in l] with a body that may raise. *)
Fixpoint for_each {A B} (body : A → B → result A) (a : A) (l : list B) : result A :=
  match l with
  | [] => Ok a
  | x :: l' => a' ← body a x; for_each body a' l'
  end.

Section Distances.

Context {Cell : Type} {Cell_eq_dec : EqDecision Cell} {Cell_countable : Countable Cell}.

Local Abbreviation heap := (gmap Cell (gset Cell)).

Variable set_iter : gset Cell → list Cell.
Hypothesis set_iter_elements : ∀ (s : gset Cell) x, x ∈ set_iter s ↔ x ∈ s.

Record Distances : Type := mk_Distances {
  root : Cell;
  dist : gmap Cell Z
}.

(** [Distances.__init__] *)
Definition Distances_init (root : Cell) : Distances :=
  mk_Distances root {[root := 0]}.

(** The subscript [self[cell]] of a dictionary. *)
Definition dict_getitem (d : gmap Cell Z) (cell : Cell) : result Z :=
  match d !! cell with
  | Some x => Ok x
  | None => Raise KeyError
  end.

(** The body of [for linked in cell.links], on the pair
    [(distances, next_frontier)]. *)
Definition visit_linked (cell : Cell) (st : gmap Cell Z * list Cell) (linked : Cell)
  : result (gmap Cell Z * list Cell) :=
  let '(distances, next_frontier) := st in
  if decide (is_Some (distances !! linked)) then Ok st
  else
    d ← dict_getitem distances cell;
    Ok (<[linked := d + 1]> distances, next_frontier ++ [linked]).

(** The body of [for cell in frontier]. *)
Definition visit_cell (σ : heap) (st : gmap Cell Z * list Cell) (cell : Cell)
  : result (gmap Cell Z * list Cell) :=
  for_each (visit_linked cell) st (set_iter (links σ cell)).

(** The [while frontier] loop; [None] when the fuel runs out. *)
Fixpoint distances_loop (fuel : nat) (σ : heap) (distances : gmap Cell Z)
    (frontier : list Cell) : option (result (gmap Cell Z)) :=
  match fuel with
  | O => None
  | S fuel' =>
      match frontier with
      | [] => Some (Ok distances)
      | _ :: _ =>
          match for_each (visit_cell σ) (distances, []) frontier with
          | Raise e => Some (Raise e)
          | Ok (distances', next_frontier) =>
              distances_loop fuel' σ distances' next_frontier
          end
      end
  end.

(** Every cell some link set mentions. *)
Definition linked_cells (σ : heap) : gset Cell :=
  ⋃ (snd <$> map_to_list σ).

(** [Cell.distances].  The loop runs once per level of the search and once
    more to see the empty frontier, so counting the cells that are linked
    from somewhere bounds it. *)
Definition Cell_distances (σ : heap) (self : Cell) : option (result Distances) :=
  match distances_loop (size (linked_cells σ) + 2) σ (dist (Distances_init self)) [self] with
  | None => None
  | Some (Raise e) => Some (Raise e)
  | Some (Ok d) => Some (Ok (mk_Distances self d))
  end.

(** [Distances.path_to]: the search of the [for neighbor in current.links]
    loop for the first neighbour that is nearer to the root. *)
Fixpoint first_nearer (self : gmap Cell Z) (current : Cell) (neighbors : list Cell)
  : result (option Cell) :=
  match neighbors with
  | [] => Ok None
  | neighbor :: rest =>
      dn ← dict_getitem self neighbor;
      dc ← dict_getitem self current;
      if dn <? dc then Ok (Some neighbor) else first_nearer self current rest
  end.

(** The [while current != root] loop.  When the [for] loop ends without a
    [break] nothing has changed and the [while] loop goes round again. *)
Fixpoint path_to_loop (fuel : nat) (σ : heap) (self : Distances)
    (breadcrumbs : gmap Cell Z) (current : Cell) : option (result (gmap Cell Z)) :=
  match fuel with
  | O => None
  | S fuel' =>
      if decide (current = root self) then Some (Ok breadcrumbs)
      else
        match first_nearer (dist self) current (set_iter (links σ current)) with
        | Raise e => Some (Raise e)
        | Ok None => path_to_loop fuel' σ self breadcrumbs current
        | Ok (Some neighbor) =>
            match dict_getitem (dist self) neighbor with
            | Raise e => Some (Raise e)
            | Ok dn => path_to_loop fuel' σ self (<[neighbor := dn]> breadcrumbs) neighbor
            end
        end
  end.

Definition Distances_path_to (fuel : nat) (σ : heap) (self : Distances) (goal : Cell)
  : option (result Distances) :=
  match dict_getitem (dist self) goal with
  | Raise e => Some (Raise e)
  | Ok dg =>
      match path_to_loop fuel σ self (<[goal := dg]> (dist (Distances_init (root self)))) goal with
      | None => None
      | Some (Raise e) => Some (Raise e)
      | Some (Ok b) => Some (Ok (mk_Distances (root self) b))
      end
  end.

End Distances.

Lemma for_each_invariant {A B} (P : list B → A → Prop)
    (body : A → B → result A) (a : A) (l : list B) :
  P [] a →
  (∀ pre x post a, l = pre ++ x :: post → P pre a →
     ∃ a', body a x = Ok a' ∧ P (pre ++ [x]) a') →
  ∃ a', for_each body a l = Ok a' ∧ P l a'.
Proof.
  revert P a. induction l as [|x l IH]; intros P a H0 Hstep.
  - by exists a.
  - destruct (Hstep [] x l a eq_refl H0) as (a1 & Hbody & H1).
    simpl. rewrite Hbody. cbn [mbind result_bind].
    apply (IH (λ pre, P (x :: pre))); [done|].
    intros pre y post a2 -> Hpre.
    apply (Hstep (x :: pre) y post a2); done.
Qed.

(** ** The breadth-first search is a breadth-first search *)

Section DistancesFacts.

Context {Cell : Type} {Cell_eq_dec : EqDecision Cell} {Cell_countable : Countable Cell}.

Local Abbreviation heap := (gmap Cell (gset Cell)).

Variable set_iter : gset Cell → list Cell.
Hypothesis set_iter_elements : ∀ (s : gset Cell) x, x ∈ set_iter s ↔ x ∈ s.

Variable σ : heap.
Variable r : Cell.

Implicit Types (d : gmap Cell Z) (frontier next : list Cell) (u v x p : Cell).

(** What holds while [frontier], the level [k], is being visited from the
    dictionary [d]: the new entries are at level [k + 1], they are the cells
    of [next], and the cells of [seen] have an entry. *)
Definition visiting d frontier (k : Z) (seen : Cell → Prop)
    (st : gmap Cell Z * list Cell) : Prop :=
  d ⊆ st.1
  ∧ (∀ x dx, st.1 !! x = Some dx → d !! x = None →
       dx = k + 1 ∧ x ∈ st.2 ∧ ∃ p, p ∈ frontier ∧ x ∈ links σ p)
  ∧ (∀ x, x ∈ st.2 → d !! x = None ∧ st.1 !! x = Some (k + 1))
  ∧ (∀ v, seen v → is_Some (st.1 !! v)).

Lemma visit_linked_visiting d frontier k seen st cell linked :
  cell ∈ frontier → d !! cell = Some k → linked ∈ links σ cell →
  visiting d frontier k seen st →
  ∃ st', visit_linked cell st linked = Ok st'
         ∧ visiting d frontier k (λ v, seen v ∨ v = linked) st'.
Proof.
  intros Hcell Hk Hlinked (Hsub & Hnew & Hnext & Hseen).
  destruct st as [d' next]. simpl in *. unfold visit_linked.
  destruct (decide (is_Some (d' !! linked))) as [Hin|Hout].
  - eexists. split; [done|]. split_and!; simpl; try done.
    intros v [Hv| ->]; auto.
  - apply eq_None_not_Some in Hout.
    assert (d' !! cell = Some k) as Hk'
      by (by eapply lookup_weaken).
    unfold dict_getitem. rewrite Hk'. cbn [mbind result_bind].
    assert (d !! linked = None) as Hdl.
    { destruct (d !! linked) eqn:E; [|done].
      by rewrite (lookup_weaken _ _ _ _ E Hsub) in Hout. }
    eexists. split; [done|]. split_and!; simpl.
    + by apply insert_subseteq_r.
    + intros x dx Hx Hdx. destruct (decide (x = linked)) as [->|Hne].
      * rewrite lookup_insert_eq in Hx. injection Hx as <-.
        split_and!; [done|set_solver|]. by exists cell.
      * rewrite lookup_insert_ne in Hx by done.
        destruct (Hnew x dx Hx Hdx) as (? & ? & ?). split_and!; [done|set_solver|done].
    + intros x Hx. apply elem_of_app in Hx as [Hx|Hx].
      * destruct (Hnext x Hx) as [? Hx']. split; [done|].
        rewrite lookup_insert_ne; [done|]. intros ->. congruence.
      * apply list_elem_of_singleton in Hx as ->. split; [done|].
        by rewrite lookup_insert_eq.
    + intros v [Hv| ->].
      * destruct (decide (v = linked)) as [->|Hne].
        -- rewrite lookup_insert_eq. by eexists.
        -- rewrite lookup_insert_ne by done. auto.
      * rewrite lookup_insert_eq. by eexists.
Qed.

Lemma visit_cell_visiting d frontier k seen st cell :
  cell ∈ frontier → d !! cell = Some k →
  visiting d frontier k seen st →
  ∃ st', visit_cell set_iter σ st cell = Ok st'
         ∧ visiting d frontier k (λ v, seen v ∨ v ∈ links σ cell) st'.
Proof.
  intros Hcell Hk Hvis. unfold visit_cell.
  destruct (for_each_invariant
    (λ pre st', visiting d frontier k (λ v, seen v ∨ v ∈ pre) st')
    (visit_linked cell) st (set_iter (links σ cell))) as (st' & Hrun & Hst').
  - destruct Hvis as (? & ? & ? & Hseen). split_and!; try done.
    intros v [Hv|Hv]; [auto|]. by apply elem_of_nil in Hv.
  - intros pre x post st1 Hl Hst1.
    assert (x ∈ links σ cell) as Hx.
    { apply set_iter_elements. rewrite Hl. set_solver. }
    destruct (visit_linked_visiting _ _ _ _ _ _ _ Hcell Hk Hx Hst1)
      as (st2 & Hstep & Hst2).
    exists st2. split; [done|].
    destruct Hst2 as (? & ? & ? & Hseen). split_and!; try done.
    intros v [Hv|Hv]; [auto|].
    apply Hseen. apply elem_of_app in Hv as [Hv|Hv]; [auto|].
    apply list_elem_of_singleton in Hv. auto.
  - exists st'. split; [done|].
    destruct Hst' as (? & ? & ? & Hseen). split_and!; try done.
    intros v [Hv|Hv]; apply Hseen; [auto|].
    right. by apply set_iter_elements.
Qed.

Lemma visit_frontier_visiting d frontier k :
  (∀ x, x ∈ frontier → d !! x = Some k) →
  ∃ st', for_each (visit_cell set_iter σ) (d, []) frontier = Ok st'
         ∧ visiting d frontier k
             (λ v, ∃ u, u ∈ frontier ∧ v ∈ links σ u) st'.
Proof.
  intros Hfront.
  destruct (for_each_invariant
    (λ pre st', visiting d frontier k (λ v, ∃ u, u ∈ pre ∧ v ∈ links σ u) st')
    (visit_cell set_iter σ) (d, []) frontier) as (st' & Hrun & Hst').
  - split_and!; simpl; try done.
    + intros x dx Hx Hx'. congruence.
    + intros x Hx. by apply elem_of_nil in Hx.
    + intros v (u & Hu & _). by apply elem_of_nil in Hu.
  - intros pre x post st1 Hl Hst1.
    assert (x ∈ frontier) as Hx by (rewrite Hl; set_solver).
    destruct (visit_cell_visiting _ _ _ _ _ _ Hx (Hfront x Hx) Hst1)
      as (st2 & Hstep & Hst2).
    exists st2. split; [done|].
    destruct Hst2 as (? & ? & ? & Hseen). split_and!; try done.
    intros v (u & Hu & Hv). apply Hseen.
    apply elem_of_app in Hu as [Hu|Hu]; [left; by exists u|].
    apply list_elem_of_singleton in Hu as ->. by right.
  - by exists st'.
Qed.

(** The invariant of the [while frontier] loop at level [k]. *)
Record searching d frontier (k : Z) : Prop := {
  searching_root : d !! r = Some 0;
  searching_range : ∀ x dx, d !! x = Some dx → 0 ≤ dx ≤ k ∧ (dx = 0 → x = r);
  searching_parent : ∀ x dx, d !! x = Some dx → x ≠ r →
    ∃ p, d !! p = Some (dx - 1) ∧ x ∈ links σ p;
  searching_frontier : ∀ x, x ∈ frontier ↔ d !! x = Some k;
  searching_closed : ∀ u du v, d !! u = Some du → du < k → v ∈ links σ u →
    ∃ dv, d !! v = Some dv ∧ dv ≤ du + 1;
  searching_dom : dom d ⊆ {[r]} ∪ linked_cells σ
}.

(** What the finished search guarantees. *)
Record searched d : Prop := {
  searched_root : d !! r = Some 0;
  searched_range : ∀ x dx, d !! x = Some dx → 0 ≤ dx ∧ (dx = 0 → x = r);
  searched_parent : ∀ x dx, d !! x = Some dx → x ≠ r →
    ∃ p, d !! p = Some (dx - 1) ∧ x ∈ links σ p;
  searched_closed : ∀ u du v, d !! u = Some du → v ∈ links σ u →
    ∃ dv, d !! v = Some dv ∧ dv ≤ du + 1
}.

Lemma elem_of_linked_cells u v : v ∈ links σ u → v ∈ linked_cells σ.
Proof.
  unfold links, linked_cells. intros Hv.
  destruct (σ !! u) as [S|] eqn:Hu; simpl in Hv; [|set_solver].
  apply elem_of_union_list. exists S. split; [|done].
  apply list_elem_of_fmap. exists (u, S). split; [done|].
  by apply elem_of_map_to_list.
Qed.

Lemma searching_level d frontier k :
  searching d frontier k →
  ∃ d' next,
    for_each (visit_cell set_iter σ) (d, []) frontier = Ok (d', next)
    ∧ searching d' next (k + 1)
    ∧ (next ≠ [] →
       (size (({[r]} ∪ linked_cells σ) ∖ dom d')
        < size (({[r]} ∪ linked_cells σ) ∖ dom d))%nat).
Proof.
  intros [Hroot Hrange Hparent Hfront Hclosed Hdom].
  destruct (visit_frontier_visiting d frontier k) as ([d' next] & Hrun & Hvis).
  { intros x. apply Hfront. }
  destruct Hvis as (Hsub & Hnew & Hnext & Hseen). simpl in *.
  exists d', next. split; [done|]. split.
  - split.
    + by eapply lookup_weaken.
    + intros x dx Hx. destruct (d !! x) as [dx'|] eqn:E.
      * rewrite (lookup_weaken _ _ _ _ E Hsub) in Hx. injection Hx as <-.
        destruct (Hrange x dx' E). split; [lia|done].
      * destruct (Hnew x dx Hx E) as (-> & _ & p & Hp & _).
        apply Hfront, Hrange in Hp. split; lia.
    + intros x dx Hx Hne. destruct (d !! x) as [dx'|] eqn:E.
      * rewrite (lookup_weaken _ _ _ _ E Hsub) in Hx. injection Hx as <-.
        destruct (Hparent x dx' E Hne) as (p & Hp & Hxp).
        exists p. split; [by eapply lookup_weaken|done].
      * destruct (Hnew x dx Hx E) as (-> & _ & p & Hp & Hxp).
        exists p. split; [|done].
        replace (k + 1 - 1) with k by lia.
        eapply lookup_weaken; [|done]. by apply Hfront.
    + intros x. split.
      * intros Hx. by apply Hnext.
      * intros Hx. destruct (d !! x) as [dx'|] eqn:E.
        -- rewrite (lookup_weaken _ _ _ _ E Hsub) in Hx. injection Hx as ->.
           apply Hrange in E. lia.
        -- by destruct (Hnew x _ Hx E) as (_ & ? & _).
    + intros u du v Hu Hlt Hv.
      assert (d !! u = Some du) as Hu'.
      { destruct (d !! u) as [du'|] eqn:E.
        - rewrite (lookup_weaken _ _ _ _ E Hsub) in Hu. done.
        - destruct (Hnew u du Hu E) as (-> & _). lia. }
      assert (∃ dv, d' !! v = Some dv) as [dv Hdv].
      { destruct (decide (du < k)) as [Hlt'|Hge].
        - destruct (Hclosed u du v Hu' Hlt' Hv) as (dv & Hdv & _).
          exists dv. by eapply lookup_weaken.
        - assert (du = k) as -> by lia.
          apply Hseen. exists u. split; [by apply Hfront|done]. }
      exists dv. split; [done|].
      destruct (decide (du < k)) as [Hlt'|Hge].
      * destruct (Hclosed u du v Hu' Hlt' Hv) as (dv' & Hdv' & Hle).
        rewrite (lookup_weaken _ _ _ _ Hdv' Hsub) in Hdv. by injection Hdv as <-.
      * destruct (d !! v) as [dv'|] eqn:E.
        -- rewrite (lookup_weaken _ _ _ _ E Hsub) in Hdv. injection Hdv as <-.
           apply Hrange in E. lia.
        -- destruct (Hnew v dv Hdv E) as (-> & _). lia.
    + intros x Hx. apply elem_of_dom in Hx as [dx Hx].
      destruct (d !! x) as [dx'|] eqn:E.
      * apply Hdom. apply elem_of_dom. by eexists.
      * destruct (Hnew x dx Hx E) as (_ & _ & p & _ & Hxp).
        apply elem_of_union_r. by eapply elem_of_linked_cells.
  - intros Hne. apply subset_size.
    destruct next as [|x next']; [done|].
    destruct (Hnext x) as [Hx Hx']; [left|].
    assert (dom d ⊆ dom d') as Hdd by (by apply subseteq_dom).
    assert (x ∈ {[r]} ∪ linked_cells σ) as HxU.
    { destruct (Hnew x _ Hx' Hx) as (_ & _ & p & _ & Hxp).
      apply elem_of_union_r. by eapply elem_of_linked_cells. }
    assert (x ∈ dom d') as Hxd' by (apply elem_of_dom; by eexists).
    assert (x ∉ dom d) as Hxd by (by apply not_elem_of_dom).
    split; [set_solver|]. intros Hsubset.
    specialize (Hsubset x). set_solver.
Qed.

Lemma distances_loop_searched fuel d frontier k :
  searching d frontier k →
  (1 ≤ fuel)%nat →
  (frontier ≠ [] → (size (({[r]} ∪ linked_cells σ) ∖ dom d) + 2 ≤ fuel)%nat) →
  ∃ d', distances_loop set_iter fuel σ d frontier = Some (Ok d') ∧ searched d'.
Proof.
  revert d frontier k. induction fuel as [|fuel IH]; intros d frontier k Hinv H1 Hfuel; [lia|].
  destruct frontier as [|cell frontier'].
  - exists d. split; [done|].
    destruct Hinv as [Hroot Hrange Hparent Hfront Hclosed Hdom].
    split; [done| |done|].
    + intros x dx Hx. destruct (Hrange x dx Hx). split; [lia|done].
    + intros u du v Hu Hv. apply (Hclosed u du v Hu); [|done].
      destruct (Hrange u du Hu) as [Hle _].
      destruct (decide (du = k)) as [->|Hne]; [|lia].
      apply Hfront in Hu. by apply elem_of_nil in Hu.
  - destruct (searching_level _ _ _ Hinv) as (d' & next & Hrun & Hinv' & Hsize).
    cbn [distances_loop]. rewrite Hrun.
    specialize (Hfuel ltac:(done)).
    apply (IH d' next (k + 1)); [done|lia|].
    intros Hne. specialize (Hsize Hne). lia.
Qed.

Lemma Cell_distances_searched :
  ∃ D, Cell_distances set_iter σ r = Some (Ok D) ∧ root D = r ∧ searched (dist D).
Proof.
  unfold Cell_distances.
  destruct (distances_loop_searched (size (linked_cells σ) + 2)
              (dist (Distances_init r)) [r] 0) as (d' & -> & Hd'); [|lia| |].
  - unfold Distances_init. simpl. split.
    + by rewrite lookup_singleton_eq.
    + intros x dx Hx. apply lookup_singleton_Some in Hx as [<- <-]. done.
    + intros x dx Hx Hne. apply lookup_singleton_Some in Hx as [<- <-]. done.
    + intros x. rewrite list_elem_of_singleton. rewrite lookup_singleton_Some.
      naive_solver.
    + intros u du v Hu Hlt. apply lookup_singleton_Some in Hu as [<- <-]. lia.
    + rewrite dom_singleton_L. set_solver.
  - intros _. unfold Distances_init. simpl. rewrite dom_singleton_L.
    assert (size (({[r]} ∪ linked_cells σ) ∖ {[r]}) ≤ size (linked_cells σ))%nat
      by (apply subseteq_size; set_solver).
    lia.
  - eexists. by split_and!.
Qed.

End DistancesFacts.

(** ** The read-only fields of a cell

    A cell has a [row] and a [column]; [Cell_init r c] is the object that
    [Cell(r, c)] makes when a grid allocates its slot [(r, c)]. *)

Class CellObject (Cell : Type) : Type := {
  row : Cell → Z;
  column : Cell → Z;
  Cell_init : Z → Z → Cell;
  row_init : ∀ r c, row (Cell_init r c) = r;
  column_init : ∀ r c, column (Cell_init r c) = c
}.

(** ** The claims about distances and paths *)

Section DistancesClaims.

Context {Cell : Type} {Cell_eq_dec : EqDecision Cell} {Cell_countable : Countable Cell}.
Context {Cell_object : CellObject Cell}.

Local Abbreviation heap := (gmap Cell (gset Cell)).

Variable set_iter : gset Cell → list Cell.
Hypothesis set_iter_elements : ∀ (s : gset Cell) x, x ∈ set_iter s ↔ x ∈ s.

Implicit Types (σ : heap) (d : gmap Cell Z) (u v x y p r : Cell).

(** Two cells one step apart in the lattice. *)
Definition lattice_adjacent (u v : Cell) : Prop :=
  Z.abs (row u - row v) + Z.abs (column u - column v) = 1.

(** [v] can be reached from [u] along links. *)
Definition reachable σ : relation Cell := rtc (λ u v, v ∈ links σ u).

Lemma searched_parity σ r d :
  searched σ r d →
  (∀ x y, y ∈ links σ x → lattice_adjacent x y) →
  ∀ x dx, d !! x = Some dx →
    ∃ q, dx + row x + column x - row r - column r = 2 * q.
Proof.
  intros [Hroot Hrange Hparent Hclosed] Hadj.
  assert (∀ n x dx, Z.to_nat dx = n → d !! x = Some dx →
            ∃ q, dx + row x + column x - row r - column r = 2 * q) as Hind.
  { induction n as [|n IH]; intros x dx Hn Hx.
    - destruct (Hrange x dx Hx) as [Hpos Hr].
      assert (dx = 0) as -> by lia. rewrite (Hr eq_refl). exists 0. lia.
    - destruct (decide (x = r)) as [->|Hne].
      { rewrite Hroot in Hx. injection Hx as <-. done. }
      destruct (Hparent x dx Hx Hne) as (p & Hp & Hxp).
      destruct (IH p (dx - 1) ltac:(lia) Hp) as [q Hq].
      specialize (Hadj p x Hxp). unfold lattice_adjacent in Hadj.
      assert (row x + column x - row p - column p = 1
              ∨ row x + column x - row p - column p = -1) as [Hs|Hs] by lia.
      + exists (q + 1). lia.
      + exists q. lia. }
  intros x dx Hx. by apply (Hind (Z.to_nat dx)).
Qed.

Lemma searched_reachable σ r d x :
  searched σ r d → reachable σ r x → is_Some (d !! x).
Proof.
  intros Hd Hreach.
  eapply (rtc_ind_r (λ z, is_Some (d !! z)) r); [| |exact Hreach].
  - exists 0. apply Hd.
  - intros y z _ Hz [dy Hdy].
    destruct (searched_closed _ _ _ Hd y dy z Hdy Hz) as (dz & Hdz & _).
    by exists dz.
Qed.

(** C3, amended.  In the distance map that [Cell.distances] builds, two cells
    that are linked to each other and both in the map have distances that
    differ by at most 1; they differ by exactly 1 when every link joins two
    cells that are adjacent in the lattice. *)
Theorem distances_of_linked_cells σ r :
  ∃ D, Cell_distances set_iter σ r = Some (Ok D)
       ∧ ∀ u v du dv,
           dist D !! u = Some du → dist D !! v = Some dv →
           linked_to σ u v = true → linked_to σ v u = true →
           Z.abs (du - dv) ≤ 1
           ∧ ((∀ x y, y ∈ links σ x → lattice_adjacent x y) →
              Z.abs (du - dv) = 1).
Proof.
  destruct (Cell_distances_searched set_iter set_iter_elements σ r)
    as (D & HD & Hroot & Hd).
  exists D. split; [done|].
  intros u v du dv Hu Hv Huv Hvu.
  apply bool_decide_eq_true in Huv, Hvu.
  destruct (searched_closed _ _ _ Hd u du v Hu Huv) as (dv' & Hdv' & Hle1).
  rewrite Hv in Hdv'. injection Hdv' as <-.
  destruct (searched_closed _ _ _ Hd v dv u Hv Hvu) as (du' & Hdu' & Hle2).
  rewrite Hu in Hdu'. injection Hdu' as <-.
  split; [lia|].
  intros Hadj.
  destruct (searched_parity _ _ _ Hd Hadj u du Hu) as [q1 Hq1].
  destruct (searched_parity _ _ _ Hd Hadj v dv Hv) as [q2 Hq2].
  specialize (Hadj u v Huv). unfold lattice_adjacent in Hadj. lia.
Qed.

(** The walk of [path_to]: from a cell at distance [dx] down to the root,
    each step along a link to a cell one nearer. *)
Inductive descent σ r d : Cell → Z → list Cell → Prop :=
| descent_root : d !! r = Some 0 → descent σ r d r 0 [r]
| descent_step x dx y rest :
    x ≠ r → d !! x = Some dx → y ∈ links σ x →
    descent σ r d y (dx - 1) (y :: rest) →
    descent σ r d x dx (x :: y :: rest).

(** The breadcrumbs that the walk along [path] adds to [b]. *)
Definition crumbs d (b : gmap Cell Z) (path : list Cell) : gmap Cell Z :=
  foldl (λ b x, match d !! x with Some dx => <[x := dx]> b | None => b end) b path.

Lemma crumbs_lookup d b path y :
  (∀ x, x ∈ path → is_Some (d !! x)) →
  crumbs d b path !! y = if decide (y ∈ path) then d !! y else b !! y.
Proof.
  revert b. induction path as [|x path IH]; intros b Hpath.
  - unfold crumbs. cbn [foldl]. rewrite decide_False; [done|]. apply not_elem_of_nil.
  - unfold crumbs in *. cbn [foldl]. rewrite IH by (intros; apply Hpath; by right).
    destruct (Hpath x) as [dx Hdx]; [left|]. rewrite Hdx.
    destruct (decide (y ∈ path)) as [Hin|Hout].
    + rewrite decide_True; [done|]. by right.
    + destruct (decide (y = x)) as [->|Hne].
      * rewrite decide_True by left. by rewrite lookup_insert_eq.
      * rewrite lookup_insert_ne by done.
        rewrite decide_False; [done|]. rewrite elem_of_cons. naive_solver.
Qed.

Lemma descent_facts σ r d x dx path :
  searched σ r d →
  descent σ r d x dx path →
  head path = Some x ∧ last path = Some r
  ∧ 0 ≤ dx ∧ length path = (Z.to_nat dx + 1)%nat
  ∧ (∀ i y, path !! i = Some y → d !! y = Some (dx - Z.of_nat i))
  ∧ (∀ i y z, path !! i = Some y → path !! S i = Some z → z ∈ links σ y).
Proof.
  intros Hd Hdesc. induction Hdesc as [Hr|x dx y rest Hne Hx Hxy Hdesc IH].
  - split_and!; try done.
    intros [|i] y Hy; [|done]. simpl in Hy. by simplify_eq.
  - destruct IH as (Hhead & Hlast & Hpos & Hlen & Hdist & Hlinks).
    destruct (searched_range _ _ _ Hd x dx Hx) as [Hdx0 Hdxr].
    assert (0 < dx) as Hdxpos.
    { destruct (decide (dx = 0)) as [->|?]; [|lia]. by destruct Hne; apply Hdxr. }
    split_and!; try done.
    + simpl in *. lia.
    + intros [|i] z Hz; simpl in Hz.
      * simplify_eq. rewrite Hx. f_equal. lia.
      * rewrite (Hdist i z Hz). f_equal. lia.
    + intros [|i] z1 z2 Hz1 Hz2; simpl in Hz1, Hz2.
      * by simplify_eq.
      * by eapply Hlinks.
Qed.

Lemma first_nearer_found σ r d current dc ls :
  searched σ r d → symmetric σ →
  d !! current = Some dc →
  (∀ x, x ∈ ls → x ∈ links σ current) →
  (∃ p dp, p ∈ ls ∧ d !! p = Some dp ∧ dp < dc) →
  ∃ n, first_nearer d current ls = Ok (Some n)
       ∧ n ∈ links σ current ∧ d !! n = Some (dc - 1).
Proof.
  intros Hd Hsym Hcur. induction ls as [|x ls IH]; intros Hls (p & dp & Hp & Hdp & Hlt).
  - by apply elem_of_nil in Hp.
  - assert (x ∈ links σ current) as Hx by (apply Hls; left).
    destruct (searched_closed _ _ _ Hd current dc x Hcur Hx) as (dx & Hdx & Hle).
    cbn [first_nearer]. unfold dict_getitem. rewrite Hdx, Hcur.
    cbn [mbind result_bind].
    destruct (dx <? dc) eqn:E.
    + exists x. split_and!; [done..|].
      apply Z.ltb_lt in E.
      destruct (searched_closed _ _ _ Hd x dx current Hdx) as (dc' & Hdc' & Hle').
      { by apply Hsym. }
      simplify_eq. rewrite Hdx. f_equal. lia.
    + apply Z.ltb_ge in E. apply IH.
      * intros y Hy. apply Hls. by right.
      * exists p, dp. split_and!; [|done..].
        apply elem_of_cons in Hp as [->|Hp]; [|done].
        simplify_eq. lia.
Qed.

Lemma path_to_loop_descent σ r D :
  root D = r → searched σ r (dist D) → symmetric σ →
  ∀ n current dc, Z.to_nat dc = n → dist D !! current = Some dc →
    ∃ path, descent σ r (dist D) current dc (current :: path)
      ∧ ∀ fuel b, (n < fuel)%nat →
          path_to_loop set_iter fuel σ D b current
          = Some (Ok (crumbs (dist D) b path)).
Proof.
  intros Hroot Hd Hsym. induction n as [|n IH]; intros current dc Hn Hcur.
  - destruct (searched_range _ _ _ Hd current dc Hcur) as [Hpos Hr].
    assert (dc = 0) as -> by lia. rewrite (Hr eq_refl) in *.
    exists []. split; [by constructor|].
    intros [|fuel] b Hfuel; [lia|]. simpl.
    by rewrite Hroot, decide_True.
  - assert (current ≠ r) as Hne.
    { intros ->. rewrite (searched_root _ _ _ Hd) in Hcur.
      injection Hcur as <-. simpl in Hn. lia. }
    destruct (searched_parent _ _ _ Hd current dc Hcur Hne) as (p & Hp & Hcp).
    destruct (first_nearer_found σ r (dist D) current dc
                (set_iter (links σ current)) Hd Hsym Hcur)
      as (nb & Hfirst & Hnb & Hdnb).
    { intros x. apply set_iter_elements. }
    { exists p, (dc - 1). split_and!; [|done|lia].
      apply set_iter_elements. by apply Hsym. }
    destruct (IH nb (dc - 1) ltac:(lia) Hdnb) as (path & Hdesc & Hrun).
    exists (nb :: path). split; [by constructor|].
    intros [|fuel] b Hfuel; [lia|]. cbn [path_to_loop].
    rewrite Hroot, decide_False by done. rewrite Hfirst.
    unfold dict_getitem. rewrite Hdnb.
    rewrite Hrun by lia. unfold crumbs. simpl. by rewrite Hdnb.
Qed.

(** C4.  With symmetric links, for every goal that can be reached from the
    root, [path_to(goal)] returns the distances of exactly the cells of one
    path from the goal to the root: consecutive cells are linked, the distance
    goes down by 1 at each step, the path has [distance(goal) + 1] cells, and
    each cell keeps the distance it had. *)
Theorem path_to_is_a_shortest_path σ r goal :
  symmetric σ → reachable σ r goal →
  ∃ D dg path,
    Cell_distances set_iter σ r = Some (Ok D)
    ∧ dist D !! goal = Some dg ∧ 0 ≤ dg
    ∧ head path = Some goal ∧ last path = Some r
    ∧ length path = (Z.to_nat dg + 1)%nat
    ∧ (∀ i x, path !! i = Some x → dist D !! x = Some (dg - Z.of_nat i))
    ∧ (∀ i x y, path !! i = Some x → path !! S i = Some y →
         linked_to σ x y = true ∧ linked_to σ y x = true)
    ∧ ∀ fuel, (Z.to_nat dg < fuel)%nat →
        ∃ B, Distances_path_to set_iter fuel σ D goal = Some (Ok B)
             ∧ root B = r
             ∧ ∀ y, dist B !! y = if decide (y ∈ path) then dist D !! y else None.
Proof.
  intros Hsym Hreach.
  destruct (Cell_distances_searched set_iter set_iter_elements σ r)
    as (D & HD & Hroot & Hd).
  destruct (searched_reachable _ _ _ _ Hd Hreach) as [dg Hdg].
  destruct (path_to_loop_descent σ r D Hroot Hd Hsym (Z.to_nat dg) goal dg
              eq_refl Hdg) as (path & Hdesc & Hrun).
  destruct (descent_facts _ _ _ _ _ _ Hd Hdesc)
    as (Hhead & Hlast & Hpos & Hlen & Hdist & Hlinks).
  exists D, dg, (goal :: path). split_and!; try done.
  - intros i x y Hx Hy. pose proof (Hlinks i x y Hx Hy) as Hxy.
    unfold linked_to. rewrite !bool_decide_eq_true. split; [done|].
    by apply Hsym.
  - intros fuel Hfuel. unfold Distances_path_to, dict_getitem.
    rewrite Hdg, Hrun by done. eexists. split_and!; [done|by rewrite Hroot|].
    intros y. cbn [dist]. rewrite crumbs_lookup.
    + assert (r ∈ goal :: path) as Hrin.
      { apply list_elem_of_lookup.
        exists (pred (length (goal :: path))).
        by rewrite <- last_lookup. }
      destruct (decide (y ∈ path)) as [Hy|Hy].
      * rewrite decide_True; [done|]. by right.
      * unfold Distances_init. cbn [dist]. rewrite Hroot.
        destruct (decide (y = goal)) as [->|Hyg].
        { rewrite decide_True by left. by rewrite lookup_insert_eq. }
        rewrite lookup_insert_ne by done.
        destruct (decide (y = r)) as [->|Hyr].
        { rewrite decide_True by done. rewrite lookup_singleton_eq.
          symmetry. apply Hd. }
        rewrite lookup_singleton_ne by done.
        rewrite decide_False; [done|]. rewrite elem_of_cons. naive_solver.
    + intros x Hx. apply list_elem_of_lookup in Hx as [i Hi].
      exists (dg - Z.of_nat (S i)). apply (Hdist (S i)). done.
Qed.

End DistancesClaims.

(** ** Concrete cells: a cell named by its coordinates *)

#[global] Instance coordinates_CellObject : CellObject (Z * Z) := {|
  row := fst;
  column := snd;
  Cell_init := pair;
  row_init := λ _ _, eq_refl;
  column_init := λ _ _, eq_refl
|}.

(** C3 as stated fails once three cells are linked in a triangle: the two
    cells next to the root are linked to each other and both at distance 1. *)
Lemma distances_of_a_triangle :
  let σ : gmap (Z * Z) (gset (Z * Z)) :=
    run_calls ∅ [Link (0, 0) (0, 1); Link (0, 1) (1, 0); Link (1, 0) (0, 0)] in
  ∃ D, Cell_distances elements σ (0, 0) = Some (Ok D)
       ∧ dist D !! (0, 1) = Some 1 ∧ dist D !! (1, 0) = Some 1
       ∧ linked_to σ (0, 1) (1, 0) = true ∧ linked_to σ (1, 0) (0, 1) = true
       ∧ Z.abs (1 - 1) ≠ 1.
Proof. eexists. split_and!; [vm_compute; reflexivity|vm_compute; reflexivity..|done]. Qed.

(** C4 as stated fails after a one-way link: with [a.link(b, False)] the
    cell [b] can be reached from [a] and is in the map of [a.distances], but
    [b] has no links, so the [for] loop of [path_to(b)] finds no neighbour and
    the [while] loop goes round for ever. *)
Lemma path_to_after_a_one_way_link :
  let σ : gmap (Z * Z) (gset (Z * Z)) := link ∅ (0, 0) (0, 1) false in
  reachable σ (0, 0) (0, 1)
  ∧ ∃ D, Cell_distances elements σ (0, 0) = Some (Ok D)
         ∧ dist D !! (0, 1) = Some 1
         ∧ ∀ fuel, Distances_path_to elements fuel σ D (0, 1) = None.
Proof.
  intros σ. split.
  { apply rtc_once. apply linked_to_true. vm_compute. reflexivity. }
  exists (mk_Distances (0, 0) {[ (0, 0) := 0; (0, 1) := 1 ]}).
  split_and!; [vm_compute; reflexivity|vm_compute; reflexivity|].
  intros fuel. unfold Distances_path_to.
  match goal with
  | |- context [dict_getitem ?d ?g] =>
      assert (dict_getitem d g = Ok 1) as -> by (vm_compute; reflexivity)
  end.
  match goal with
  | |- match path_to_loop _ _ _ ?D ?b _ with _ => _ end = _ =>
      enough (∀ b', path_to_loop elements fuel σ D b' (0, 1) = None) as -> by done
  end.
  induction fuel as [|fuel IH]; intros b'; [done|].
  cbn [path_to_loop root]. rewrite decide_False by discriminate.
  match goal with
  | |- context [first_nearer ?d ?c ?l] =>
      assert (first_nearer d c l = Ok None) as -> by (vm_compute; reflexivity)
  end.
  apply IH.
Qed.

Lemma distances_of_linked_cells_witness :
  let σ : gmap (Z * Z) (gset (Z * Z)) :=
    run_calls ∅ [Link (0, 0) (0, 1); Link (0, 1) (1, 1)] in
  ∃ D, Cell_distances elements σ (0, 0) = Some (Ok D)
       ∧ ∀ u v du dv,
           dist D !! u = Some du → dist D !! v = Some dv →
           linked_to σ u v = true → linked_to σ v u = true →
           Z.abs (du - dv) ≤ 1
           ∧ ((∀ x y, y ∈ links σ x → lattice_adjacent x y) →
              Z.abs (du - dv) = 1).
Proof.
  apply (distances_of_linked_cells elements).
  intros s x. apply elem_of_elements.
Defined.

Lemma path_to_is_a_shortest_path_witness :
  let σ : gmap (Z * Z) (gset (Z * Z)) :=
    run_calls ∅ [Link (0, 0) (0, 1); Link (0, 1) (1, 1)] in
  ∃ D dg path,
    Cell_distances elements σ (0, 0) = Some (Ok D)
    ∧ dist D !! (1, 1) = Some dg ∧ 0 ≤ dg
    ∧ head path = Some (1, 1) ∧ last path = Some (0, 0)
    ∧ length path = (Z.to_nat dg + 1)%nat
    ∧ (∀ i x, path !! i = Some x → dist D !! x = Some (dg - Z.of_nat i))
    ∧ (∀ i x y, path !! i = Some x → path !! S i = Some y →
         linked_to σ x y = true ∧ linked_to σ y x = true)
    ∧ ∀ fuel, (Z.to_nat dg < fuel)%nat →
        ∃ B, Distances_path_to elements fuel σ D (1, 1) = Some (Ok B)
             ∧ root B = (0, 0)
             ∧ ∀ y, dist B !! y = if decide (y ∈ path) then dist D !! y else None.
Proof.
  apply (path_to_is_a_shortest_path elements).
  - intros s x. apply elem_of_elements.
  - apply run_calls_symmetric. intros x y. rewrite !links_empty. set_solver.
  - apply (rtc_l _ _ (0, 1)); [|apply (rtc_l _ _ (1, 1)); [|apply rtc_refl]].
    + apply linked_to_true. vm_compute. reflexivity.
    + apply linked_to_true. vm_compute. reflexivity.
Defined.

Lemma unlink_missing_raises_witness :
  unlink (∅ : gmap (Z * Z) (gset (Z * Z))) (0, 0) (0, 1) true = (Raise KeyError, ∅).
Proof.
  apply unlink_missing_raises. rewrite links_empty. apply not_elem_of_empty.
Defined.

(** ** class Grid and class MaskedGrid *)

(** A list comprehension whose body may raise. *)
Fixpoint result_map {A B} (f : A → result B) (l : list A) : result (list B) :=
  match l with
  | [] => Ok []
  | x :: l' => y ← f x; ys ← result_map f l'; Ok (y :: ys)
  end.

(** A computation that may raise and, being a [while] loop, may also run out
    of fuel ([None]). *)
Definition run_bind {A B} (m : option (result A)) (f : A → option (result B))
  : option (result B) :=
  match m with
  | None => None
  | Some (Raise e) => Some (Raise e)
  | Some (Ok a) => f a
  end.

Section Grids.

Context {Cell : Type} {Cell_eq_dec : EqDecision Cell} {Cell_countable : Countable Cell}.
Context {Cell_object : CellObject Cell}.

Local Abbreviation heap := (gmap Cell (gset Cell)).

(** A grid: the rows of slots, a slot being a cell or [None]; a [MaskedGrid]
    also keeps its mask. *)
Record Grid : Type := mk_Grid {
  _grid : list (list (option Cell));
  MaskedGrid_mask : option Mask
}.

(** [Grid._prepare_grid] *)
Definition Grid_prepare_grid (rows columns : Z) : list (list (option Cell)) :=
  (λ r, (λ c, Some (Cell_init r c)) <$> seqZ 0 columns) <$> seqZ 0 rows.

(** [Grid.__init__]; what [_configure_cells] stores in the cells is read back
    through [Cell_N], [Cell_E], [Cell_S] and [Cell_W] below. *)
Definition Grid_init (rows columns : Z) : Grid :=
  mk_Grid (Grid_prepare_grid rows columns) None.

(** [MaskedGrid._prepare_grid] *)
Definition MaskedGrid_prepare_grid (mask : Mask) (rows columns : Z)
  : result (list (list (option Cell))) :=
  result_map (λ r,
    result_map (λ c,
      on ← Mask_getitem mask r c;
      Ok (if on : bool then Some (Cell_init r c) else None))
      (seqZ 0 columns))
    (seqZ 0 rows).

(** [MaskedGrid.__init__] *)
Definition MaskedGrid_init (mask : Mask) : result Grid :=
  columns ← Mask_columns mask;
  grid ← MaskedGrid_prepare_grid mask (Mask_rows mask) columns;
  Ok (mk_Grid grid (Some mask)).

Definition Grid_rows (g : Grid) : Z := Z.of_nat (length (_grid g)).

Definition Grid_columns (g : Grid) : result Z :=
  row0 ← py_getitem (_grid g) 0; Ok (Z.of_nat (length row0)).

(** [Grid.__getitem__].  Past the two bounds checks there is a row 0, and in
    the rectangular grids that the constructors build the slot exists; the
    model answers [None] where Python would raise on another shape. *)
Definition Grid_getitem (g : Grid) (r c : Z) : option Cell :=
  if (r <? 0) || (Grid_rows g <=? r) then None
  else
    match Grid_columns g with
    | Raise _ => None
    | Ok columns =>
        if (c <? 0) || (columns <=? c) then None
        else match py_getitem (_grid g) r ≫= (λ row, py_getitem row c) with
             | Ok slot => slot
             | Raise _ => None
             end
    end.

(** [Grid.each_row] and [Grid.each_cell] *)
Definition each_row (g : Grid) : list (list (option Cell)) := _grid g.

Definition each_cell (g : Grid) : list Cell := omap id (mjoin (_grid g)).

(** The neighbour slots of a cell, as [_configure_cells] fills them, once and
    for all: [cell.N = self[r - 1, c]] and so on. *)
Definition Cell_N (g : Grid) (cell : Cell) : option Cell :=
  Grid_getitem g (row cell - 1) (column cell).
Definition Cell_E (g : Grid) (cell : Cell) : option Cell :=
  Grid_getitem g (row cell) (column cell + 1).
Definition Cell_S (g : Grid) (cell : Cell) : option Cell :=
  Grid_getitem g (row cell + 1) (column cell).
Definition Cell_W (g : Grid) (cell : Cell) : option Cell :=
  Grid_getitem g (row cell) (column cell - 1).

(** [cell.neighbors] is [list(filter(None, self._neighbors))]. *)
Definition Cell_neighbors (g : Grid) (cell : Cell) : list Cell :=
  omap id [Cell_N g cell; Cell_E g cell; Cell_S g cell; Cell_W g cell].

Definition neighbors_with_links (σ : heap) (g : Grid) (cell : Cell) : list Cell :=
  filter (λ x, Is_true (has_links σ x)) (Cell_neighbors g cell).

Definition neighbors_without_links (σ : heap) (g : Grid) (cell : Cell) : list Cell :=
  filter (λ x, ¬ Is_true (has_links σ x)) (Cell_neighbors g cell).

(** [Mask.count] *)
Definition Mask_count (m : Mask) : Z :=
  Z.of_nat (length (filter Is_true (mjoin (_mask m)))).

(** [Grid.size], overridden by [MaskedGrid.size]. *)
Definition Grid_size (g : Grid) : result Z :=
  match MaskedGrid_mask g with
  | None => columns ← Grid_columns g; Ok (Grid_rows g * columns)
  | Some mask => Ok (Mask_count mask)
  end.

(** *** Random choices

    The random source is a sequence [rand] of naturals, read at a position
    that every draw advances: [choice] and [randint] take the next number
    modulo the number of candidates. *)

Variable rand : nat → nat.

Definition choice {A} (seq : list A) (k : nat) : result (A * nat) :=
  match seq !! (rand k `mod` length seq)%nat with
  | Some x => Ok (x, S k)
  | None => Raise IndexError
  end.

Definition randint (a b : Z) (k : nat) : result (Z * nat) :=
  if b <? a then Raise ValueError
  else Ok (a + Z.of_nat (rand k `mod` Z.to_nat (b - a + 1))%nat, S k).

(** [cell.random_neighbor] *)
Definition random_neighbor (g : Grid) (cell : Cell) (k : nat) : result (Cell * nat) :=
  choice (Cell_neighbors g cell) k.

(** The [while True] loop of [Mask.random_location]. *)
Fixpoint random_location_loop (fuel : nat) (m : Mask) (rows cols : list Z) (k : nat)
  : option (result (Z * Z * nat)) :=
  match fuel with
  | O => None
  | S fuel' =>
      match choice rows k with
      | Raise e => Some (Raise e)
      | Ok (r, k1) =>
          match choice cols k1 with
          | Raise e => Some (Raise e)
          | Ok (c, k2) =>
              match py_getitem (_mask m) r ≫= (λ mrow, py_getitem mrow c) with
              | Raise e => Some (Raise e)
              | Ok true => Some (Ok (r, c, k2))
              | Ok false => random_location_loop fuel' m rows cols k2
              end
          end
      end
  end.

(** [Mask.random_location] *)
Definition Mask_random_location (fuel : nat) (m : Mask) (k : nat)
  : option (result (Z * Z * nat)) :=
  if Mask_count m =? 0 then Some (Raise ValueError)
  else
    match Mask_columns m with
    | Raise e => Some (Raise e)
    | Ok columns =>
        random_location_loop fuel m (seqZ 0 (Mask_rows m)) (seqZ 0 columns) k
    end.

(** [Grid.random_cell], overridden by [MaskedGrid.random_cell]: a slot. *)
Definition Grid_random_cell (fuel : nat) (g : Grid) (k : nat)
  : option (result (option Cell * nat)) :=
  match MaskedGrid_mask g with
  | None =>
      Some ('(grow, k1) ← choice (_grid g) k; choice grow k1)
  | Some mask =>
      run_bind (Mask_random_location fuel mask k)
        (λ '(r, c, k'), Some (Ok (Grid_getitem g r c, k')))
  end.

(** ** The generators, src/maze/algorithm.py

    A generator works on the pair of the heap of link sets and the position
    in the random sequence. *)

Definition binary_tree_cell (g : Grid) (st : heap * nat) (cell : Cell)
  : result (heap * nat) :=
  let '(σ, k) := st in
  let neighbors := omap id [Cell_N g cell; Cell_E g cell] in
  match neighbors with
  | [] => Ok st
  | _ :: _ => '(neighbor, k') ← choice neighbors k; Ok (link σ cell neighbor true, k')
  end.

Definition binary_tree (g : Grid) (st : heap * nat) : result (heap * nat) :=
  for_each (binary_tree_cell g) st (each_cell g).

(** The body of [for cell in row] in [sidewinder], on the triple of the heap,
    the random position and the run.  A slot [None] of a masked grid is
    appended to the run and then asked for its [E]. *)
Definition sidewinder_cell (g : Grid) (st : heap * nat * list Cell) (slot : option Cell)
  : result (heap * nat * list Cell) :=
  let '(σ, k, run) := st in
  match slot with
  | None => Raise AttributeError
  | Some cell =>
      let run := run ++ [cell] in
      let at_E := bool_decide (Cell_E g cell = None) in
      let not_at_N := bool_decide (Cell_N g cell ≠ None) in
      '(close, k1) ←
        (if at_E then Ok (true, k)
         else if not_at_N then '(coin, k1) ← randint 0 1 k; Ok (negb (coin =? 0), k1)
         else Ok (false, k));
      if close : bool then
        '(member, k2) ← choice run k1;
        match Cell_N g member with
        | Some n => Ok (link σ member n true, k2, [])
        | None => Ok (σ, k2, [])
        end
      else
        match Cell_E g cell with
        | Some e => Ok (link σ cell e true, k1, run)
        | None => Raise AttributeError
        end
  end.

Definition sidewinder_row (g : Grid) (st : heap * nat) (grow : list (option Cell))
  : result (heap * nat) :=
  '(σ, k, _) ← for_each (sidewinder_cell g) (st.1, st.2, []) grow; Ok (σ, k).

Definition sidewinder (g : Grid) (st : heap * nat) : result (heap * nat) :=
  for_each (sidewinder_row g) st (each_row g).

(** The [while unvisited] loop of [aldous_broder]. *)
Fixpoint aldous_broder_loop (fuel : nat) (g : Grid) (σ : heap) (k : nat)
    (cell : option Cell) (unvisited : Z) : option (result (heap * nat)) :=
  match fuel with
  | O => None
  | S fuel' =>
      if unvisited =? 0 then Some (Ok (σ, k))
      else
        match cell with
        | None => Some (Raise AttributeError)
        | Some cell =>
            match random_neighbor g cell k with
            | Raise e => Some (Raise e)
            | Ok (neighbor, k') =>
                if has_links σ neighbor
                then aldous_broder_loop fuel' g σ k' (Some neighbor) unvisited
                else aldous_broder_loop fuel' g (link σ cell neighbor true) k'
                       (Some neighbor) (unvisited - 1)
            end
        end
  end.

Definition aldous_broder (fuel : nat) (g : Grid) (st : heap * nat)
  : option (result (heap * nat)) :=
  run_bind (Grid_random_cell fuel g st.2) (λ '(cell, k),
  run_bind (Some (Grid_size g)) (λ size,
  aldous_broder_loop fuel g st.1 k cell (size - 1))).

(** [remove_random] *)
Definition remove_random (L : list Cell) (k : nat) : result (list Cell * nat) :=
  '(i, k') ← randint 0 (Z.of_nat (length L) - 1) k;
  _ ← py_getitem L i;
  Ok (delete (Z.to_nat i) L, k').

(** [path.index(cell)], used where [cell in path] holds. *)
Definition list_index (cell : Cell) (path : list Cell) : nat :=
  default 0%nat (fst <$> list_find (λ x, x = cell) path).

(** [L.remove(x)]: the first occurrence goes, ValueError when there is none. *)
Fixpoint py_remove (x : Cell) (L : list Cell) : result (list Cell) :=
  match L with
  | [] => Raise ValueError
  | y :: L' => if decide (y = x) then Ok L' else L'' ← py_remove x L'; Ok (y :: L'')
  end.

(** The [while cell in unvisited] loop of [wilsons]. *)
Fixpoint wilsons_walk (fuel : nat) (g : Grid) (unvisited : list Cell) (k : nat)
    (cell : Cell) (path : list Cell) : option (result (list Cell * nat)) :=
  match fuel with
  | O => None
  | S fuel' =>
      if bool_decide (cell ∈ unvisited) then
        match random_neighbor g cell k with
        | Raise e => Some (Raise e)
        | Ok (cell', k') =>
            wilsons_walk fuel' g unvisited k' cell'
              (if bool_decide (cell' ∈ path)
               then take (list_index cell' path + 1) path
               else path ++ [cell'])
        end
      else Some (Ok (path, k))
  end.

(** The body of [for i in range(len(path) - 1)]. *)
Definition wilsons_commit (path : list Cell) (st : heap * list Cell) (i : Z)
  : result (heap * list Cell) :=
  let '(σ, unvisited) := st in
  a ← py_getitem path i;
  b ← py_getitem path (i + 1);
  unvisited' ← py_remove a unvisited;
  Ok (link σ a b true, unvisited').

(** The outer [while unvisited] loop of [wilsons]. *)
Fixpoint wilsons_loop (fuel : nat) (g : Grid) (σ : heap) (k : nat)
    (unvisited : list Cell) : option (result (heap * nat)) :=
  match fuel with
  | O => None
  | S fuel' =>
      match unvisited with
      | [] => Some (Ok (σ, k))
      | _ :: _ =>
          run_bind (Some (choice unvisited k)) (λ '(cell, k1),
          run_bind (wilsons_walk fuel' g unvisited k1 cell [cell]) (λ '(path, k2),
          run_bind (Some (for_each (wilsons_commit path) (σ, unvisited)
                            (seqZ 0 (Z.of_nat (length path) - 1))))
            (λ '(σ', unvisited'), wilsons_loop fuel' g σ' k2 unvisited')))
      end
  end.

Definition wilsons (fuel : nat) (g : Grid) (st : heap * nat)
  : option (result (heap * nat)) :=
  run_bind (Some (remove_random (each_cell g) st.2)) (λ '(unvisited, k),
  wilsons_loop fuel g st.1 k unvisited).

(** The hunt: the [for cell in grid.each_cell] loop with its [break]. *)
Fixpoint hunt (g : Grid) (σ : heap) (k : nat) (cells : list Cell)
  : result (option Cell * heap * nat) :=
  match cells with
  | [] => Ok (None, σ, k)
  | cell :: rest =>
      let visited_neighbors := neighbors_with_links σ g cell in
      if negb (has_links σ cell) && negb (bool_decide (visited_neighbors = []))
      then '(neighbor, k') ← choice visited_neighbors k;
           Ok (Some cell, link σ cell neighbor true, k')
      else hunt g σ k rest
  end.

(** The [while current] loop of [hunt_and_kill]. *)
Fixpoint hunt_and_kill_loop (fuel : nat) (g : Grid) (σ : heap) (k : nat)
    (current : option Cell) : option (result (heap * nat)) :=
  match fuel with
  | O => None
  | S fuel' =>
      match current with
      | None => Some (Ok (σ, k))
      | Some current =>
          let unvisited_neighbors := neighbors_without_links σ g current in
          match unvisited_neighbors with
          | _ :: _ =>
              run_bind (Some (choice unvisited_neighbors k)) (λ '(neighbor, k'),
              hunt_and_kill_loop fuel' g (link σ current neighbor true) k' (Some neighbor))
          | [] =>
              run_bind (Some (hunt g σ k (each_cell g))) (λ '(current', σ', k'),
              hunt_and_kill_loop fuel' g σ' k' current')
          end
      end
  end.

Definition hunt_and_kill (fuel : nat) (g : Grid) (st : heap * nat)
  : option (result (heap * nat)) :=
  run_bind (Grid_random_cell fuel g st.2) (λ '(slot, k),
  hunt_and_kill_loop fuel g st.1 k slot).

(** The [while stack] loop of [recursive_backtracker]; the top of the stack
    is the head of the list. *)
Fixpoint recursive_backtracker_loop (fuel : nat) (g : Grid) (σ : heap) (k : nat)
    (stack : list (option Cell)) : option (result (heap * nat)) :=
  match fuel with
  | O => None
  | S fuel' =>
      match stack with
      | [] => Some (Ok (σ, k))
      | None :: _ => Some (Raise AttributeError)
      | Some current :: rest =>
          let unvisited_neighbors := neighbors_without_links σ g current in
          match unvisited_neighbors with
          | _ :: _ =>
              run_bind (Some (choice unvisited_neighbors k)) (λ '(neighbor, k'),
              recursive_backtracker_loop fuel' g (link σ current neighbor true) k'
                (Some neighbor :: stack))
          | [] => recursive_backtracker_loop fuel' g σ k rest
          end
      end
  end.

Definition recursive_backtracker (fuel : nat) (g : Grid) (start : option Cell)
    (st : heap * nat) : option (result (heap * nat)) :=
  run_bind (match start with
            | Some _ => Some (Ok (start, st.2))
            | None => Grid_random_cell fuel g st.2
            end) (λ '(slot, k),
  recursive_backtracker_loop fuel g st.1 k [slot]).

End Grids.

(** ** The grids that the constructors build *)

Section GridFacts.

Context {Cell : Type} {Cell_eq_dec : EqDecision Cell} {Cell_countable : Countable Cell}.
Context {Cell_object : CellObject Cell}.

Local Abbreviation heap := (gmap Cell (gset Cell)).

Implicit Types (g : @Grid Cell) (x y u v : Cell) (R C : nat) (present : nat → nat → bool).

(** [R] rows of [C] slots; the slot [(r, c)] holds the cell made for it when
    [present r c], and [None] otherwise. *)
Definition slot_of present (r c : nat) : option Cell :=
  if present r c then Some (Cell_init (Z.of_nat r) (Z.of_nat c)) else None.

Definition grid_of R C present : list (list (option Cell)) :=
  (λ r, slot_of present r <$> seq 0 C) <$> seq 0 R.

Definition built g R C present : Prop := _grid g = grid_of R C present.

Lemma seqZ_seq (n : Z) : seqZ 0 n = Z.of_nat <$> seq 0 (Z.to_nat n).
Proof. unfold seqZ. apply list_fmap_ext. intros _ i _. lia. Qed.

Lemma Grid_init_built (rows columns : Z) :
  built (Grid_init rows columns) (Z.to_nat rows) (Z.to_nat columns) (λ _ _, true).
Proof.
  unfold built, Grid_init, Grid_prepare_grid, grid_of. simpl.
  rewrite !seqZ_seq, <- list_fmap_compose. apply list_fmap_ext.
  intros _ r _. simpl. rewrite <- list_fmap_compose. done.
Qed.

Lemma result_map_fmap {A B} (f : A → result B) (h : A → B) (l : list A) :
  (∀ a : A, a ∈ l → f a = Ok (h a)) → result_map f l = Ok (h <$> l).
Proof.
  induction l as [|a l IH]; intros Hf; [done|].
  simpl. rewrite Hf by left. cbn [mbind result_bind].
  rewrite IH by (intros; apply Hf; by right). done.
Qed.

Lemma Mask_getitem_shape M R C (r c : nat) :
  has_shape M R C → (r < R)%nat → (c < C)%nat →
  Mask_getitem (mk_Mask M) (Z.of_nat r) (Z.of_nat c)
  = Ok (default false (cell_at M r c)).
Proof.
  intros Hsh Hr Hc. pose proof Hsh as [HR HF].
  unfold Mask_getitem, Mask_rows. simpl.
  destruct (Z.of_nat r <? 0) eqn:E1; [lia|].
  destruct (Z.of_nat (length M) <=? Z.of_nat r) eqn:E2; [lia|]. simpl.
  rewrite (Mask_columns_shape M R C) by (done || lia). cbn [mbind result_bind].
  destruct (Z.of_nat c <? 0) eqn:E3; [lia|].
  destruct (Z.of_nat C <=? Z.of_nat c) eqn:E4; [lia|]. simpl.
  destruct (lookup_lt_is_Some_2 M r) as [mrow Hrow]; [lia|].
  assert (length mrow = C) as Hlen.
  { rewrite Forall_forall in HF. apply HF. by eapply list_elem_of_lookup_2. }
  destruct (lookup_lt_is_Some_2 mrow c) as [b Hb]; [lia|].
  rewrite (py_getitem_nat _ _ _ Hrow). cbn [mbind result_bind].
  rewrite (py_getitem_nat _ _ _ Hb).
  unfold cell_at. rewrite Hrow. simpl. by rewrite Hb.
Qed.

Lemma MaskedGrid_init_built M R C :
  has_shape M R C → (0 < R)%nat →
  ∃ g, MaskedGrid_init (mk_Mask M) = Ok g
       ∧ built g R C (λ r c, default false (cell_at M r c))
       ∧ MaskedGrid_mask g = Some (mk_Mask M).
Proof.
  intros Hsh HR. unfold MaskedGrid_init.
  rewrite (Mask_columns_shape M R C) by done. cbn [mbind result_bind].
  unfold MaskedGrid_prepare_grid, Mask_rows. simpl.
  rewrite (proj1 Hsh), !seqZ_seq, !Nat2Z.id.
  erewrite (result_map_fmap _
    (λ r : Z, slot_of (λ r c, default false (cell_at M r c)) (Z.to_nat r)
              <$> seq 0 C)).
  - cbn [mbind result_bind]. eexists. split; [done|]. split; [|done].
    unfold built, grid_of. simpl. rewrite <- list_fmap_compose.
    apply list_fmap_ext. intros _ r _. simpl. by rewrite Nat2Z.id.
  - intros r Hr. apply list_elem_of_fmap in Hr as (r' & -> & Hr').
    apply elem_of_seq in Hr'.
    erewrite (result_map_fmap _
      (λ c : Z, slot_of (λ r c, default false (cell_at M r c)) r' (Z.to_nat c))).
    + f_equal. rewrite <- list_fmap_compose. rewrite Nat2Z.id.
      apply list_fmap_ext. intros _ c _. simpl. by rewrite Nat2Z.id.
    + intros c Hc. apply list_elem_of_fmap in Hc as (c' & -> & Hc').
      apply elem_of_seq in Hc'.
      rewrite (Mask_getitem_shape M R C) by (done || lia).
      cbn [mbind result_bind]. unfold slot_of. by rewrite !Nat2Z.id.
Qed.

Lemma grid_of_lookup R C present (r c : nat) :
  (r < R)%nat → (c < C)%nat →
  ∃ grow, grid_of R C present !! r = Some grow ∧ length grow = C
          ∧ grow !! c = Some (slot_of present r c).
Proof.
  intros Hr Hc. unfold grid_of. eexists. split_and!.
  - rewrite list_lookup_fmap, lookup_seq_lt by done. done.
  - by rewrite length_fmap, length_seq.
  - rewrite list_lookup_fmap, lookup_seq_lt by done. done.
Qed.

Lemma Grid_getitem_built g R C present (r c : Z) :
  built g R C present →
  Grid_getitem g r c =
  if decide (0 ≤ r < Z.of_nat R ∧ 0 ≤ c < Z.of_nat C)
  then slot_of present (Z.to_nat r) (Z.to_nat c) else None.
Proof.
  intros Hg. unfold built in Hg.
  unfold Grid_getitem, Grid_rows, Grid_columns. rewrite !Hg.
  assert (length (grid_of R C present) = R) as HlenR
    by (unfold grid_of; by rewrite length_fmap, length_seq).
  rewrite HlenR.
  destruct (r <? 0) eqn:E1; [rewrite decide_False by lia; done|].
  destruct (Z.of_nat R <=? r) eqn:E2; [rewrite decide_False by lia; done|].
  simpl.
  assert (grid_of R C present !! 0%nat = Some (slot_of present 0 <$> seq 0 C))
    as Hrow0.
  { unfold grid_of. rewrite list_lookup_fmap, lookup_seq_lt by lia. done. }
  pose proof (py_getitem_nat _ 0%nat _ Hrow0) as Hget0.
  change (Z.of_nat 0) with 0 in Hget0. rewrite Hget0.
  cbn [mbind result_bind]. rewrite length_fmap, length_seq.
  destruct (c <? 0) eqn:E3; [rewrite decide_False by lia; done|].
  destruct (Z.of_nat C <=? c) eqn:E4; [rewrite decide_False by lia; done|].
  simpl. rewrite decide_True by lia.
  destruct (grid_of_lookup R C present (Z.to_nat r) (Z.to_nat c))
    as (grow & Hgrow & _ & Hslot); [lia..|].
  rewrite <- (Z2Nat.id r), (py_getitem_nat _ _ _ Hgrow) by lia.
  cbn [mbind result_bind].
  rewrite <- (Z2Nat.id c), (py_getitem_nat _ _ _ Hslot) by lia.
  by rewrite !Nat2Z.id.
Qed.

Lemma omap_id_mjoin {A} (ls : list (list (option A))) :
  omap id (mjoin ls) = ls ≫= omap id.
Proof.
  induction ls as [|l ls IH]; [done|].
  csimpl. by rewrite omap_app, IH.
Qed.

Lemma omap_id_fmap {A B} (f : A → option B) (l : list A) :
  omap id (f <$> l) = omap f l.
Proof. induction l as [|a l IH]; [done|]. csimpl. by rewrite IH. Qed.

Lemma NoDup_omap {A B} (f : A → option B) (l : list A) :
  (∀ a1 a2 b, f a1 = Some b → f a2 = Some b → a1 = a2) →
  NoDup l → NoDup (omap f l).
Proof.
  intros Hinj. induction 1 as [|a l Ha Hl IH]; csimpl; [constructor|].
  destruct (f a) as [b|] eqn:Hfa; [|done].
  constructor; [|done].
  rewrite list_elem_of_omap. intros (a' & Ha' & Hfa').
  by rewrite (Hinj a a' b Hfa Hfa') in Ha.
Qed.

Lemma Cell_init_inj (r c r' c' : Z) :
  Cell_init r c = Cell_init r' c' → r = r' ∧ c = c'.
Proof.
  intros Heq. split.
  - by rewrite <- (row_init r c), Heq, row_init.
  - by rewrite <- (column_init r c), Heq, column_init.
Qed.

Lemma slot_of_Some present (r c : nat) x :
  slot_of present r c = Some x ↔
  present r c = true ∧ x = Cell_init (Z.of_nat r) (Z.of_nat c).
Proof. unfold slot_of. destruct (present r c); naive_solver. Qed.

Lemma each_cell_built g R C present :
  built g R C present →
  each_cell g = seq 0 R ≫= (λ r, omap (slot_of present r) (seq 0 C)).
Proof.
  intros Hg. unfold each_cell. unfold built in Hg. rewrite Hg.
  rewrite omap_id_mjoin. unfold grid_of.
  induction (seq 0 R) as [|r rs IH]; [done|].
  csimpl. by rewrite IH, omap_id_fmap.
Qed.

Lemma elem_of_each_cell g R C present x :
  built g R C present →
  x ∈ each_cell g ↔
  ∃ r c : nat, (r < R)%nat ∧ (c < C)%nat ∧ present r c = true
               ∧ x = Cell_init (Z.of_nat r) (Z.of_nat c).
Proof.
  intros Hg. rewrite (each_cell_built _ _ _ _ Hg), list_elem_of_bind.
  split.
  - intros (r & Hx & Hr). apply list_elem_of_omap in Hx as (c & Hc & Hslot).
    apply elem_of_seq in Hr, Hc. apply slot_of_Some in Hslot as [? ?].
    exists r, c. split_and!; (done || lia).
  - intros (r & c & Hr & Hc & Hp & ->). exists r. split.
    + apply list_elem_of_omap. exists c. split; [apply elem_of_seq; lia|].
      by apply slot_of_Some.
    + apply elem_of_seq. lia.
Qed.

Lemma NoDup_each_cell g R C present :
  built g R C present → NoDup (each_cell g).
Proof.
  intros Hg. rewrite (each_cell_built _ _ _ _ Hg).
  apply NoDup_bind; [| |apply NoDup_seq].
  - intros r1 r2 x _ _ H1 H2.
    apply list_elem_of_omap in H1 as (c1 & _ & [_ ->]%slot_of_Some).
    apply list_elem_of_omap in H2 as (c2 & _ & [_ Heq]%slot_of_Some).
    apply Cell_init_inj in Heq as [? _]. lia.
  - intros r _. apply NoDup_omap; [|apply NoDup_seq].
    intros c1 c2 x [_ ->]%slot_of_Some [_ Heq]%slot_of_Some.
    apply Cell_init_inj in Heq as [_ ?]. lia.
Qed.

Lemma Grid_getitem_Some g R C present (r c : Z) y :
  built g R C present →
  Grid_getitem g r c = Some y →
  y ∈ each_cell g ∧ row y = r ∧ column y = c.
Proof.
  intros Hg. rewrite (Grid_getitem_built _ _ _ _ _ _ Hg).
  case_decide as Hd; [|done]. intros [Hp ->]%slot_of_Some.
  rewrite !Z2Nat.id by lia. rewrite row_init, column_init. split; [|done].
  apply (elem_of_each_cell _ _ _ _ _ Hg).
  exists (Z.to_nat r), (Z.to_nat c). rewrite !Z2Nat.id by lia.
  split_and!; (done || lia).
Qed.

Lemma Grid_getitem_cell g R C present x :
  built g R C present → x ∈ each_cell g →
  Grid_getitem g (row x) (column x) = Some x.
Proof.
  intros Hg Hx. apply (elem_of_each_cell _ _ _ _ _ Hg) in Hx
    as (r & c & Hr & Hc & Hp & ->).
  rewrite (Grid_getitem_built _ _ _ _ _ _ Hg), row_init, column_init.
  rewrite decide_True by lia. rewrite !Nat2Z.id. by apply slot_of_Some.
Qed.

Lemma elem_of_Cell_neighbors g x y :
  y ∈ Cell_neighbors g x ↔
  Cell_N g x = Some y ∨ Cell_E g x = Some y
  ∨ Cell_S g x = Some y ∨ Cell_W g x = Some y.
Proof.
  unfold Cell_neighbors. rewrite list_elem_of_omap. split.
  - intros (s & Hs & Hy). simpl in Hy. subst s.
    repeat (apply elem_of_cons in Hs as [Hs|Hs]; [auto|]).
    by apply elem_of_nil in Hs.
  - intros Hy. exists (Some y). split; [|done].
    destruct Hy as [<-|[<-|[<-|<-]]]; set_solver.
Qed.

Lemma Cell_neighbors_adjacent g R C present x y :
  built g R C present → y ∈ Cell_neighbors g x →
  y ∈ each_cell g ∧ lattice_adjacent x y.
Proof.
  intros Hg Hy. apply elem_of_Cell_neighbors in Hy.
  unfold Cell_N, Cell_E, Cell_S, Cell_W, lattice_adjacent in *.
  destruct Hy as [Hy|[Hy|[Hy|Hy]]];
    apply (Grid_getitem_Some _ _ _ _ _ _ _ Hg) in Hy as (? & ? & ?);
    (split; [done|lia]).
Qed.

Lemma Cell_neighbors_symmetric g R C present x y :
  built g R C present → x ∈ each_cell g →
  y ∈ Cell_neighbors g x → x ∈ Cell_neighbors g y.
Proof.
  intros Hg Hx Hy. pose proof (Grid_getitem_cell _ _ _ _ _ Hg Hx) as Hgx.
  apply elem_of_Cell_neighbors in Hy. apply elem_of_Cell_neighbors.
  unfold Cell_N, Cell_E, Cell_S, Cell_W in *.
  destruct Hy as [Hy|[Hy|[Hy|Hy]]];
    apply (Grid_getitem_Some _ _ _ _ _ _ _ Hg) in Hy as (_ & Hr & Hc);
    rewrite Hr, Hc.
  - right; right; left. rewrite <- Hgx. f_equal; lia.
  - right; right; right. rewrite <- Hgx. f_equal; lia.
  - left. rewrite <- Hgx. f_equal; lia.
  - right; left. rewrite <- Hgx. f_equal; lia.
Qed.

Lemma lattice_adjacent_ne x y : lattice_adjacent x y → x ≠ y.
Proof. unfold lattice_adjacent. intros Hadj ->. lia. Qed.

End GridFacts.

Arguments Grid Cell : clear implicits.

(** ** Spanning trees of links *)

Section Trees.

Context {Cell : Type} {Cell_eq_dec : EqDecision Cell} {Cell_countable : Countable Cell}.
Context {Cell_object : CellObject Cell}.

Local Abbreviation heap := (gmap Cell (gset Cell)).

Implicit Types (σ : heap) (x y u v : Cell) (V : gset Cell).

(** The undirected links of a heap: the pairs [{u, v}] with [v] in the link
    set of [u]. *)
Definition undirected_links (σ : heap) : gset (gset Cell) :=
  ⋃ ((λ p : Cell * gset Cell, set_map (D := gset (gset Cell)) (λ v, {[p.1; v]}) p.2)
       <$> map_to_list σ).

(** The links are a spanning tree of the present cells of the grid: one link
    less than there are cells, and every cell reachable from every other. *)
Definition spanning_tree (g : Grid Cell) (σ : heap) : Prop :=
  symmetric σ
  ∧ (size (undirected_links σ) + 1 = length (each_cell g))%nat
  ∧ ∀ u v, u ∈ each_cell g → v ∈ each_cell g → reachable σ u v.

(** The links are a tree over the set [V] of cells. *)
Definition tree_on (σ : heap) (V : gset Cell) : Prop :=
  symmetric σ
  ∧ (∀ u v, v ∈ links σ u → u ∈ V ∧ v ∈ V)
  ∧ (size (undirected_links σ) + 1 = size V)%nat
  ∧ ∀ u v, u ∈ V → v ∈ V → reachable σ u v.

Lemma elem_of_undirected_links σ (e : gset Cell) :
  e ∈ undirected_links σ ↔ ∃ u v, v ∈ links σ u ∧ e = {[u; v]}.
Proof.
  unfold undirected_links. rewrite elem_of_union_list. split.
  - intros (X & HX & He). apply list_elem_of_fmap in HX as ([u S] & -> & HuS).
    apply elem_of_map_to_list in HuS. simpl in He.
    apply elem_of_map in He as (v & -> & Hv).
    exists u, v. split; [|done]. unfold links. by rewrite HuS.
  - intros (u & v & Hv & ->). unfold links in Hv.
    destruct (σ !! u) as [S|] eqn:Hu; simpl in Hv; [|set_solver].
    exists (set_map (λ v, {[u; v]}) S). split.
    + apply list_elem_of_fmap. exists (u, S). split; [done|].
      by apply elem_of_map_to_list.
    + apply elem_of_map. by exists v.
Qed.

Lemma undirected_links_empty : undirected_links (∅ : heap) = ∅.
Proof. unfold undirected_links. by rewrite map_to_list_empty. Qed.

Lemma has_links_true σ x : has_links σ x = true ↔ ∃ y, y ∈ links σ x.
Proof.
  unfold has_links. rewrite negb_true_iff, Nat.eqb_neq, size_non_empty_iff.
  split.
  - intros Hne. apply set_choose in Hne. done.
  - intros [y Hy]. set_solver.
Qed.

Lemma has_links_false σ x : has_links σ x = false ↔ links σ x = ∅.
Proof.
  destruct (has_links σ x) eqn:E.
  - apply has_links_true in E as [y Hy]. split; [done|]. set_solver.
  - split; [|done]. intros _. apply set_eq. intros y. split; [|set_solver].
    intros Hy. assert (has_links σ x = true) by (apply has_links_true; eauto).
    congruence.
Qed.

Lemma reachable_mono σ σ' u v :
  (∀ x y, y ∈ links σ x → y ∈ links σ' x) →
  reachable σ u v → reachable σ' u v.
Proof.
  intros Hsub. unfold reachable. apply rtc_subrel. intros x y. apply Hsub.
Qed.

Lemma tree_on_singleton x : tree_on (∅ : heap) {[x]}.
Proof.
  split_and!.
  - intros u v. rewrite !links_empty. set_solver.
  - intros u v. rewrite links_empty. set_solver.
  - by rewrite undirected_links_empty, size_empty, size_singleton.
  - intros u v ->%elem_of_singleton ->%elem_of_singleton. apply rtc_refl.
Qed.

(** Joining a new cell [v] to a cell [u] of the tree gives a tree again. *)
Lemma tree_on_join σ σ' V u v :
  tree_on σ V → u ∈ V → v ∉ V →
  (∀ x y, y ∈ links σ' x ↔ y ∈ links σ x ∨ (x = u ∧ y = v) ∨ (x = v ∧ y = u)) →
  tree_on σ' ({[v]} ∪ V).
Proof.
  intros (Hsym & Hin & Hsize & Hreach) Hu Hv Hσ'.
  assert (undirected_links σ' = {[ {[u; v]} ]} ∪ undirected_links σ) as Hlinks.
  { apply set_eq. intros e.
    rewrite elem_of_union, elem_of_singleton, !elem_of_undirected_links.
    split.
    - intros (a & b & Hab & ->). apply Hσ' in Hab as [Hab|[[-> ->]|[-> ->]]].
      + right. by exists a, b.
      + by left.
      + left. set_solver.
    - intros [->|(a & b & Hab & ->)].
      + exists u, v. split; [|done]. apply Hσ'. auto.
      + exists a, b. split; [|done]. apply Hσ'. auto. }
  assert ({[u; v]} ∉ undirected_links σ) as Hnew.
  { rewrite elem_of_undirected_links. intros (a & b & Hab & Heq).
    destruct (Hin a b Hab) as [Ha Hb].
    assert (v ∈ ({[a; b]} : gset Cell)) as Hvab by (rewrite <- Heq; set_solver).
    set_solver. }
  split_and!.
  - intros x y. rewrite !Hσ'. specialize (Hsym x y). naive_solver.
  - intros x y Hxy. apply Hσ' in Hxy as [Hxy|[[-> ->]|[-> ->]]].
    + destruct (Hin x y Hxy). set_solver.
    + set_solver.
    + set_solver.
  - rewrite Hlinks, !size_union, !size_singleton by set_solver. lia.
  - assert (reachable σ' u v) as Huv.
    { apply rtc_once. apply Hσ'. auto. }
    assert (reachable σ' v u) as Hvu.
    { apply rtc_once. apply Hσ'. auto. }
    assert (∀ a b, a ∈ V → b ∈ V → reachable σ' a b) as Hold.
    { intros a b Ha Hb. apply (reachable_mono σ); [|by apply Hreach].
      intros x y Hxy. apply Hσ'. auto. }
    intros a b Ha Hb.
    apply elem_of_union in Ha as [->%elem_of_singleton|Ha];
      apply elem_of_union in Hb as [->%elem_of_singleton|Hb].
    + apply rtc_refl.
    + etrans; [exact Hvu|]. by apply Hold.
    + etrans; [|exact Huv]. by apply Hold.
    + by apply Hold.
Qed.

Lemma tree_on_link σ V u v :
  tree_on σ V → u ∈ V → v ∉ V → tree_on (link σ u v true) ({[v]} ∪ V).
Proof.
  intros Ht Hu Hv. apply (tree_on_join σ _ V u v); [done..|].
  intros x y. rewrite elem_of_links_link. naive_solver.
Qed.

Lemma tree_on_link_back σ V u v :
  tree_on σ V → u ∈ V → v ∉ V → tree_on (link σ v u true) ({[v]} ∪ V).
Proof.
  intros Ht Hu Hv. apply (tree_on_join σ _ V u v); [done..|].
  intros x y. rewrite elem_of_links_link. naive_solver.
Qed.

Lemma tree_on_has_links σ V x : tree_on σ V → has_links σ x = true → x ∈ V.
Proof.
  intros (_ & Hin & _) [y Hy]%has_links_true. by destruct (Hin x y Hy).
Qed.

(** A cell of the tree without any link is the whole tree. *)
Lemma tree_on_no_links σ V x y :
  tree_on σ V → x ∈ V → y ∈ V → has_links σ x = false → y = x.
Proof.
  intros (_ & _ & _ & Hreach) Hx Hy Hno. apply has_links_false in Hno.
  specialize (Hreach x y Hx Hy). unfold reachable in Hreach.
  apply rtc_inv in Hreach as [->|(z & Hz & _)]; [done|].
  rewrite Hno in Hz. set_solver.
Qed.

Lemma tree_on_spanning (g : Grid Cell) σ :
  NoDup (each_cell g) →
  tree_on σ (list_to_set (each_cell g)) → spanning_tree g σ.
Proof.
  intros Hnd (Hsym & _ & Hsize & Hreach). split_and!; [done| |].
  - by rewrite Hsize, size_list_to_set.
  - intros u v Hu Hv. apply Hreach; by apply elem_of_list_to_set.
Qed.

End Trees.

(** ** More about the mask: writes, the constructor, and how the decoder
    treats white space, the terminator and its errors *)

Section MaskMore.

Implicit Types (m : Mask) (s : _state) (rest pre rle : string).

Lemma Mask_in_range_shape M R C (r c : Z) :
  has_shape M R C →
  Mask_in_range (mk_Mask M) r c ↔ 0 ≤ r < Z.of_nat R ∧ 0 ≤ c < Z.of_nat C.
Proof.
  intros Hsh. unfold Mask_in_range, Mask_rows. simpl. rewrite (proj1 Hsh).
  split.
  - intros [Hr (columns & Hcols & Hc)].
    rewrite (Mask_columns_shape M R C) in Hcols by (done || lia).
    injection Hcols as <-. done.
  - intros [Hr Hc]. split; [done|]. exists (Z.of_nat C).
    rewrite (Mask_columns_shape M R C) by (done || lia). done.
Qed.

Lemma Mask_getitem_cell_at M R C (r c : Z) :
  has_shape M R C →
  Mask_getitem (mk_Mask M) r c =
  if decide (0 ≤ r < Z.of_nat R ∧ 0 ≤ c < Z.of_nat C)
  then Ok (default false (cell_at M (Z.to_nat r) (Z.to_nat c))) else Ok false.
Proof.
  intros Hsh. case_decide as Hd.
  - rewrite <- (Z2Nat.id r), <- (Z2Nat.id c) by lia.
    rewrite (Mask_getitem_shape M R C) by (done || lia).
    by rewrite !Nat2Z.id.
  - unfold Mask_getitem, Mask_rows. simpl. rewrite (proj1 Hsh).
    destruct (r <? 0) eqn:E1; [done|].
    destruct (Z.of_nat R <=? r) eqn:E2; [done|]. simpl.
    rewrite (Mask_columns_shape M R C) by (done || lia).
    cbn [mbind result_bind].
    destruct (c <? 0) eqn:E3; [done|].
    destruct (Z.of_nat C <=? c) eqn:E4; [done|]. lia.
Qed.

(** X1.  Writing a cell inside the bounds succeeds, keeps the dimensions, and
    afterwards that cell reads back the value written while every other
    position reads as before. *)
Theorem Mask_setitem_then_getitem m r c (is_on : bool) :
  Mask_rect m → Mask_in_range m r c →
  ∃ m', Mask_setitem m r c is_on = (Ok tt, m')
        ∧ Mask_rect m'
        ∧ Mask_rows m' = Mask_rows m ∧ Mask_columns m' = Mask_columns m
        ∧ ∀ r' c', Mask_getitem m' r' c' =
            if decide (r' = r ∧ c' = c) then Ok is_on else Mask_getitem m r' c'.
Proof.
  intros Hrect Hin. destruct m as [M].
  pose proof (Mask_rect_shape _ Hrect) as Hsh. simpl in Hsh.
  revert Hsh. generalize (length M) as R.
  generalize (length (default [] (head M))) as C. intros C R Hsh.
  destruct (proj1 (Mask_in_range_shape M R C r c Hsh) Hin) as [Hr Hc].
  destruct (Mask_setitem_in_range M R C (Z.to_nat r) (Z.to_nat c) is_on Hsh)
    as (M' & Hset & Hsh' & Hcells); [lia..|].
  rewrite !Z2Nat.id in Hset by lia.
  exists (mk_Mask M'). split_and!.
  - done.
  - by eapply has_shape_rect.
  - unfold Mask_rows. simpl. by rewrite (proj1 Hsh'), (proj1 Hsh).
  - rewrite (Mask_columns_shape M' R C), (Mask_columns_shape M R C)
      by (done || lia). done.
  - intros r' c'.
    rewrite (Mask_getitem_cell_at M' R C), (Mask_getitem_cell_at M R C) by done.
    destruct (decide (0 ≤ r' < Z.of_nat R ∧ 0 ≤ c' < Z.of_nat C)) as [Hd|Hd].
    + rewrite Hcells.
      destruct (decide (r' = r ∧ c' = c)) as [[-> ->]|Hne].
      * by rewrite decide_True.
      * rewrite decide_False; [done|]. intros [? ?]. apply Hne. lia.
    + rewrite decide_False; [done|]. intros [-> ->]. apply Hd. lia.
Qed.

Lemma length_filter_replicate_true (n : nat) :
  length (filter Is_true (replicate n true)) = n.
Proof.
  induction n as [|n IH]; [done|]. cbn [replicate].
  rewrite filter_cons_True by done. cbn [length]. by rewrite IH.
Qed.

(** X2.  [Mask(rows, columns)] is rectangular with [rows] rows, every
    position inside the bounds reads on, and its count is
    [rows * columns]. *)
Theorem Mask_init_all_on (rows columns : Z) :
  0 ≤ rows → 0 ≤ columns →
  Mask_rect (Mask_init rows columns)
  ∧ Mask_rows (Mask_init rows columns) = rows
  ∧ (0 < rows → Mask_columns (Mask_init rows columns) = Ok columns)
  ∧ (∀ r c, 0 ≤ r < rows → 0 ≤ c < columns →
       Mask_getitem (Mask_init rows columns) r c = Ok true)
  ∧ Mask_count (Mask_init rows columns) = rows * columns.
Proof.
  intros Hrows Hcols.
  pose proof (Mask_init_shape (Z.to_nat rows) (Z.to_nat columns)) as Hsh.
  rewrite !Z2Nat.id in Hsh by done.
  split_and!.
  - by eapply has_shape_rect.
  - unfold Mask_rows. rewrite (proj1 Hsh). lia.
  - intros Hpos. destruct (Mask_init rows columns) as [M] eqn:HM. simpl in Hsh.
    rewrite (Mask_columns_shape _ _ _ Hsh) by lia. f_equal. lia.
  - intros r c Hr Hc. destruct (Mask_init rows columns) as [M] eqn:HM.
    simpl in Hsh. rewrite (Mask_getitem_cell_at _ _ _ _ _ Hsh).
    rewrite decide_True by lia.
    pose proof (Mask_init_cell (Z.to_nat rows) (Z.to_nat columns)
                  (Z.to_nat r) (Z.to_nat c) ltac:(lia) ltac:(lia)) as Hcell.
    rewrite !Z2Nat.id, HM in Hcell by done. simpl in Hcell. by rewrite Hcell.
  - unfold Mask_count, Mask_init. simpl.
    assert (∀ R C, length (filter Is_true (mjoin (replicate R (replicate C true))))
                 = (R * C)%nat) as Hlen.
    { intros R C. induction R as [|R IH]; [done|]. csimpl.
      rewrite filter_app, length_app, IH, length_filter_replicate_true. done. }
    rewrite Hlen, Nat2Z.inj_mul, !Z2Nat.id by done. done.
Qed.

End MaskMore.

Section DecoderMore.

Implicit Types (m : Mask) (s : _state) (rest pre rle : string).

(** The text without its white space. *)
Fixpoint strip_whitespace (rle : string) : string :=
  match rle with
  | EmptyString => EmptyString
  | String a rest =>
      if is_whitespace a then strip_whitespace rest
      else String a (strip_whitespace rest)
  end.

(** The text holds no ['!']. *)
Fixpoint no_terminator (rle : string) : Prop :=
  match rle with
  | EmptyString => True
  | String a rest => a ≠ "!"%char ∧ no_terminator rest
  end.

Lemma from_RLE_step_break s a : from_RLE_step s a = Ok None → a = "!"%char.
Proof.
  unfold from_RLE_step. intros Hstep.
  destruct (is_whitespace a); [done|].
  destruct (is_digit a); [done|].
  destruct (Ascii.eqb a "w").
  { destruct (width s); [done|]. cbn in Hstep.
    by destruct (height s), (mask s). }
  destruct (Ascii.eqb a "h").
  { destruct (height s); [done|]. cbn in Hstep.
    by destruct (width s), (mask s). }
  destruct (Ascii.eqb a "o").
  { destruct (mask s); [|done]. cbn -[turn_off Z.to_nat] in Hstep.
    by destruct (turn_off _ _). }
  destruct (Ascii.eqb a "."); [done|].
  destruct (Ascii.eqb a "$").
  { destruct (width s); [|done]. by destruct (rowcol s). }
  destruct (Ascii.eqb a "!") eqn:E; [|done].
  by apply Ascii.eqb_eq in E.
Qed.

Lemma from_RLE_loop_app pre rest s :
  no_terminator pre →
  from_RLE_loop (pre ++ rest) s = from_RLE_loop pre s ≫= from_RLE_loop rest.
Proof.
  revert s. induction pre as [|a pre IH]; intros s Hpre; [done|].
  destruct Hpre as [Ha Hpre]. rewrite string_app_cons. cbn [from_RLE_loop].
  destruct (from_RLE_step s a) as [[s'|]|e] eqn:Hstep; [by apply IH| |done].
  by apply from_RLE_step_break in Hstep.
Qed.

(** X3.  White space anywhere in the text is ignored: a text and the same
    text without its white space decode alike, result or error. *)
Theorem from_RLE_ignores_whitespace rle :
  Mask_from_RLE (strip_whitespace rle) = Mask_from_RLE rle.
Proof.
  unfold Mask_from_RLE. f_equal. generalize _state_init as s.
  induction rle as [|a rle IH]; intros s; [done|].
  cbn [strip_whitespace]. destruct (is_whitespace a) eqn:Hws.
  - rewrite IH. cbn [from_RLE_loop]. unfold from_RLE_step. by rewrite Hws.
  - cbn [from_RLE_loop]. destruct (from_RLE_step s a) as [[s'|]|e]; auto.
Qed.

(** X4.  A ['!'] ends the decoding: whatever follows it is ignored, and the
    result is that of the text before it. *)
Theorem from_RLE_stops_at_terminator pre rest :
  Mask_from_RLE (pre ++ String "!" rest) = Mask_from_RLE pre.
Proof.
  unfold Mask_from_RLE. f_equal. generalize _state_init as s.
  induction pre as [|a pre IH]; intros s; [done|].
  rewrite string_app_cons. cbn [from_RLE_loop].
  destruct (from_RLE_step s a) as [[s'|]|e]; auto.
Qed.

(** X5.  Declaring a dimension a second time raises, and what is raised is a
    NameError: the message of the intended ValueError formats a name,
    [width] or [height], that is not defined. *)
Theorem from_RLE_dimension_twice pre rest s :
  no_terminator pre →
  from_RLE_loop pre _state_init = Ok s →
  (is_Some (width s) → Mask_from_RLE (pre ++ String "w" rest) = Raise NameError)
  ∧ (is_Some (height s) → Mask_from_RLE (pre ++ String "h" rest) = Raise NameError).
Proof.
  intros Hpre Hs. unfold Mask_from_RLE.
  split; intros [x Hx]; rewrite (from_RLE_loop_app _ _ _ Hpre), Hs;
    cbn [mbind result_bind from_RLE_loop]; unfold from_RLE_step.
  - change (is_whitespace "w") with false. change (is_digit "w") with false.
    cbn. by rewrite Hx.
  - change (is_whitespace "h") with false. change (is_digit "h") with false.
    cbn. by rewrite Hx.
Qed.

(** X6.  An ['o'] before both dimensions are declared raises ValueError, and
    so does a ['$'] before the width is declared. *)
Theorem from_RLE_needs_dimensions pre rest s :
  no_terminator pre →
  from_RLE_loop pre _state_init = Ok s →
  (width s = None ∨ height s = None →
   Mask_from_RLE (pre ++ String "o" rest) = Raise ValueError)
  ∧ (width s = None →
     Mask_from_RLE (pre ++ String "$" rest) = Raise ValueError).
Proof.
  intros Hpre Hs. unfold Mask_from_RLE.
  assert (mask_needs_dimensions s) as Hinv.
  { eapply from_RLE_loop_needs_dimensions; [|done]. by intros [? ?]. }
  split; intros Hdim; rewrite (from_RLE_loop_app _ _ _ Hpre), Hs;
    cbn [mbind result_bind from_RLE_loop]; unfold from_RLE_step.
  - change (is_whitespace "o") with false. change (is_digit "o") with false.
    cbn -[turn_off Z.to_nat].
    destruct (mask s) as [M|] eqn:Em; [|done].
    destruct Hinv as [[? Hw] [? Hh]]; [by eexists|].
    destruct Hdim; congruence.
  - change (is_whitespace "$") with false. change (is_digit "$") with false.
    cbn. by rewrite Hdim.
Qed.

End DecoderMore.

Lemma from_RLE_dimension_twice_witness :
  (is_Some (Some 2) → Mask_from_RLE ("2w3h" ++ String "w" "!") = Raise NameError)
  ∧ (is_Some (Some 3) → Mask_from_RLE ("2w3h" ++ String "h" "!") = Raise NameError).
Proof.
  apply (from_RLE_dimension_twice "2w3h" "!"
           (mk_state (Some (Mask_init 3 2)) (Some 2) (Some 3) 0 0)).
  - simpl. repeat split; discriminate.
  - reflexivity.
Defined.

Lemma from_RLE_needs_dimensions_witness :
  Mask_from_RLE ("3h" ++ String "o" "2w") = Raise ValueError
  ∧ Mask_from_RLE ("3h" ++ String "$" "2w") = Raise ValueError.
Proof.
  destruct (from_RLE_needs_dimensions "3h" "2w" (mk_state None None (Some 3) 0 0))
    as [Ho Hdollar].
  - simpl. repeat split; discriminate.
  - reflexivity.
  - split; [apply Ho; by left|by apply Hdollar].
Defined.

Lemma Mask_setitem_then_getitem_witness :
  let m := mk_Mask [[true; true]; [true; true]] in
  ∃ m', Mask_setitem m 1 0 false = (Ok tt, m')
        ∧ Mask_rect m'
        ∧ Mask_rows m' = Mask_rows m ∧ Mask_columns m' = Mask_columns m
        ∧ ∀ r' c', Mask_getitem m' r' c' =
            if decide (r' = 1 ∧ c' = 0) then Ok false else Mask_getitem m r' c'.
Proof.
  apply Mask_setitem_then_getitem.
  - apply (has_shape_rect _ 2 2). split; [reflexivity|]. repeat constructor.
  - split; [unfold Mask_rows; simpl; lia|]. exists 2. split; [reflexivity|lia].
Defined.

Lemma Mask_init_all_on_witness :
  Mask_rect (Mask_init 2 3)
  ∧ Mask_rows (Mask_init 2 3) = 2
  ∧ (0 < 2 → Mask_columns (Mask_init 2 3) = Ok 3)
  ∧ (∀ r c, 0 ≤ r < 2 → 0 ≤ c < 3 → Mask_getitem (Mask_init 2 3) r c = Ok true)
  ∧ Mask_count (Mask_init 2 3) = 2 * 3.
Proof. apply Mask_init_all_on; lia. Defined.

Section DecodedMasks.

Implicit Types (m : Mask) (s : _state) (rle : string).

(** What the decoder keeps true of its state: a declared dimension is at
    least 1, and an allocated mask has the declared shape. *)
Definition well_dimensioned (s : _state) : Prop :=
  (∀ w, width s = Some w → 1 ≤ w)
  ∧ (∀ h, height s = Some h → 1 ≤ h)
  ∧ (∀ M, mask s = Some M →
       ∃ h w, height s = Some h ∧ width s = Some w
              ∧ has_shape (_mask M) (Z.to_nat h) (Z.to_nat w)).

Lemma Mask_setitem_Ok_shape M R C (r c : Z) (v : bool) m' :
  has_shape M R C →
  Mask_setitem (mk_Mask M) r c v = (Ok tt, m') →
  has_shape (_mask m') R C.
Proof.
  intros Hsh Hset.
  destruct (decide (0 ≤ r < Z.of_nat R ∧ 0 ≤ c < Z.of_nat C)) as [Hd|Hd].
  - destruct (Mask_setitem_in_range M R C (Z.to_nat r) (Z.to_nat c) v Hsh)
      as (M' & Hset' & Hsh' & _); [lia..|].
    rewrite !Z2Nat.id, Hset in Hset' by lia. by injection Hset' as ->.
  - exfalso. revert Hset. unfold Mask_setitem, Mask_rows. simpl.
    rewrite (proj1 Hsh).
    destruct (r <? 0) eqn:E1; [done|].
    destruct (Z.of_nat R <=? r) eqn:E2; [done|]. simpl.
    rewrite (Mask_columns_shape M R C) by (done || lia).
    destruct (c <? 0) eqn:E3; [done|].
    destruct (Z.of_nat C <=? c) eqn:E4; [done|]. lia.
Qed.

Lemma turn_off_well_dimensioned n s s' :
  well_dimensioned s → turn_off n s = Ok s' → well_dimensioned s'.
Proof.
  revert s. induction n as [|n IH]; intros s Hs Hoff; simpl in Hoff.
  - by injection Hoff as <-.
  - destruct (mask s) as [[M]|] eqn:Em; [|done].
    destruct (rowcol s) as [rc|]; [|done]. simpl in Hoff.
    destruct (Mask_setitem (mk_Mask M) rc.1 rc.2 false) as [[[]|] m1] eqn:Hset;
      [|done].
    apply IH in Hoff; [done|].
    destruct Hs as (Hw & Hh & Hm). split_and!; simpl; [done..|].
    intros M1 [= <-]. destruct (Hm _ Em) as (h & w & ? & ? & Hsh).
    exists h, w. split_and!; [done..|].
    by eapply Mask_setitem_Ok_shape.
Qed.

Lemma Mask_init_shape_Z (h w : Z) :
  has_shape (_mask (Mask_init h w)) (Z.to_nat h) (Z.to_nat w).
Proof.
  unfold Mask_init, has_shape; simpl. rewrite length_replicate.
  split; [done|]. apply Forall_replicate, length_replicate.
Qed.

Lemma from_RLE_step_well_dimensioned s a s' :
  well_dimensioned s → from_RLE_step s a = Ok (Some s') → well_dimensioned s'.
Proof.
  unfold from_RLE_step. intros Hs Hstep. pose proof Hs as (Hw & Hh & Hm).
  destruct (is_whitespace a); [by injection Hstep as <-|].
  destruct (is_digit a); [by injection Hstep as <-|].
  assert (1 ≤ (if 0 <? count s then count s else 1)) as Hcnt
    by (destruct (0 <? count s) eqn:E; lia).
  destruct (Ascii.eqb a "w").
  { destruct (width s) eqn:Ew; [done|]. cbn in Hstep.
    destruct (height s) as [h|] eqn:Eh, (mask s) as [M|] eqn:Em;
      injection Hstep as <-; (split_and!; cbn; [by intros ? [= <-]|done|]).
    - intros M' [= <-]. by destruct (Hm _ eq_refl) as (? & ? & ? & ? & _).
    - intros M' [= <-]. exists h, (if 0 <? count s then count s else 1).
      split_and!; [done..|]. apply Mask_init_shape_Z.
    - intros M' [= <-]. by destruct (Hm _ eq_refl) as (? & ? & ? & ? & _).
    - done. }
  destruct (Ascii.eqb a "h").
  { destruct (height s) eqn:Eh; [done|]. cbn in Hstep.
    destruct (width s) as [w|] eqn:Ew, (mask s) as [M|] eqn:Em;
      injection Hstep as <-; (split_and!; cbn; [done|by intros ? [= <-]|]).
    - intros M' [= <-]. by destruct (Hm _ eq_refl) as (? & ? & ? & ? & _).
    - intros M' [= <-]. exists (if 0 <? count s then count s else 1), w.
      split_and!; [done..|]. apply Mask_init_shape_Z.
    - intros M' [= <-]. by destruct (Hm _ eq_refl) as (? & ? & ? & ? & _).
    - done. }
  destruct (Ascii.eqb a "o").
  { destruct (mask s) eqn:Em; [|done]. cbn -[turn_off Z.to_nat] in Hstep.
    destruct (turn_off _ _) as [s2|] eqn:Eoff; [|done].
    cbn in Hstep. injection Hstep as <-.
    eapply turn_off_well_dimensioned; [|done].
    split_and!; cbn; [done..|]. intros M' HM'. apply Hm. by rewrite <- Em. }
  destruct (Ascii.eqb a "."); [by injection Hstep as <-|].
  destruct (Ascii.eqb a "$").
  { destruct (width s) eqn:Ew; [|done]. destruct (rowcol s); [|done].
    cbn in Hstep. injection Hstep as <-. by split_and!; cbn. }
  by destruct (Ascii.eqb a "!").
Qed.

Lemma from_RLE_loop_well_dimensioned rle s s' :
  well_dimensioned s → from_RLE_loop rle s = Ok s' → well_dimensioned s'.
Proof.
  revert s. induction rle as [|a rle IH]; intros s Hinv Hloop; simpl in Hloop.
  - by injection Hloop as <-.
  - destruct (from_RLE_step s a) as [[s1|]|] eqn:Hstep; [| |done].
    + eapply IH; [|done]. by eapply from_RLE_step_well_dimensioned.
    + by injection Hloop as <-.
Qed.

(** X7.  A mask that [from_RLE] returns is never empty: it is rectangular,
    with at least one row and at least one column (a count of 0, or no count,
    declares the dimension 1). *)
Theorem from_RLE_mask_is_rectangular rle m :
  Mask_from_RLE rle = Ok (Some m) →
  Mask_rect m ∧ 1 ≤ Mask_rows m ∧ ∃ columns, Mask_columns m = Ok columns ∧ 1 ≤ columns.
Proof.
  unfold Mask_from_RLE. intros Hrle.
  destruct (from_RLE_loop rle _state_init) as [s|] eqn:Hloop; [|done].
  cbn in Hrle. injection Hrle as Hm.
  assert (well_dimensioned s) as (Hw & Hh & HM).
  { eapply from_RLE_loop_well_dimensioned; [|done].
    split_and!; cbn; done. }
  destruct (HM m Hm) as (h & w & Hhs & Hws & Hsh).
  specialize (Hw w Hws). specialize (Hh h Hhs). destruct m as [M]. simpl in Hsh.
  split_and!.
  - by eapply has_shape_rect.
  - unfold Mask_rows. simpl. rewrite (proj1 Hsh). lia.
  - exists w. rewrite (Mask_columns_shape _ _ _ Hsh) by lia.
    split; [f_equal; lia|done].
Qed.

End DecodedMasks.

Lemma from_RLE_mask_is_rectangular_witness :
  let m := mk_Mask [[true]; [true]; [true]] in
  Mask_rect m ∧ 1 ≤ Mask_rows m ∧ ∃ columns, Mask_columns m = Ok columns ∧ 1 ≤ columns.
Proof. apply (from_RLE_mask_is_rectangular "3h0w"). reflexivity. Defined.

(** ** More about links and distances *)

Section CellsMore.

Context {Cell : Type} {Cell_eq_dec : EqDecision Cell} {Cell_countable : Countable Cell}.

Local Abbreviation heap := (gmap Cell (gset Cell)).

Implicit Types (σ : heap) (u v x y r : Cell).

Lemma linked_to_iff σ u v : linked_to σ u v = true ↔ v ∈ links σ u.
Proof. apply bool_decide_eq_true. Qed.

(** X8.  [u.link(v)] adds the link in both directions and nothing else,
    leaves both cells with links, and linking a second time changes
    nothing. *)
Theorem link_adds_both_directions σ u v :
  (∀ x y, linked_to (link σ u v true) x y = true ↔
          linked_to σ x y = true ∨ (x = u ∧ y = v) ∨ (x = v ∧ y = u))
  ∧ has_links (link σ u v true) u = true
  ∧ has_links (link σ u v true) v = true
  ∧ ∀ x, links (link (link σ u v true) u v true) x = links (link σ u v true) x.
Proof.
  split_and!.
  - intros x y. rewrite !linked_to_iff, elem_of_links_link. naive_solver.
  - apply has_links_true. exists v. apply elem_of_links_link. auto.
  - apply has_links_true. exists u. apply elem_of_links_link. auto.
  - intros x. apply set_eq. intros y. rewrite !elem_of_links_link. naive_solver.
Qed.

(** X9.  Between two different cells that were not linked, [unlink] undoes
    [link]: it succeeds and every cell has its former link set again. *)
Theorem unlink_undoes_link σ u v :
  u ≠ v → v ∉ links σ u → u ∉ links σ v →
  ∃ σ', unlink (link σ u v true) u v true = (Ok tt, σ')
        ∧ ∀ x, links σ' x = links σ x.
Proof.
  intros Hne Huv Hvu.
  destruct (unlink_present (link σ u v true) u v Hne) as (σ' & Hun & Hσ').
  - apply elem_of_links_link. auto.
  - apply elem_of_links_link. auto.
  - exists σ'. split; [done|]. intros x. rewrite Hσ'.
    apply set_eq. intros y.
    repeat (destruct (decide _) as [?|?]); simplify_eq;
      rewrite ?elem_of_difference, ?elem_of_singleton, ?elem_of_links_link;
      naive_solver.
Qed.

Variable set_iter : gset Cell → list Cell.
Hypothesis set_iter_elements : ∀ (s : gset Cell) x, x ∈ set_iter s ↔ x ∈ s.

(** The relation "[v] is in the link set of [u]". *)
Definition link_step σ : relation Cell := λ u v, v ∈ links σ u.

Lemma searched_nsteps σ r (d : gmap Cell Z) x dx :
  searched σ r d → d !! x = Some dx →
  nsteps (link_step σ) (Z.to_nat dx) r x.
Proof.
  intros Hd. remember (Z.to_nat dx) as n eqn:Hn. revert x dx Hn.
  induction n as [|n IH]; intros x dx Hn Hx.
  - destruct (searched_range _ _ _ Hd x dx Hx) as [Hpos Hr].
    assert (dx = 0) as -> by lia. rewrite (Hr eq_refl). constructor.
  - assert (x ≠ r) as Hne.
    { intros ->. rewrite (searched_root _ _ _ Hd) in Hx.
      injection Hx as <-. simpl in Hn. lia. }
    destruct (searched_parent _ _ _ Hd x dx Hx Hne) as (p & Hp & Hxp).
    eapply nsteps_r; [|exact Hxp]. apply (IH p (dx - 1)); [lia|done].
Qed.

Lemma searched_shortest σ r (d : gmap Cell Z) n x :
  searched σ r d → nsteps (link_step σ) n r x →
  ∃ dx, d !! x = Some dx ∧ dx ≤ Z.of_nat n.
Proof.
  intros Hd. revert x. induction n as [|n IH]; intros x Hsteps.
  - inversion Hsteps; subst. exists 0. split; [apply Hd|done].
  - apply nsteps_inv_r in Hsteps as (y & Hy & Hyx).
    destruct (IH y Hy) as (dy & Hdy & Hle).
    destruct (searched_closed _ _ _ Hd y dy x Hdy Hyx) as (dx & Hdx & Hle').
    exists dx. split; [done|lia].
Qed.

(** X10.  [Cell.distances] always returns; the map is rooted at the cell,
    gives it distance 0, and its keys are exactly the cells that can be
    reached from the root along links. *)
Theorem distances_cover_the_reachable_cells σ r :
  ∃ D, Cell_distances set_iter σ r = Some (Ok D)
       ∧ root D = r ∧ dist D !! r = Some 0
       ∧ ∀ x, is_Some (dist D !! x) ↔ reachable σ r x.
Proof.
  destruct (Cell_distances_searched set_iter set_iter_elements σ r)
    as (D & HD & Hroot & Hd).
  exists D. split_and!; [done..|apply Hd|].
  intros x. split.
  - intros [dx Hx]. eapply rtc_nsteps_2. by eapply searched_nsteps.
  - intros Hreach. apply rtc_nsteps_1 in Hreach as [n Hn].
    destruct (searched_shortest _ _ _ _ _ Hd Hn) as (dx & Hdx & _). by eexists.
Qed.

(** X11.  The distance recorded for a cell is the length of a shortest path
    of links from the root: there is a path of exactly that many links, and
    none with fewer. *)
Theorem distances_are_shortest σ r :
  ∃ D, Cell_distances set_iter σ r = Some (Ok D)
       ∧ ∀ x dx, dist D !! x = Some dx →
           0 ≤ dx
           ∧ nsteps (link_step σ) (Z.to_nat dx) r x
           ∧ ∀ n, nsteps (link_step σ) n r x → (Z.to_nat dx ≤ n)%nat.
Proof.
  destruct (Cell_distances_searched set_iter set_iter_elements σ r)
    as (D & HD & Hroot & Hd).
  exists D. split; [done|]. intros x dx Hx. split_and!.
  - by destruct (searched_range _ _ _ Hd x dx Hx).
  - by eapply searched_nsteps.
  - intros n Hn. destruct (searched_shortest _ _ _ _ _ Hd Hn) as (dx' & Hdx' & Hle).
    rewrite Hx in Hdx'. injection Hdx' as <-. lia.
Qed.

End CellsMore.

Lemma unlink_undoes_link_witness :
  ∃ σ', unlink (link (∅ : gmap (Z * Z) (gset (Z * Z))) (0, 0) (0, 1) true)
          (0, 0) (0, 1) true = (Ok tt, σ')
        ∧ ∀ x, links σ' x = links (∅ : gmap (Z * Z) (gset (Z * Z))) x.
Proof.
  apply unlink_undoes_link.
  - discriminate.
  - rewrite links_empty. apply not_elem_of_empty.
  - rewrite links_empty. apply not_elem_of_empty.
Defined.

Lemma distances_cover_the_reachable_cells_witness :
  let σ : gmap (Z * Z) (gset (Z * Z)) :=
    run_calls ∅ [Link (0, 0) (0, 1); Link (0, 1) (1, 1)] in
  ∃ D, Cell_distances elements σ (0, 0) = Some (Ok D)
       ∧ root D = (0, 0) ∧ dist D !! (0, 0) = Some 0
       ∧ ∀ x, is_Some (dist D !! x) ↔ reachable σ (0, 0) x.
Proof.
  apply (distances_cover_the_reachable_cells elements).
  intros s x. apply elem_of_elements.
Defined.

Lemma distances_are_shortest_witness :
  let σ : gmap (Z * Z) (gset (Z * Z)) :=
    run_calls ∅ [Link (0, 0) (0, 1); Link (0, 1) (1, 1)] in
  ∃ D, Cell_distances elements σ (0, 0) = Some (Ok D)
       ∧ ∀ x dx, dist D !! x = Some dx →
           0 ≤ dx
           ∧ nsteps (link_step σ) (Z.to_nat dx) (0, 0) x
           ∧ ∀ n, nsteps (link_step σ) n (0, 0) x → (Z.to_nat dx ≤ n)%nat.
Proof.
  apply (distances_are_shortest elements).
  intros s x. apply elem_of_elements.
Defined.


(** ** [Distances.max] and the labels of [DistanceGrid] *)

Section DistancesMore.

Context {Cell : Type} {Cell_eq_dec : EqDecision Cell} {Cell_countable : Countable Cell}.

(** The order in which a dictionary yields its keys (for Python, the order
    of insertion) is a parameter of which only the elements are known. *)
Variable dict_iter : gmap Cell Z → list Cell.
Hypothesis dict_iter_keys : ∀ (d : gmap Cell Z) x, x ∈ dict_iter d ↔ is_Some (d !! x).

(** The body of [for cell in self] in [Distances.max], on the pair
    [(max_cell, max_distance)]. *)
Definition max_visit (self : gmap Cell Z) (st : Cell * Z) (cell : Cell)
  : result (Cell * Z) :=
  let '(max_cell, max_distance) := st in
  d ← dict_getitem self cell;
  if decide (d > max_distance) then
    max_distance ← dict_getitem self cell;
    Ok (cell, max_distance)
  else Ok (max_cell, max_distance).

(** [Distances.max] *)
Definition Distances_max (self : Distances) : result (Cell * Z) :=
  for_each (max_visit (dist self)) (root self, 0) (dict_iter (dist self)).

(** X12.  [Distances.max] never raises; the distance it returns is at least
    0 and at least every distance of the map, and the cell it returns is a
    key with that distance, or the root when no distance is positive. *)
Theorem Distances_max_is_maximal (D : Distances) :
  ∃ c n, Distances_max D = Ok (c, n)
         ∧ 0 ≤ n
         ∧ (∀ x dx, dist D !! x = Some dx → dx ≤ n)
         ∧ ((c = root D ∧ n = 0) ∨ (dist D !! c = Some n ∧ 0 < n)).
Proof.
  unfold Distances_max.
  destruct (for_each_invariant
    (λ pre (st : Cell * Z),
       0 ≤ st.2
       ∧ (∀ x dx, x ∈ pre → dist D !! x = Some dx → dx ≤ st.2)
       ∧ ((st.1 = root D ∧ st.2 = 0) ∨ (dist D !! st.1 = Some st.2 ∧ 0 < st.2)))
    (max_visit (dist D)) (root D, 0) (dict_iter (dist D)))
    as ([c n] & Hrun & Hpos & Hmax & Hc).
  - cbn. split_and!; [done| |by left]. intros x dx Hx. by apply elem_of_nil in Hx.
  - intros pre x post [c n] Hl (Hpos & Hmax & Hc). cbn in Hpos, Hmax, Hc.
    assert (is_Some (dist D !! x)) as [dx Hdx].
    { apply dict_iter_keys. rewrite Hl. apply elem_of_app. right. left. }
    unfold max_visit, dict_getitem. rewrite Hdx. cbn [mbind result_bind].
    destruct (decide (dx > n)) as [Hgt|Hle].
    + eexists. split; [done|]. cbn. split_and!; [lia| |right; split; [done|lia]].
      intros y dy [Hy| ->%list_elem_of_singleton]%elem_of_app Hdy.
      * specialize (Hmax y dy Hy Hdy). lia.
      * rewrite Hdx in Hdy. injection Hdy as <-. lia.
    + eexists. split; [done|]. cbn. split_and!; [done| |done].
      intros y dy [Hy| ->%list_elem_of_singleton]%elem_of_app Hdy.
      * by apply (Hmax y dy).
      * rewrite Hdx in Hdy. injection Hdy as <-. lia.
  - exists c, n. split_and!; [done..| |done].
    intros x dx Hdx. apply (Hmax x dx); [|done]. apply dict_iter_keys. by eexists.
Qed.

End DistancesMore.

(** The 62 digits of a label: [string.digits + string.ascii_lowercase +
    string.ascii_uppercase]. *)
Definition _b62 : list ascii :=
  list_ascii_of_string "0123456789abcdefghijklmnopqrstuvwxyzABCDEFGHIJKLMNOPQRSTUVWXYZ".

(** The loop [while distance] of [DistanceGrid.cell_interior]. *)
Fixpoint cell_interior_loop (fuel : nat) (distance : Z) (rep : list ascii)
  : option (result (list ascii)) :=
  if decide (distance = 0) then Some (Ok rep)
  else match fuel with
       | O => None
       | S fuel =>
           let base := Z.of_nat (length _b62) in
           let '(distance, i) := (distance `div` base, distance `mod` base) in
           match py_getitem _b62 i with
           | Ok c => cell_interior_loop fuel distance (rep ++ [c])
           | Raise e => Some (Raise e)
           end
       end.

Section Labels.

Context {Cell : Type} {Cell_eq_dec : EqDecision Cell} {Cell_countable : Countable Cell}.

(** [DistanceGrid.cell_interior]; [distances] is the attribute of the grid,
    [None] until it is assigned. *)
Definition DistanceGrid_cell_interior (fuel : nat) (distances : option (@Distances Cell _ _))
    (cell : Cell) : option (result string) :=
  match distances with
  | None => Some (Ok " "%string)
  | Some D =>
      match dist D !! cell with
      | None => Some (Ok " "%string)
      | Some distance =>
          if decide (0 = distance) then Some (Ok "0"%string)
          else match cell_interior_loop fuel distance [] with
               | Some (Ok rep) => Some (Ok (string_of_list_ascii (reverse rep)))
               | Some (Raise e) => Some (Raise e)
               | None => None
               end
      end
  end.

End Labels.

(** The value of a digit of a label, and of a label read as a number in
    base 62 with the most significant digit first. *)
Definition b62_digit (c : ascii) : option Z :=
  (λ p : nat * ascii, Z.of_nat p.1) <$> list_find (λ c', c' = c) _b62.

Definition b62_value (label : string) : option Z :=
  foldl (λ acc c, a ← acc; i ← b62_digit c; Some (a * 62 + i)) (Some 0)
        (list_ascii_of_string label).

Section LabelFacts.

Context {Cell : Type} {Cell_eq_dec : EqDecision Cell} {Cell_countable : Countable Cell}.

Definition b62_step (acc : option Z) (c : ascii) : option Z :=
  a ← acc; i ← b62_digit c; Some (a * 62 + i).

Lemma b62_table (i : Z) :
  0 ≤ i < 62 → ∃ c, py_getitem _b62 i = Ok c ∧ b62_digit c = Some i.
Proof.
  intros Hi.
  assert (forallb (λ n, match py_getitem _b62 (Z.of_nat n) with
                        | Ok c => bool_decide (b62_digit c = Some (Z.of_nat n))
                        | Raise _ => false
                        end) (seq 0 62) = true) as Hall by (vm_compute; reflexivity).
  rewrite forallb_forall in Hall.
  specialize (Hall (Z.to_nat i)). rewrite Z2Nat.id in Hall by lia.
  destruct (py_getitem _b62 i) as [c|e].
  - exists c. split; [done|]. eapply bool_decide_eq_true_1, Hall.
    apply in_seq. lia.
  - exfalso. enough (false = true) by done. apply Hall, in_seq. lia.
Qed.

Lemma cell_interior_loop_digits fuel distance rep :
  0 ≤ distance < 62 ^ Z.of_nat fuel →
  ∃ ds, cell_interior_loop fuel distance rep = Some (Ok (rep ++ ds))
        ∧ foldl b62_step (Some 0) (reverse ds) = Some distance
        ∧ (0 < distance → ∃ c rest, reverse ds = c :: rest ∧ c ≠ "0"%char).
Proof.
  revert distance rep. induction fuel as [|fuel IH]; intros d rep Hd.
  - assert (d = 0) as -> by (change (62 ^ Z.of_nat 0) with 1 in Hd; lia).
    exists []. rewrite app_nil_r. split_and!; [by cbn|by cbn|intros ?; lia].
  - destruct (decide (d = 0)) as [->|Hne].
    { exists []. rewrite app_nil_r. split_and!; [by cbn|by cbn|intros ?; lia]. }
    cbn [cell_interior_loop]. rewrite decide_False by done.
    change (Z.of_nat (length _b62)) with 62.
    destruct (b62_table (d `mod` 62)) as (c & Hc & Hdig); [by apply Z.mod_pos_bound|].
    cbn zeta. rewrite Hc.
    assert (0 ≤ d `div` 62 < 62 ^ Z.of_nat fuel) as Hq.
    { rewrite Nat2Z.inj_succ, Z.pow_succ_r in Hd by lia.
      split; [apply Z.div_pos; lia|]. apply Z.div_lt_upper_bound; lia. }
    destruct (IH (d `div` 62) (rep ++ [c]) Hq) as (ds & Hrun & Hval & Hlead).
    exists (c :: ds). split_and!.
    + rewrite Hrun. by rewrite <- app_assoc.
    + rewrite reverse_cons, foldl_app, Hval. cbn [foldl]. unfold b62_step.
      cbn [mbind option_bind]. rewrite Hdig. cbn [mbind option_bind].
      f_equal. pose proof (Z.div_mod d 62). lia.
    + intros _. destruct (decide (d `div` 62 = 0)) as [Hq0|Hq0].
      * rewrite Hq0 in Hrun.
        assert (ds = []) as ->.
        { destruct fuel; cbn in Hrun; injection Hrun as Hrun;
            apply (f_equal length) in Hrun; rewrite !length_app in Hrun;
            destruct ds; [done|cbn in Hrun; lia|done|cbn in Hrun; lia]. }
        exists c, []. split; [done|]. intros ->.
        assert (b62_digit "0"%char = Some 0) as H0 by (vm_compute; reflexivity).
        rewrite H0 in Hdig. injection Hdig as Hm.
        pose proof (Z.div_mod d 62). lia.
      * destruct Hlead as (c' & rest & Hrev & Hc'); [lia|].
        exists c', (rest ++ [c]). split; [|done].
        by rewrite reverse_cons, Hrev.
Qed.

Lemma cell_interior_loop_negative fuel distance rep :
  distance < 0 → cell_interior_loop fuel distance rep = None.
Proof.
  revert distance rep. induction fuel as [|fuel IH]; intros d rep Hd.
  - cbn. by rewrite decide_False by lia.
  - cbn [cell_interior_loop]. rewrite decide_False by lia.
    change (Z.of_nat (length _b62)) with 62.
    destruct (b62_table (d `mod` 62)) as (c & Hc & _).
    { apply Z.mod_pos_bound. lia. }
    cbn zeta. rewrite Hc. apply IH. apply Z.div_lt_upper_bound; lia.
Qed.

(** X13.  The label of a cell with a distance is that distance written in
    base 62, most significant digit first and without a leading zero (the
    label of distance 0 is "0"); the loop needs one round for each digit. *)
Theorem cell_interior_is_base_62 fuel (D : Distances) (cell : Cell) (distance : Z) :
  dist D !! cell = Some distance →
  0 ≤ distance < 62 ^ Z.of_nat fuel →
  ∃ c rest,
    DistanceGrid_cell_interior fuel (Some D) cell = Some (Ok (String c rest))
    ∧ b62_value (String c rest) = Some distance
    ∧ (distance ≠ 0 → c ≠ "0"%char).
Proof.
  intros Hcell Hd. unfold DistanceGrid_cell_interior. rewrite Hcell.
  destruct (decide (0 = distance)) as [<-|Hne].
  { exists "0"%char, ""%string. split_and!; [done| |done]. vm_compute. reflexivity. }
  destruct (cell_interior_loop_digits fuel distance [] Hd) as (ds & Hrun & Hval & Hlead).
  destruct Hlead as (c & rest & Hrev & Hc); [lia|].
  exists c, (string_of_list_ascii rest). rewrite Hrun. cbn [app]. rewrite Hrev.
  split_and!; [done| |done].
  unfold b62_value. cbn [list_ascii_of_string].
  rewrite list_ascii_of_string_of_list_ascii, <- Hrev. exact Hval.
Qed.

(** X14.  For a negative distance the loop of [cell_interior] never ends:
    floor division keeps the quotient below 0. *)
Theorem cell_interior_negative_never_returns fuel (D : Distances) (cell : Cell) (distance : Z) :
  dist D !! cell = Some distance → distance < 0 →
  DistanceGrid_cell_interior fuel (Some D) cell = None.
Proof.
  intros Hcell Hd. unfold DistanceGrid_cell_interior. rewrite Hcell.
  rewrite decide_False by lia. by rewrite cell_interior_loop_negative.
Qed.

End LabelFacts.

Lemma Distances_max_is_maximal_witness :
  let D : @Distances (Z * Z) _ _ := mk_Distances (0, 0) {[ (0, 0) := 0; (0, 1) := 1 ]} in
  ∃ c n, Distances_max (λ d, elements (dom d)) D = Ok (c, n)
         ∧ 0 ≤ n
         ∧ (∀ x dx, dist D !! x = Some dx → dx ≤ n)
         ∧ ((c = root D ∧ n = 0) ∨ (dist D !! c = Some n ∧ 0 < n)).
Proof.
  apply Distances_max_is_maximal.
  intros d x. rewrite elem_of_elements. apply elem_of_dom.
Defined.

Lemma cell_interior_is_base_62_witness :
  let D : @Distances (Z * Z) _ _ := mk_Distances (0, 0) {[ (0, 0) := 0; (0, 1) := 100 ]} in
  ∃ c rest,
    DistanceGrid_cell_interior 2 (Some D) (0, 1) = Some (Ok (String c rest))
    ∧ b62_value (String c rest) = Some 100
    ∧ (100 ≠ 0 → c ≠ "0"%char).
Proof.
  apply cell_interior_is_base_62.
  - vm_compute. reflexivity.
  - vm_compute. split; [discriminate|reflexivity].
Defined.

Lemma cell_interior_negative_never_returns_witness :
  let D : @Distances (Z * Z) _ _ := mk_Distances (0, 0) {[ (0, 0) := 0; (0, 1) := -1 ]} in
  DistanceGrid_cell_interior 5 (Some D) (0, 1) = None.
Proof.
  apply (cell_interior_negative_never_returns 5 _ (0, 1) (-1)).
  - vm_compute. reflexivity.
  - lia.
Defined.


(** ** The generators that grow one tree *)

Section Generators.

Context {Cell : Type} {Cell_eq_dec : EqDecision Cell} {Cell_countable : Countable Cell}.
Context {Cell_object : CellObject Cell}.

Local Abbreviation heap := (gmap Cell (gset Cell)).

Variable rand : nat → nat.

Implicit Types (g : Grid Cell) (σ : heap) (x y u v : Cell) (V : gset Cell).
Implicit Types (R C k : nat) (present : nat → nat → bool).

(** The present cells of the grid form one component of the lattice. *)
Definition lattice_connected g : Prop :=
  ∀ u v, u ∈ each_cell g → v ∈ each_cell g →
         rtc (λ x y, y ∈ Cell_neighbors g x) u v.

Definition present_cells g : gset Cell := list_to_set (each_cell g).

Lemma elem_of_present_cells g x : x ∈ present_cells g ↔ x ∈ each_cell g.
Proof. apply elem_of_list_to_set. Qed.

Lemma choice_Ok {A} (seq : list A) k :
  seq ≠ [] → ∃ a, choice rand seq k = Ok (a, S k) ∧ a ∈ seq.
Proof.
  intros Hne. unfold choice.
  destruct (seq !! (rand k `mod` length seq)%nat) as [a|] eqn:E.
  - exists a. split; [done|]. by eapply list_elem_of_lookup_2.
  - apply lookup_ge_None in E.
    assert (length seq ≠ 0%nat) by (by destruct seq).
    pose proof (Nat.mod_upper_bound (rand k) (length seq)). lia.
Qed.

Lemma tree_on_nonempty σ V : tree_on σ V → ∃ x, x ∈ V.
Proof.
  intros (_ & _ & Hsize & _). apply size_pos_elem_of. lia.
Qed.

(** A set of present cells that a neighbour never leaves is all of them. *)
Lemma closed_is_everything g V x :
  lattice_connected g → V ⊆ present_cells g → x ∈ V →
  (∀ a b, a ∈ V → b ∈ Cell_neighbors g a → b ∈ V) →
  V = present_cells g.
Proof.
  intros Hconn Hsub Hx Hclosed. apply set_eq. intros v. split; [apply Hsub|].
  intros Hv. apply elem_of_present_cells in Hv.
  assert (x ∈ each_cell g) as Hxg by (apply elem_of_present_cells, Hsub, Hx).
  pose proof (Hconn x v Hxg Hv) as Hpath. clear Hv Hxg. revert Hx.
  induction Hpath as [|a b c Hab _ IH]; [done|].
  intros Ha. apply IH. by eapply Hclosed.
Qed.

(** A neighbour without links is outside the tree. *)
Lemma unvisited_neighbor g R C present σ V x y :
  built g R C present → tree_on σ V → x ∈ V →
  y ∈ neighbors_without_links σ g x →
  y ∉ V ∧ y ∈ each_cell g ∧ y ∈ Cell_neighbors g x.
Proof.
  intros Hg Htree Hx Hy. apply list_elem_of_filter in Hy as [Hno Hy].
  destruct (Cell_neighbors_adjacent g R C present x y Hg Hy) as [Hyg Hadj].
  split_and!; [|done..]. intros HyV.
  assert (has_links σ y = false) as Hl.
  { destruct (has_links σ y); [|done]. by destruct Hno. }
  pose proof (tree_on_no_links σ V y x Htree HyV Hx Hl) as ->.
  by apply lattice_adjacent_ne in Hadj.
Qed.

Lemma neighbors_without_links_nil σ g x y :
  neighbors_without_links σ g x = [] → y ∈ Cell_neighbors g x →
  has_links σ y = true.
Proof.
  intros Hnil Hy. destruct (has_links σ y) eqn:E; [done|].
  assert (y ∈ neighbors_without_links σ g x) as Hin.
  { apply list_elem_of_filter. split; [|done]. rewrite E. exact id. }
  rewrite Hnil in Hin. by apply elem_of_nil in Hin.
Qed.

Lemma tree_on_grows g R C present σ V x y :
  built g R C present → tree_on σ V → V ⊆ present_cells g → x ∈ V →
  y ∈ neighbors_without_links σ g x →
  tree_on (link σ x y true) ({[y]} ∪ V)
  ∧ {[y]} ∪ V ⊆ present_cells g
  ∧ size ({[y]} ∪ V) = S (size V)
  ∧ (size V < size (present_cells g))%nat.
Proof.
  intros Hg Htree Hsub Hx Hy.
  destruct (unvisited_neighbor g R C present σ V x y Hg Htree Hx Hy)
    as (HyV & Hyg & _).
  assert ({[y]} ∪ V ⊆ present_cells g) as Hsub'.
  { apply union_subseteq. split; [|done].
    apply singleton_subseteq_l. by apply elem_of_present_cells. }
  assert (size ({[y]} ∪ V) = S (size V)) as Hsize.
  { rewrite size_union by set_solver. by rewrite size_singleton. }
  split_and!; [by apply tree_on_link|done|done|].
  apply subseteq_size in Hsub'. lia.
Qed.

(** *** [recursive_backtracker] *)

Lemma recursive_backtracker_loop_tree g R C present fuel σ k
    (stack : list (option Cell)) V :
  built g R C present → lattice_connected g →
  tree_on σ V → V ⊆ present_cells g →
  (∀ slot, slot ∈ stack → ∃ x, slot = Some x ∧ x ∈ V) →
  (∀ x y, x ∈ V → Some x ∉ stack → y ∈ Cell_neighbors g x → y ∈ V) →
  (2 * (size (present_cells g) - size V) + length stack < fuel)%nat →
  ∃ σ' k', recursive_backtracker_loop rand fuel g σ k stack = Some (Ok (σ', k'))
           ∧ tree_on σ' (present_cells g).
Proof.
  intros Hg Hconn. revert σ k stack V.
  induction fuel as [|fuel IH]; intros σ k stack V Htree Hsub Hstack Hclosed Hfuel;
    [lia|].
  destruct stack as [|slot rest].
  { exists σ, k. split; [done|].
    destruct (tree_on_nonempty σ V Htree) as [x Hx].
    rewrite <- (closed_is_everything g V x Hconn Hsub Hx); [done|].
    intros a b Ha Hb. apply (Hclosed a b Ha); [|done]. apply not_elem_of_nil. }
  destruct (Hstack slot) as (current & -> & Hcur); [left|].
  cbn [recursive_backtracker_loop].
  destruct (neighbors_without_links σ g current) as [|n l] eqn:Hnb.
  - apply (IH σ k rest V); [done..| | |cbn [length] in Hfuel; lia].
    + intros slot Hslot. apply Hstack. by right.
    + intros x y Hx Hnot Hy.
      destruct (decide (x = current)) as [->|Hne].
      * eapply tree_on_has_links; [done|].
        by eapply neighbors_without_links_nil.
      * apply (Hclosed x y Hx); [|done].
        rewrite not_elem_of_cons. split; [congruence|done].
  - destruct (choice_Ok (n :: l) k) as (neighbor & Hch & Hin); [done|].
    rewrite Hch. cbn [run_bind]. rewrite <- Hnb in Hin.
    destruct (tree_on_grows g R C present σ V current neighbor Hg Htree Hsub Hcur Hin)
      as (Htree' & Hsub' & Hsize & Hlt).
    apply (IH _ _ _ ({[neighbor]} ∪ V)); [done..| | |].
    + intros slot [->|Hslot]%elem_of_cons.
      * exists neighbor. split; [done|]. set_solver.
      * destruct (Hstack slot Hslot) as (x & -> & Hx). exists x. set_solver.
    + intros x y Hx Hnot Hy. apply not_elem_of_cons in Hnot as [Hne Hnot].
      apply elem_of_union in Hx as [Hx|Hx].
      * apply elem_of_singleton in Hx. congruence.
      * apply elem_of_union. right. by apply (Hclosed x y).
    + rewrite Hsize. cbn [length] in *. lia.
Qed.


(** *** [hunt_and_kill] *)

Lemma hunt_finds g σ k (cells : list Cell) :
  match hunt rand g σ k cells with
  | Ok (Some cell, σ', k') =>
      ∃ neighbor, cell ∈ cells ∧ has_links σ cell = false
                  ∧ neighbor ∈ neighbors_with_links σ g cell
                  ∧ σ' = link σ cell neighbor true
  | Ok (None, σ', k') =>
      σ' = σ ∧ k' = k
      ∧ ∀ cell, cell ∈ cells →
          has_links σ cell = true ∨ neighbors_with_links σ g cell = []
  | Raise _ => False
  end.
Proof.
  induction cells as [|cell rest IH]; cbn [hunt].
  { split_and!; [done..|]. intros cell Hcell. by apply elem_of_nil in Hcell. }
  destruct (has_links σ cell) eqn:Hl; cbn [negb andb].
  - destruct (hunt rand g σ k rest) as [[[[c|] σ'] k']|e]; [| |done].
    + destruct IH as (nb & ? & ? & ? & ?). exists nb. split_and!; [by right|done..].
    + destruct IH as (-> & -> & Hall). split_and!; [done..|].
      intros c [->|Hc]%elem_of_cons; [by left|by apply Hall].
  - destruct (bool_decide (neighbors_with_links σ g cell = [])) eqn:Hnil; cbn [negb].
    + apply bool_decide_eq_true in Hnil.
      destruct (hunt rand g σ k rest) as [[[[c|] σ'] k']|e]; [| |done].
      * destruct IH as (nb & ? & ? & ? & ?). exists nb. split_and!; [by right|done..].
      * destruct IH as (-> & -> & Hall). split_and!; [done..|].
        intros c [->|Hc]%elem_of_cons; [by right|by apply Hall].
    + apply bool_decide_eq_false in Hnil.
      destruct (choice_Ok (neighbors_with_links σ g cell) k Hnil) as (nb & -> & Hnb).
      cbn. exists nb. split_and!; [by left|done..].
Qed.

Lemma neighbors_with_links_elem σ g x y :
  y ∈ neighbors_with_links σ g x ↔ has_links σ y = true ∧ y ∈ Cell_neighbors g x.
Proof.
  unfold neighbors_with_links. rewrite list_elem_of_filter.
  by rewrite Is_true_true.
Qed.

Lemma hunt_and_kill_loop_tree g R C present fuel σ k (current : option Cell) V :
  built g R C present → lattice_connected g →
  tree_on σ V → V ⊆ present_cells g →
  match current with Some c => c ∈ V | None => V = present_cells g end →
  (match current with
   | Some _ => size (present_cells g) - size V + 1
   | None => 0
   end < fuel)%nat →
  ∃ σ' k', hunt_and_kill_loop rand fuel g σ k current = Some (Ok (σ', k'))
           ∧ tree_on σ' (present_cells g).
Proof.
  intros Hg Hconn. revert σ k current V.
  induction fuel as [|fuel IH]; intros σ k current V Htree Hsub Hcur Hfuel; [lia|].
  destruct current as [c|]; cbn [hunt_and_kill_loop].
  2: { exists σ, k. by rewrite <- Hcur. }
  destruct (neighbors_without_links σ g c) as [|n l] eqn:Hnb.
  - pose proof (hunt_finds g σ k (each_cell g)) as Hhunt.
    destruct (hunt rand g σ k (each_cell g)) as [[[[cell|] σ'] k']|e]; [| |done];
      cbn [run_bind].
    + destruct Hhunt as (nb & Hcell & Hl & Hnbl & ->).
      apply neighbors_with_links_elem in Hnbl as [Hnbl Hnbn].
      assert (nb ∈ V) as HnbV by (by eapply tree_on_has_links).
      assert (cell ∉ V) as HcellV.
      { intros HcellV.
        pose proof (tree_on_no_links σ V cell nb Htree HcellV HnbV Hl) as ->.
        destruct (Cell_neighbors_adjacent g R C present cell cell Hg Hnbn) as [_ Hadj].
        by apply lattice_adjacent_ne in Hadj. }
      assert ({[cell]} ∪ V ⊆ present_cells g) as Hsub'.
      { apply union_subseteq. split; [|done].
        apply singleton_subseteq_l. by apply elem_of_present_cells. }
      assert (size ({[cell]} ∪ V) = S (size V)) as Hsize.
      { rewrite size_union by set_solver. by rewrite size_singleton. }
      apply (IH _ _ _ ({[cell]} ∪ V)); [by apply tree_on_link_back|done| |].
      * set_solver.
      * apply subseteq_size in Hsub'. lia.
    + destruct Hhunt as (-> & -> & Hall).
      apply (IH σ k None V); [done..| |lia].
      apply (closed_is_everything g V c Hconn Hsub Hcur).
      intros a b Ha Hb. destruct (decide (b ∈ V)) as [|HbV]; [done|exfalso].
      destruct (Cell_neighbors_adjacent g R C present a b Hg Hb) as [Hbg _].
      assert (a ∈ each_cell g) as Hag by (apply elem_of_present_cells, Hsub, Ha).
      pose proof (Cell_neighbors_symmetric g R C present a b Hg Hag Hb) as Hba.
      destruct (Hall b Hbg) as [Hlb|Hnil].
      { apply HbV. by eapply tree_on_has_links. }
      destruct (has_links σ a) eqn:Hla.
      { assert (a ∈ neighbors_with_links σ g b) as Hin
          by (by apply neighbors_with_links_elem).
        rewrite Hnil in Hin. by apply elem_of_nil in Hin. }
      pose proof (tree_on_no_links σ V a c Htree Ha Hcur Hla) as ->.
      apply HbV. eapply tree_on_has_links; [done|].
      by eapply neighbors_without_links_nil.
  - destruct (choice_Ok (n :: l) k) as (neighbor & Hch & Hin); [done|].
    rewrite Hch. cbn [run_bind]. rewrite <- Hnb in Hin.
    destruct (tree_on_grows g R C present σ V c neighbor Hg Htree Hsub Hcur Hin)
      as (Htree' & Hsub' & Hsize & Hlt).
    apply (IH _ _ _ ({[neighbor]} ∪ V)); [done..| |lia].
    set_solver.
Qed.

(** *** [aldous_broder] *)

Lemma has_neighbor g x y :
  lattice_connected g → x ∈ each_cell g → y ∈ each_cell g → x ≠ y →
  Cell_neighbors g x ≠ [].
Proof.
  intros Hconn Hx Hy Hne Hnil.
  destruct (Hconn x y Hx Hy) as [|a b c Hab _]; [done|].
  rewrite Hnil in Hab. by apply elem_of_nil in Hab.
Qed.

Lemma aldous_broder_loop_tree g R C present fuel σ k cell V (unvisited : Z) r :
  built g R C present → lattice_connected g →
  tree_on σ V → V ⊆ present_cells g → cell ∈ V →
  unvisited = Z.of_nat (size (present_cells g)) - Z.of_nat (size V) →
  aldous_broder_loop rand fuel g σ k (Some cell) unvisited = Some r →
  ∃ σ' k', r = Ok (σ', k') ∧ tree_on σ' (present_cells g).
Proof.
  intros Hg Hconn. revert σ k cell V unvisited r.
  induction fuel as [|fuel IH];
    intros σ k cell V unvisited r Htree Hsub Hcell Hun Hrun; [done|].
  cbn [aldous_broder_loop] in Hrun.
  destruct (unvisited =? 0) eqn:Hz.
  { injection Hrun as <-. exists σ, k. split; [done|].
    apply Z.eqb_eq in Hz.
    assert (V = present_cells g) as <-; [|done].
    apply set_subseteq_size_eq; [done|lia]. }
  apply Z.eqb_neq in Hz.
  assert (size V ≤ size (present_cells g))%nat as Hle by (by apply subseteq_size).
  assert (∃ w, w ∈ present_cells g ∧ w ∉ V) as (w & Hw & HwV).
  { destruct (set_choose_L (present_cells g ∖ V)) as [w Hw]; [|set_solver].
    intros Hempty. apply (f_equal size) in Hempty.
    rewrite size_difference, size_empty in Hempty by done. lia. }
  assert (Cell_neighbors g cell ≠ []) as Hnb.
  { apply (has_neighbor g cell w Hconn).
    - apply elem_of_present_cells. by apply Hsub.
    - by apply elem_of_present_cells.
    - congruence. }
  unfold random_neighbor in Hrun.
  destruct (choice_Ok (Cell_neighbors g cell) k Hnb) as (neighbor & Hch & Hin).
  rewrite Hch in Hrun.
  destruct (has_links σ neighbor) eqn:Hl.
  - apply (IH σ (S k) neighbor V unvisited); [done..| |done|done].
    by eapply tree_on_has_links.
  - assert (neighbor ∈ neighbors_without_links σ g cell) as Hin'.
    { apply list_elem_of_filter. split; [|done]. rewrite Hl. exact id. }
    destruct (tree_on_grows g R C present σ V cell neighbor Hg Htree Hsub Hcell Hin')
      as (Htree' & Hsub' & Hsize & Hlt).
    apply (IH (link σ cell neighbor true) (S k) neighbor ({[neighbor]} ∪ V)
             (unvisited - 1)); [done..| | |done].
    + set_solver.
    + rewrite Hsize. lia.
Qed.


(** *** [wilsons] *)

(** The walk keeps a path without repetition, of which every cell but the
    last is unvisited and every cell is a neighbour of the one before. *)
Definition walk_ok g (unvisited path : list Cell) : Prop :=
  NoDup path
  ∧ (∀ i x, path !! i = Some x → (S i < length path)%nat → x ∈ unvisited)
  ∧ (∀ i x y, path !! i = Some x → path !! S i = Some y → y ∈ Cell_neighbors g x).

Lemma walk_ok_snoc g unvisited path cell cell' :
  walk_ok g unvisited path → last path = Some cell → cell ∈ unvisited →
  cell' ∈ Cell_neighbors g cell → cell' ∉ path →
  walk_ok g unvisited (path ++ [cell']).
Proof.
  intros (Hnd & Hun & Hnb) Hlast Hcell Hcell' Hnew.
  rewrite last_lookup in Hlast. split_and!.
  - apply NoDup_app. split_and!; [done| |apply NoDup_singleton].
    intros x Hx ->%list_elem_of_singleton. done.
  - intros i x Hi Hlt. rewrite length_app in Hlt. cbn in Hlt.
    apply lookup_app_Some in Hi as [Hi|[Hge Hi]].
    + destruct (decide (S i < length path)%nat) as [|Hlast'].
      * by apply (Hun i).
      * apply lookup_lt_Some in Hi as Hlt'.
        replace (pred (length path)) with i in Hlast by lia.
        rewrite Hi in Hlast. by injection Hlast as ->.
    + lia.
  - intros i x y Hx Hy.
    apply lookup_app_Some in Hy as [Hy|[Hge Hy]].
    + apply lookup_lt_Some in Hy as Hlt.
      rewrite lookup_app_l in Hx by lia. by apply (Hnb i).
    + apply list_lookup_singleton_Some in Hy as [Hi <-].
      rewrite lookup_app_l in Hx by lia.
      replace (pred (length path)) with i in Hlast by lia.
      rewrite Hx in Hlast. by injection Hlast as ->.
Qed.

Lemma walk_ok_take g unvisited path n :
  walk_ok g unvisited path → walk_ok g unvisited (take n path).
Proof.
  intros (Hnd & Hun & Hnb). split_and!.
  - eapply sublist_NoDup; [done|apply sublist_take].
  - intros i x Hi Hlt. apply lookup_take_Some in Hi as [Hi Hin].
    apply (Hun i x Hi). rewrite length_take in Hlt. lia.
  - intros i x y Hx Hy. apply lookup_take_Some in Hx as [Hx _].
    apply lookup_take_Some in Hy as [Hy _]. by apply (Hnb i).
Qed.

Lemma last_take_list_index (path : list Cell) cell :
  cell ∈ path → last (take (list_index cell path + 1) path) = Some cell.
Proof.
  intros Hin. unfold list_index.
  destruct (list_find_elem_of (λ x, x = cell) path cell Hin eq_refl) as [[i x] Hfind].
  rewrite Hfind. cbn. apply list_find_Some in Hfind as (Hi & -> & _).
  apply lookup_lt_Some in Hi as Hlt.
  rewrite last_lookup, length_take_le by lia.
  rewrite lookup_take_lt by lia. by replace (pred (i + 1)) with i by lia.
Qed.

Lemma wilsons_walk_path g R C present fuel unvisited k cell path r :
  built g R C present →
  (∀ x, x ∈ unvisited → Cell_neighbors g x ≠ []) →
  walk_ok g unvisited path → last path = Some cell → cell ∈ each_cell g →
  wilsons_walk rand fuel g unvisited k cell path = Some r →
  ∃ path' k' z, r = Ok (path', k') ∧ walk_ok g unvisited path'
                ∧ last path' = Some z ∧ z ∉ unvisited ∧ z ∈ each_cell g.
Proof.
  intros Hg Hnbs. revert k cell path.
  induction fuel as [|fuel IH]; intros k cell path Hok Hlast Hcell Hrun; [done|].
  cbn [wilsons_walk] in Hrun.
  destruct (bool_decide (cell ∈ unvisited)) eqn:Hun.
  - apply bool_decide_eq_true in Hun. unfold random_neighbor in Hrun.
    destruct (choice_Ok (Cell_neighbors g cell) k (Hnbs cell Hun))
      as (cell' & Hch & Hin).
    rewrite Hch in Hrun.
    destruct (Cell_neighbors_adjacent g R C present cell cell' Hg Hin) as [Hcell' _].
    apply IH in Hrun; [done| | |done].
    + destruct (bool_decide (cell' ∈ path)) eqn:Hp.
      * by apply walk_ok_take.
      * apply bool_decide_eq_false in Hp. by eapply walk_ok_snoc.
    + destruct (bool_decide (cell' ∈ path)) eqn:Hp.
      * apply bool_decide_eq_true in Hp. by apply last_take_list_index.
      * apply last_snoc.
  - apply bool_decide_eq_false in Hun. injection Hrun as <-.
    by exists path, k, cell.
Qed.


(** Two cells next to each other on a path, and the heap with the links of a
    path added from its far end. *)
Definition adjacent_in (path : list Cell) (x y : Cell) : Prop :=
  ∃ i, path !! i = Some x ∧ path !! S i = Some y.

Fixpoint link_path σ (path : list Cell) : heap :=
  match path with
  | a :: rest =>
      match rest with
      | b :: _ => link (link_path σ rest) a b true
      | [] => σ
      end
  | [] => σ
  end.

Lemma adjacent_in_cons a b (rest : list Cell) x y :
  adjacent_in (a :: b :: rest) x y ↔ (x = a ∧ y = b) ∨ adjacent_in (b :: rest) x y.
Proof.
  unfold adjacent_in. split.
  - intros ([|i] & Hx & Hy); cbn in Hx, Hy.
    + left. by simplify_eq.
    + right. by exists i.
  - intros [[-> ->]|(i & Hx & Hy)]; [by exists 0%nat|by exists (S i)].
Qed.

Lemma links_link_path σ path x y :
  y ∈ links (link_path σ path) x ↔
  y ∈ links σ x ∨ adjacent_in path x y ∨ adjacent_in path y x.
Proof.
  induction path as [|a [|b rest] IH]; cbn [link_path].
  - unfold adjacent_in. split; [by left|]. intros [?|[(i & ? & ?)|(i & ? & ?)]]; done.
  - unfold adjacent_in. split; [by left|].
    intros [?|[(i & ? & Hy)|(i & ? & Hy)]]; [done|by destruct i..].
  - rewrite elem_of_links_link, IH, !adjacent_in_cons. naive_solver.
Qed.

Lemma tree_on_ext σ σ' V :
  (∀ x, links σ' x = links σ x) → tree_on σ V → tree_on σ' V.
Proof.
  intros Hext (Hsym & Hin & Hsize & Hreach). split_and!.
  - intros u v. rewrite !Hext. apply Hsym.
  - intros u v. rewrite Hext. apply Hin.
  - assert (undirected_links σ' = undirected_links σ) as ->; [|done].
    apply set_eq. intros e.
    rewrite !elem_of_undirected_links. by setoid_rewrite Hext.
  - intros u v Hu Hv. eapply reachable_mono; [|by apply Hreach].
    intros x y. by rewrite Hext.
Qed.

Lemma tree_on_link_path σ V (pre : list Cell) z :
  tree_on σ V → z ∈ V → NoDup pre → (∀ x, x ∈ pre → x ∉ V) →
  tree_on (link_path σ (pre ++ [z])) (list_to_set pre ∪ V).
Proof.
  intros Htree Hz. induction pre as [|a pre IH]; intros Hnd Hout.
  - cbn. by rewrite (left_id_L ∅ (∪)).
  - apply NoDup_cons in Hnd as [Ha Hnd].
    assert (tree_on (link_path σ (pre ++ [z])) (list_to_set pre ∪ V)) as IH'.
    { apply IH; [done|]. intros x Hx. apply Hout. by right. }
    assert (∃ b l, pre ++ [z] = b :: l ∧ b ∈ (list_to_set pre ∪ V : gset Cell))
      as (b & l & Heq & Hb).
    { destruct pre as [|b pre']; [exists z, []|exists b, (pre' ++ [z])];
        (split; [done|set_solver]). }
    cbn [app link_path]. rewrite Heq. rewrite <- Heq.
    rewrite list_to_set_cons, <- (assoc_L (∪)).
    apply tree_on_link_back; [done..|].
    rewrite elem_of_union, elem_of_list_to_set. intros [?|HaV]; [done|].
    by apply (Hout a); [left|].
Qed.

Lemma py_remove_elem x (L : list Cell) :
  x ∈ L → NoDup L →
  ∃ L', py_remove x L = Ok L' ∧ NoDup L' ∧ ∀ y, y ∈ L' ↔ y ∈ L ∧ y ≠ x.
Proof.
  induction L as [|a L IH]; intros Hx Hnd; [by apply elem_of_nil in Hx|].
  apply NoDup_cons in Hnd as [Ha Hnd]. cbn [py_remove].
  destruct (decide (a = x)) as [->|Hne].
  - exists L. split_and!; [done..|]. intros y. rewrite elem_of_cons. naive_solver.
  - apply elem_of_cons in Hx as [->|Hx]; [done|].
    destruct (IH Hx Hnd) as (L' & -> & Hnd' & HL'). cbn.
    exists (a :: L'). split_and!; [done| |].
    + apply NoDup_cons. split; [|done]. rewrite HL'. naive_solver.
    + intros y. rewrite !elem_of_cons, HL'. naive_solver.
Qed.


Lemma wilsons_commit_all g σ unvisited (pre : list Cell) z :
  NoDup unvisited → walk_ok g unvisited (pre ++ [z]) →
  ∃ σ' unvisited',
    for_each (wilsons_commit (pre ++ [z])) (σ, unvisited)
      (seqZ 0 (Z.of_nat (length (pre ++ [z])) - 1)) = Ok (σ', unvisited')
    ∧ (∀ x, links σ' x = links (link_path σ (pre ++ [z])) x)
    ∧ NoDup unvisited'
    ∧ ∀ x, x ∈ unvisited' ↔ x ∈ unvisited ∧ x ∉ pre.
Proof.
  intros Hnd (Hpnd & Hun & Hnb). set (path := pre ++ [z]) in *.
  assert (length path = S (length pre)) as Hlen
    by (unfold path; rewrite length_app; cbn; lia).
  destruct (for_each_invariant
    (λ done (st : heap * list Cell),
       (∀ x y, y ∈ links st.1 x ↔
          y ∈ links σ x
          ∨ (∃ i, (i < length done)%nat ∧ path !! i = Some x ∧ path !! S i = Some y)
          ∨ (∃ i, (i < length done)%nat ∧ path !! i = Some y ∧ path !! S i = Some x))
       ∧ NoDup st.2
       ∧ ∀ x, x ∈ st.2 ↔
           x ∈ unvisited ∧ ¬ ∃ i, (i < length done)%nat ∧ path !! i = Some x)
    (wilsons_commit path) (σ, unvisited) (seqZ 0 (Z.of_nat (length path) - 1)))
    as ([σ' unvisited'] & Hrun & Hlinks & Hnd' & Hun').
  - cbn. split_and!; [|done|].
    + intros x y. split; [by left|]. intros [?|[(i & ? & _)|(i & ? & _)]]; [done|lia..].
    + intros x. split; [|naive_solver]. intros Hx. split; [done|].
      intros (i & ? & _). lia.
  - intros done j post [σi unv] Hl (Hlinks & Hndi & Huni). cbn in Hlinks, Hndi, Huni.
    assert (seqZ 0 (Z.of_nat (length path) - 1) !! length done = Some j) as Hj.
    { rewrite Hl. by apply list_lookup_middle. }
    apply lookup_seqZ in Hj as [-> Hlt].
    set (i := length done) in *.
    destruct (lookup_lt_is_Some_2 path i) as [a Ha]; [lia|].
    destruct (lookup_lt_is_Some_2 path (S i)) as [b Hb]; [lia|].
    assert (a ∈ unv) as Hain.
    { apply Huni. split; [apply (Hun i a Ha); lia|].
      intros (i' & Hi' & Ha').
      pose proof (NoDup_lookup path i' i a Hpnd Ha' Ha). lia. }
    destruct (py_remove_elem a unv Hain Hndi) as (unv' & Hrem & Hnd' & Hunv').
    unfold wilsons_commit. rewrite Z.add_0_l.
    rewrite (py_getitem_nat path i a Ha). cbn [mbind result_bind].
    replace (Z.of_nat i + 1) with (Z.of_nat (S i)) by lia.
    rewrite (py_getitem_nat path (S i) b Hb). cbn [mbind result_bind].
    rewrite Hrem. cbn [mbind result_bind].
    eexists. split; [done|]. cbn [fst snd]. rewrite length_app. cbn [length].
    split_and!; [|done|].
    + intros x y. rewrite elem_of_links_link, Hlinks. split.
      * intros [[?|[(i' & ? & ? & ?)|(i' & ? & ? & ?)]]|[[-> ->]|(_ & -> & ->)]].
        -- by left.
        -- right; left. exists i'. split_and!; [lia|done..].
        -- right; right. exists i'. split_and!; [lia|done..].
        -- right; left. exists i. split_and!; [lia|done..].
        -- right; right. exists i. split_and!; [lia|done..].
      * intros [?|[(i' & Hi' & Hx & Hy)|(i' & Hi' & Hx & Hy)]]; [by left; left|..].
        -- destruct (decide (i' = i)) as [->|?].
           ++ right; left. by simplify_eq.
           ++ left; right; left. exists i'. split_and!; [lia|done..].
        -- destruct (decide (i' = i)) as [->|?].
           ++ right; right. by simplify_eq.
           ++ left; right; right. exists i'. split_and!; [lia|done..].
    + intros x. rewrite Hunv', Huni. split.
      * intros [[Hx Hno] Hne]. split; [done|].
        intros (i' & Hi' & Hx'). destruct (decide (i' = i)) as [->|?].
        -- by simplify_eq.
        -- apply Hno. exists i'. split; [lia|done].
      * intros [Hx Hno]. split_and!; [done| |].
        -- intros (i' & Hi' & Hx'). apply Hno. exists i'. split; [lia|done].
        -- intros ->. apply Hno. exists i. split; [lia|done].
  - cbn in Hlinks, Hnd', Hun'. rewrite length_seqZ in Hlinks, Hun'.
    replace (Z.to_nat (Z.of_nat (length path) - 1)) with (length pre)
      in Hlinks, Hun' by lia.
    exists σ', unvisited'. split_and!; [done| |done|].
    + intros x. apply set_eq. intros y.
      rewrite links_link_path, Hlinks. unfold adjacent_in.
      split; (intros [?|[(i & Hi)|(i & Hi)]]; [by left|right; left|right; right]).
      * exists i. tauto.
      * exists i. tauto.
      * exists i. destruct Hi as [? Hy]. apply lookup_lt_Some in Hy as ?.
        split_and!; [lia|done..].
      * exists i. destruct Hi as [? Hy]. apply lookup_lt_Some in Hy as ?.
        split_and!; [lia|done..].
    + intros x. rewrite Hun'. split; intros [Hx Hno]; (split; [done|]).
      * intros Hin. apply list_elem_of_lookup in Hin as [i Hi].
        apply Hno. exists i. apply lookup_lt_Some in Hi as ?.
        split; [done|]. unfold path. by rewrite lookup_app_l.
      * intros (i & Hi & Hx'). apply Hno. unfold path in Hx'.
        rewrite lookup_app_l in Hx' by done. by eapply list_elem_of_lookup_2.
Qed.

Lemma wilsons_loop_tree g R C present fuel σ k (unvisited : list Cell) V r :
  built g R C present → lattice_connected g →
  tree_on σ V → NoDup unvisited →
  (∀ x, x ∈ V ↔ x ∈ each_cell g ∧ x ∉ unvisited) →
  (∀ x, x ∈ unvisited → x ∈ each_cell g) →
  wilsons_loop rand fuel g σ k unvisited = Some r →
  ∃ σ' k', r = Ok (σ', k') ∧ tree_on σ' (present_cells g).
Proof.
  intros Hg Hconn. revert σ k unvisited V r.
  induction fuel as [|fuel IH]; intros σ k unvisited V r Htree Hnd HV Hsub Hrun;
    [done|].
  cbn [wilsons_loop] in Hrun.
  destruct unvisited as [|c0 unvisited0] eqn:Hunv.
  { injection Hrun as <-. exists σ, k. split; [done|].
    assert (V = present_cells g) as <-; [|done].
    apply set_eq. intros x. rewrite HV, elem_of_present_cells.
    split; [tauto|]. intros Hx. split; [done|apply not_elem_of_nil]. }
  rewrite <- Hunv in *.
  assert (unvisited ≠ []) as Hne by (by rewrite Hunv).
  clear c0 unvisited0 Hunv.
  destruct (tree_on_nonempty σ V Htree) as [v0 Hv0].
  destruct (choice_Ok unvisited k Hne) as (cell & Hch & Hcell).
  rewrite Hch in Hrun. cbn [run_bind] in Hrun.
  destruct (wilsons_walk rand fuel g unvisited (S k) cell [cell]) as [r1|] eqn:Hwalk;
    [|done].
  apply (wilsons_walk_path g R C present) in Hwalk
    as (path & k2 & z & -> & Hok & Hlast & Hz & Hzg); [|done| | |done|by apply Hsub].
  2: { intros x Hx. apply (has_neighbor g x v0 Hconn); [by apply Hsub|by apply HV|].
       intros ->. by apply HV in Hv0 as [_ ?]. }
  2: { split_and!.
       - apply NoDup_singleton.
       - intros i x Hi Hlt. cbn in Hlt. lia.
       - intros i x y _ Hy. done. }
  cbn [run_bind] in Hrun.
  apply last_Some in Hlast as [pre ->].
  destruct (wilsons_commit_all g σ unvisited pre z Hnd Hok)
    as (σ' & unvisited' & Hcommit & Hlinks & Hnd' & Hun').
  rewrite Hcommit in Hrun. cbn [run_bind] in Hrun.
  assert (z ∈ V) as HzV by (by apply HV).
  destruct Hok as (Hpnd & Hpun & _).
  assert (∀ x, x ∈ pre → x ∈ unvisited) as Hpre.
  { intros x [i Hi]%list_elem_of_lookup. apply lookup_lt_Some in Hi as ?.
    apply (Hpun i); [by rewrite lookup_app_l|]. rewrite length_app. cbn. lia. }
  apply (IH σ' k2 unvisited' (list_to_set pre ∪ V) r); [| |  | |done].
  - apply (tree_on_ext (link_path σ (pre ++ [z]))); [done|].
    apply tree_on_link_path; [done..| |].
    + by apply NoDup_app in Hpnd as [? _].
    + intros x Hx HxV. apply HV in HxV as [_ ?]. by apply Hpre in Hx.
  - done.
  - intros x. rewrite elem_of_union, elem_of_list_to_set, HV, Hun'. split.
    + intros [Hx|[Hx Hno]].
      * split; [by apply Hsub, Hpre|]. by intros [_ ?].
      * split; [done|]. by intros [? _].
    + intros [Hx Hno]. destruct (decide (x ∈ pre)) as [|Hnp]; [by left|right].
      split; [done|]. intros Hxu. by apply Hno.
  - intros x Hx. apply Hun' in Hx as [Hx _]. by apply Hsub.
Qed.


(** *** The grids of the two constructors: size and random cell *)

(** [g] has [R] rows and [C] columns of slots, filled where [present], and
    its mask, if it has one, says the same. *)
Definition shaped g R C present : Prop :=
  built g R C present
  ∧ match MaskedGrid_mask g with
    | None => ∀ r c, present r c = true
    | Some mask =>
        has_shape (_mask mask) R C
        ∧ ∀ r c, (r < R)%nat → (c < C)%nat →
                 cell_at (_mask mask) r c = Some (present r c)
    end.

(** The grids that [Grid(rows, columns)] and [MaskedGrid(mask)] build. *)
Definition constructed g : Prop :=
  (∃ rows columns, g = Grid_init rows columns)
  ∨ (∃ mask, Mask_rect mask ∧ MaskedGrid_init mask = Ok g).

Lemma cell_at_shape M R C (r c : nat) :
  has_shape M R C → (r < R)%nat → (c < C)%nat → is_Some (cell_at M r c).
Proof.
  intros [HR HC] Hr Hc. unfold cell_at.
  destruct (lookup_lt_is_Some_2 M r) as [mrow Hrow]; [lia|].
  rewrite Hrow. cbn. apply lookup_lt_is_Some_2.
  rewrite Forall_lookup in HC. by rewrite (HC r mrow Hrow).
Qed.

Lemma constructed_shaped g : constructed g → ∃ R C present, shaped g R C present.
Proof.
  intros [(rows & columns & ->)|(mask & Hrect & Hinit)].
  - exists (Z.to_nat rows), (Z.to_nat columns), (λ _ _, true).
    split; [apply Grid_init_built|done].
  - destruct mask as [M]. apply Mask_rect_shape in Hrect. cbn [_mask] in Hrect.
    set (R := length M) in *. set (C := length (default [] (head M))) in *.
    destruct (decide (0 < R)%nat) as [HR|HR].
    + destruct (MaskedGrid_init_built M R C Hrect HR) as (g' & Hg' & Hb & Hm).
      rewrite Hinit in Hg'. injection Hg' as <-.
      exists R, C, (λ r c, default false (cell_at M r c)).
      split; [done|]. rewrite Hm. cbn [_mask]. split; [done|].
      intros r c Hr Hc.
      by destruct (cell_at_shape M R C r c Hrect Hr Hc) as [b ->].
    + assert (M = []) as -> by (destruct M; [done|cbn in R; lia]).
      by cbn in Hinit.
Qed.

Lemma shaped_positive g R C present :
  shaped g R C present → each_cell g ≠ [] → (0 < R)%nat ∧ (0 < C)%nat.
Proof.
  intros [Hg _] Hne. destruct (each_cell g) as [|x l] eqn:E; [done|].
  assert (x ∈ each_cell g) as Hx by (rewrite E; left).
  apply (elem_of_each_cell g R C present x Hg) in Hx as (r & c & ? & ? & _). lia.
Qed.

Lemma length_bind_const {A B} (f : A → list B) (l : list A) n :
  (∀ a, a ∈ l → length (f a) = n) → length (l ≫= f) = (length l * n)%nat.
Proof.
  induction l as [|a l IH]; intros Hf; [done|].
  cbn. rewrite length_app, IH, Hf; [lia|left|]. intros b Hb. apply Hf. by right.
Qed.

Lemma length_bind_ext {A B B'} (f : A → list B) (f' : A → list B') (l : list A) :
  (∀ a, a ∈ l → length (f a) = length (f' a)) →
  length (l ≫= f) = length (l ≫= f').
Proof.
  induction l as [|a l IH]; intros Hf; [done|].
  cbn. rewrite !length_app, IH, Hf; [lia|left|]. intros b Hb. apply Hf. by right.
Qed.

Lemma shaped_matrix M R C present :
  has_shape M R C →
  (∀ r c, (r < R)%nat → (c < C)%nat → cell_at M r c = Some (present r c)) →
  M = (λ r, present r <$> seq 0 C) <$> seq 0 R.
Proof.
  intros Hsh Hat. apply (has_shape_ext _ _ R C); [done| |].
  - split; [by rewrite length_fmap, length_seq|].
    apply Forall_fmap, Forall_forall. intros r _. cbn.
    by rewrite length_fmap, length_seq.
  - intros r c Hr Hc. rewrite Hat by done. unfold cell_at.
    rewrite list_lookup_fmap, lookup_seq_lt by done. cbn.
    by rewrite list_lookup_fmap, lookup_seq_lt by done.
Qed.

Lemma Grid_size_cells g R C present :
  shaped g R C present → each_cell g ≠ [] →
  Grid_size g = Ok (Z.of_nat (length (each_cell g))).
Proof.
  intros Hsh Hne. destruct (shaped_positive g R C present Hsh Hne) as [HR HC].
  destruct Hsh as [Hg Hmask]. unfold Grid_size.
  rewrite (each_cell_built g R C present Hg).
  destruct (MaskedGrid_mask g) as [[M]|].
  - destruct Hmask as [Hsh Hat]. cbn [_mask] in *. f_equal. f_equal.
    unfold Mask_count. cbn [_mask].
    rewrite (shaped_matrix M R C present Hsh Hat).
    f_equal. generalize (seq 0 R) as rs. intros rs.
    induction rs as [|r rs IH]; [done|].
    cbn. rewrite filter_app, !length_app. f_equal; [|exact IH].
    generalize (seq 0 C) as cs. intros cs. clear.
    induction cs as [|c cs IH]; [done|].
    cbn [fmap list_fmap omap list_omap]. rewrite filter_cons.
    unfold slot_of at 1. destruct (present r c).
    + rewrite decide_True by done. cbn [length]. by f_equal.
    + by rewrite decide_False by (by intros []).
  - rewrite (length_bind_const _ _ C), length_seq.
    2: { intros r _. transitivity (length (seq 0 C)); [|apply length_seq].
         generalize (seq 0 C) as cs. intros cs.
         induction cs as [|c cs IH]; [done|]. cbn. unfold slot_of at 1.
         rewrite Hmask. cbn. by rewrite IH. }
    unfold Grid_columns, Grid_rows. unfold built in Hg. rewrite Hg.
    unfold grid_of. rewrite length_fmap, length_seq.
    destruct R as [|R']; [lia|]. cbn [seq fmap list_fmap].
    assert (∀ (x : list (option Cell)) l, py_getitem (x :: l) 0 = Ok x) as ->
      by (intros; by apply (py_getitem_nat _ 0%nat)).
    cbn [mbind result_bind]. rewrite length_fmap, length_seq.
    f_equal. lia.
Qed.


Lemma random_location_loop_on M R C present fuel (k : nat) r :
  has_shape M R C →
  (∀ r c, (r < R)%nat → (c < C)%nat → cell_at M r c = Some (present r c)) →
  (0 < R)%nat → (0 < C)%nat →
  random_location_loop rand fuel (mk_Mask M) (seqZ 0 (Z.of_nat R))
    (seqZ 0 (Z.of_nat C)) k = Some r →
  ∃ (i j : nat) k', r = Ok (Z.of_nat i, Z.of_nat j, k')
                    ∧ (i < R)%nat ∧ (j < C)%nat ∧ present i j = true.
Proof.
  intros Hsh Hat HR HC. revert k.
  induction fuel as [|fuel IH]; intros k Hrun; [done|].
  cbn [random_location_loop] in Hrun.
  destruct (choice_Ok (seqZ 0 (Z.of_nat R)) k) as (i' & Hi' & Hin).
  { intros Hnil. apply (f_equal length) in Hnil. rewrite length_seqZ in Hnil.
    cbn in Hnil. lia. }
  rewrite Hi' in Hrun.
  destruct (choice_Ok (seqZ 0 (Z.of_nat C)) (S k)) as (j' & Hj' & Hjn).
  { intros Hnil. apply (f_equal length) in Hnil. rewrite length_seqZ in Hnil.
    cbn in Hnil. lia. }
  rewrite Hj' in Hrun.
  apply elem_of_seqZ in Hin. apply elem_of_seqZ in Hjn.
  assert (i' = Z.of_nat (Z.to_nat i')) as Hi by lia.
  assert (j' = Z.of_nat (Z.to_nat j')) as Hj by lia.
  set (i := Z.to_nat i') in *. set (j := Z.to_nat j') in *.
  rewrite Hi, Hj in Hrun.
  pose proof (Hat i j ltac:(lia) ltac:(lia)) as Hcell. unfold cell_at in Hcell.
  destruct (M !! i) as [mrow|] eqn:Hrow; [|done]. cbn in Hcell.
  cbn [_mask] in Hrun.
  rewrite (py_getitem_nat M i mrow Hrow) in Hrun. cbn [mbind result_bind] in Hrun.
  rewrite (py_getitem_nat mrow j _ Hcell) in Hrun.
  destruct (present i j) eqn:Hp.
  - injection Hrun as <-. exists i, j, (S (S k)). split_and!; [done|lia..|done].
  - by apply IH in Hrun.
Qed.

Lemma Grid_random_cell_cell g R C present fuel k r :
  shaped g R C present → each_cell g ≠ [] →
  Grid_random_cell rand fuel g k = Some r →
  ∃ cell k', r = Ok (Some cell, k') ∧ cell ∈ each_cell g.
Proof.
  intros Hsh Hne Hrun.
  destruct (shaped_positive g R C present Hsh Hne) as [HR HC].
  pose proof (Grid_size_cells g R C present Hsh Hne) as Hsize.
  destruct Hsh as [Hg Hmask]. unfold Grid_random_cell in Hrun.
  unfold Grid_size in Hsize.
  destruct (MaskedGrid_mask g) as [[M]|].
  - destruct Hmask as [Hsh Hat]. cbn [_mask] in *. injection Hsize as Hcount.
    unfold Mask_random_location in Hrun.
    assert (Mask_count (mk_Mask M) =? 0 = false) as Hz.
    { apply Z.eqb_neq. rewrite Hcount. destruct (each_cell g); [done|cbn; lia]. }
    rewrite Hz, (Mask_columns_shape M R C Hsh HR) in Hrun.
    unfold Mask_rows in Hrun. cbn [_mask] in Hrun. rewrite (proj1 Hsh) in Hrun.
    destruct (random_location_loop rand fuel (mk_Mask M) (seqZ 0 (Z.of_nat R))
                (seqZ 0 (Z.of_nat C)) k) as [r1|] eqn:Hloop; [|done].
    apply (random_location_loop_on M R C present) in Hloop
      as (i & j & k' & -> & Hi & Hj & Hp); [|done..].
    cbn [run_bind] in Hrun. injection Hrun as <-.
    rewrite (Grid_getitem_built g R C present _ _ Hg).
    rewrite decide_True by lia. rewrite !Nat2Z.id.
    unfold slot_of. rewrite Hp. eexists _, _. split; [done|].
    apply (elem_of_each_cell g R C present _ Hg). by exists i, j.
  - injection Hrun as <-. unfold built in Hg. rewrite Hg.
    destruct (choice_Ok (grid_of R C present) k) as (grow & -> & Hgrow).
    { unfold grid_of. intros Hnil. apply (f_equal length) in Hnil.
      rewrite length_fmap, length_seq in Hnil. cbn in Hnil. lia. }
    cbn [mbind result_bind].
    apply list_elem_of_fmap in Hgrow as (i & -> & Hi%elem_of_seq).
    destruct (choice_Ok (slot_of present i <$> seq 0 C) (S k)) as (slot & -> & Hslot).
    { intros Hnil. apply (f_equal length) in Hnil.
      rewrite length_fmap, length_seq in Hnil. cbn in Hnil. lia. }
    apply list_elem_of_fmap in Hslot as (j & -> & Hj%elem_of_seq).
    unfold slot_of. rewrite Hmask. eexists _, _. split; [done|].
    apply (elem_of_each_cell g R C present _ Hg). exists i, j.
    split_and!; [lia|lia|apply Hmask|done].
Qed.

(** Without a mask the random cell needs no loop. *)
Lemma Grid_random_cell_unmasked g R C present fuel k :
  shaped g R C present → each_cell g ≠ [] → MaskedGrid_mask g = None →
  is_Some (Grid_random_cell rand fuel g k).
Proof. intros _ _ Hm. unfold Grid_random_cell. rewrite Hm. by eexists. Qed.


(** *** The four generators on the grids of the constructors *)

Lemma size_present_cells g R C present :
  built g R C present → size (present_cells g) = length (each_cell g).
Proof.
  intros Hg. apply size_list_to_set. by eapply NoDup_each_cell.
Qed.

Lemma present_cells_spanning g R C present σ :
  built g R C present → tree_on σ (present_cells g) → spanning_tree g σ.
Proof.
  intros Hg Htree. apply tree_on_spanning; [by eapply NoDup_each_cell|done].
Qed.

Lemma tree_on_start g x :
  x ∈ each_cell g →
  tree_on (∅ : heap) {[x]} ∧ ({[x]} : gset Cell) ⊆ present_cells g
  ∧ size ({[x]} : gset Cell) = 1%nat.
Proof.
  intros Hx. split_and!; [apply tree_on_singleton| |apply size_singleton].
  apply singleton_subseteq_l. by apply elem_of_present_cells.
Qed.

Lemma aldous_broder_tree g R C present fuel k r :
  shaped g R C present → each_cell g ≠ [] → lattice_connected g →
  aldous_broder rand fuel g (∅, k) = Some r →
  ∃ σ' k', r = Ok (σ', k') ∧ spanning_tree g σ'.
Proof.
  intros Hsh Hne Hconn Hrun. unfold aldous_broder in Hrun. cbn [fst snd] in Hrun.
  destruct (Grid_random_cell rand fuel g k) as [r0|] eqn:Hcell; [|done].
  apply (Grid_random_cell_cell g R C present) in Hcell
    as (cell & k1 & -> & Hcell); [|done..].
  cbn [run_bind] in Hrun.
  rewrite (Grid_size_cells g R C present Hsh Hne) in Hrun. cbn [run_bind] in Hrun.
  destruct Hsh as [Hg _].
  destruct (tree_on_start g cell Hcell) as (Htree & Hsub & Hsize).
  apply (aldous_broder_loop_tree g R C present _ _ _ _ {[cell]}) in Hrun
    as (σ' & k' & -> & Htree'); [|done..|set_solver|].
  - exists σ', k'. split; [done|]. by eapply present_cells_spanning.
  - rewrite Hsize, (size_present_cells g R C present Hg). lia.
Qed.

Lemma elem_of_delete_NoDup (L : list Cell) (i : nat) x y :
  NoDup L → L !! i = Some x → y ∈ delete i L ↔ y ∈ L ∧ y ≠ x.
Proof.
  intros Hnd Hi. rewrite delete_take_drop.
  pose proof (take_drop_middle L i x Hi) as Hmid.
  rewrite <- Hmid in Hnd.
  apply NoDup_app in Hnd as (_ & Hdisj & [Hx _]%NoDup_cons).
  assert (y ∈ L ↔ y ∈ take i L ∨ y = x ∨ y ∈ drop (S i) L) as ->.
  { rewrite <- Hmid at 1. by rewrite elem_of_app, elem_of_cons. }
  rewrite elem_of_app. split.
  - intros [Hy|Hy].
    + split; [by left|]. intros ->. apply (Hdisj x Hy). left.
    + split; [by right; right|]. by intros ->.
  - intros [[Hy|[->|Hy]] Hne]; [by left|done|by right].
Qed.

Lemma wilsons_tree g R C present fuel k r :
  shaped g R C present → each_cell g ≠ [] → lattice_connected g →
  wilsons rand fuel g (∅, k) = Some r →
  ∃ σ' k', r = Ok (σ', k') ∧ spanning_tree g σ'.
Proof.
  intros [Hg _] Hne Hconn Hrun. unfold wilsons, remove_random, randint in Hrun.
  cbn [fst snd] in Hrun.
  pose proof (NoDup_each_cell g R C present Hg) as Hnd.
  set (L := each_cell g) in *.
  assert (0 < length L)%nat as Hlen by (destruct L; [done|cbn; lia]).
  assert (Z.of_nat (length L) - 1 <? 0 = false) as Hb by (apply Z.ltb_ge; lia).
  rewrite Hb in Hrun. cbn [mbind result_bind] in Hrun. rewrite Z.add_0_l in Hrun.
  set (i := (rand k `mod` Z.to_nat (Z.of_nat (length L) - 1 - 0 + 1))%nat) in *.
  assert (i < length L)%nat as Hi.
  { unfold i. replace (Z.to_nat (Z.of_nat (length L) - 1 - 0 + 1)) with (length L)
      by lia. apply Nat.mod_upper_bound. lia. }
  destruct (lookup_lt_is_Some_2 L i Hi) as [x Hx].
  rewrite (py_getitem_nat L i x Hx) in Hrun. cbn [mbind result_bind] in Hrun.
  rewrite Nat2Z.id in Hrun. cbn [run_bind] in Hrun.
  assert (x ∈ each_cell g) as Hxg by (by eapply list_elem_of_lookup_2).
  apply (wilsons_loop_tree g R C present _ _ _ _ {[x]}) in Hrun
    as (σ' & k' & -> & Htree'); [|done|done|apply tree_on_singleton| | |].
  - exists σ', k'. split; [done|]. by eapply present_cells_spanning.
  - eapply sublist_NoDup; [done|apply sublist_delete].
  - intros y. rewrite elem_of_singleton, (elem_of_delete_NoDup L i x y Hnd Hx).
    split; [by intros ->; split; [|intros [_ ?]]|].
    intros [Hy Hno]. destruct (decide (y = x)); [done|]. by destruct Hno.
  - intros y Hy. by apply (elem_of_delete_NoDup L i x y Hnd Hx) in Hy as [? _].
Qed.

Lemma hunt_and_kill_tree g R C present fuel k :
  shaped g R C present → each_cell g ≠ [] → lattice_connected g →
  (length (each_cell g) + 1 ≤ fuel)%nat →
  is_Some (Grid_random_cell rand fuel g k) →
  ∃ σ' k', hunt_and_kill rand fuel g (∅, k) = Some (Ok (σ', k'))
           ∧ spanning_tree g σ'.
Proof.
  intros Hsh Hne Hconn Hfuel [r0 Hcell]. unfold hunt_and_kill. cbn [fst snd].
  rewrite Hcell.
  apply (Grid_random_cell_cell g R C present) in Hcell
    as (cell & k1 & -> & Hcell); [|done..].
  cbn [run_bind]. destruct Hsh as [Hg _].
  destruct (tree_on_start g cell Hcell) as (Htree & Hsub & Hsize).
  destruct (hunt_and_kill_loop_tree g R C present fuel ∅ k1 (Some cell) {[cell]})
    as (σ' & k' & Hrun & Htree'); [done..|set_solver| |].
  - rewrite Hsize, (size_present_cells g R C present Hg).
    assert (0 < length (each_cell g))%nat by (destruct (each_cell g); [done|cbn; lia]).
    lia.
  - exists σ', k'. split; [done|]. by eapply present_cells_spanning.
Qed.

Lemma recursive_backtracker_tree g R C present fuel (start : option Cell) k :
  shaped g R C present → each_cell g ≠ [] → lattice_connected g →
  (2 * length (each_cell g) ≤ fuel)%nat →
  match start with
  | Some cell => cell ∈ each_cell g
  | None => is_Some (Grid_random_cell rand fuel g k)
  end →
  ∃ σ' k', recursive_backtracker rand fuel g start (∅, k) = Some (Ok (σ', k'))
           ∧ spanning_tree g σ'.
Proof.
  intros Hsh Hne Hconn Hfuel Hstart. unfold recursive_backtracker. cbn [fst snd].
  assert (∃ cell k1,
    match start with
    | Some _ => Some (Ok (start, k))
    | None => Grid_random_cell rand fuel g k
    end = Some (Ok (Some cell, k1)) ∧ cell ∈ each_cell g) as (cell & k1 & -> & Hcell).
  { destruct start as [cell|]; [by exists cell, k|].
    destruct Hstart as [r0 Hcell]. rewrite Hcell.
    apply (Grid_random_cell_cell g R C present) in Hcell
      as (cell & k1 & -> & Hcell); [|done..]. by exists cell, k1. }
  cbn [run_bind]. destruct Hsh as [Hg _].
  destruct (tree_on_start g cell Hcell) as (Htree & Hsub & Hsize).
  destruct (recursive_backtracker_loop_tree g R C present fuel ∅ k1 [Some cell]
              {[cell]}) as (σ' & k' & Hrun & Htree'); [done..| | | |].
  - intros slot ->%list_elem_of_singleton. exists cell. split; [done|set_solver].
  - intros x y ->%elem_of_singleton Hnot. destruct Hnot. left.
  - rewrite Hsize, (size_present_cells g R C present Hg). cbn [length].
    assert (0 < length (each_cell g))%nat by (destruct (each_cell g); [done|cbn; lia]).
    lia.
  - exists σ', k'. split; [done|]. by eapply present_cells_spanning.
Qed.

End Generators.
